(** * Carte interactive: the map store (MapStorage) and its callers

    A shallow embedding of [src/Poubelle/map-storage.js] (the static class
    [MapStorage]) together with the part of the home page script that
    calls it, and the properties of the persistence layer checked against
    that code.

    JavaScript values are embedded as JSON trees; a property that is
    absent reads as [None] (JavaScript's [undefined]).  The browser's
    [localStorage], the clock and the random source are explicit: the
    store is a finite map inside a [world], write failures are scheduled
    in the world, and the clock and random source are oracles indexed by
    the number of readings made so far. *)

From Stdlib Require Import Floats ZArith Lia Permutation.
From Stdlib Require Uint63.
From stdpp Require Import gmap strings list fin_maps pretty sorting.

Set Warnings "-inexact-float,-register-all".

Local Open Scope string_scope.
Local Open Scope nat_scope.
Local Open Scope list_scope.

(** ** JavaScript values *)

(** A value that survives [JSON.stringify]/[JSON.parse], or that the page
    holds in memory before it is stored.  Numbers are binary64 floats. *)
Inductive json :=
| JNull
| JBool (b : bool)
| JNum (x : float)
| JStr (s : string)
| JArr (l : list json)
| JObj (o : gmap string json).

(** The result of [typeof]. *)
Inductive jstype := TUndefined | TObject | TBoolean | TNumber | TString.

Definition typeof (v : option json) : jstype :=
  match v with
  | None => TUndefined
  | Some JNull | Some (JArr _) | Some (JObj _) => TObject
  | Some (JBool _) => TBoolean
  | Some (JNum _) => TNumber
  | Some (JStr _) => TString
  end.

Definition jstype_eqb (a b : jstype) : bool :=
  match a, b with
  | TUndefined, TUndefined | TObject, TObject | TBoolean, TBoolean
  | TNumber, TNumber | TString, TString => true
  | _, _ => false
  end.

(** ToBoolean: [!v] is [negb (truthy v)]. *)
Definition truthy (v : option json) : bool :=
  match v with
  | None | Some JNull => false
  | Some (JBool b) => b
  | Some (JNum x) => negb (PrimFloat.is_zero x || PrimFloat.is_nan x)
  | Some (JStr s) => negb (String.eqb s "")
  | Some (JArr _) | Some (JObj _) => true
  end.

(** [a === b].  Every comparison of the program has a freshly parsed
    record on one side, so two objects or two arrays are never the same
    reference. *)
Definition strict_eq (a b : option json) : bool :=
  match a, b with
  | None, None => true
  | Some JNull, Some JNull => true
  | Some (JBool x), Some (JBool y) => Bool.eqb x y
  | Some (JNum x), Some (JNum y) => PrimFloat.eqb x y
  | Some (JStr x), Some (JStr y) => String.eqb x y
  | _, _ => false
  end.

(** [v.k] for a [v] that is neither [null] nor [undefined] (reading a
    property of those throws; the callers below guard it).  The keys the
    program reads are never ["length"] nor an index, so a primitive or an
    array has none of them. *)
Definition get (k : string) (v : json) : option json :=
  match v with
  | JObj o => o !! k
  | _ => None
  end.

Definition isArray (v : option json) : bool :=
  match v with Some (JArr _) => true | _ => false end.

(** The global [isNaN] on a value whose [typeof] is already ["number"]. *)
Definition isNaN (v : option json) : bool :=
  match v with Some (JNum x) => PrimFloat.is_nan x | _ => true end.

(** [JSON.parse (JSON.stringify v)]: NaN and the infinities are written
    as [null], and the sign of zero is lost. *)
Fixpoint JSON_roundtrip (v : json) : json :=
  match v with
  | JNum x =>
      if PrimFloat.is_nan x || PrimFloat.is_infinity x then JNull
      else if PrimFloat.is_zero x then JNum 0
      else JNum x
  | JArr l => JArr (JSON_roundtrip <$> l)
  | JObj o => JObj (JSON_roundtrip <$> o)
  | _ => v
  end.

(** The number of nodes of a value, to reason on its nesting. *)
Fixpoint json_size (v : json) : nat :=
  match v with
  | JArr l => S (foldr (λ x acc, json_size x + acc) 0 l)
  | JObj o => S (map_fold (λ _ x acc, json_size x + acc) 0 o)
  | _ => 1
  end.

(** The own enumerable properties copied by an object spread [{...v}].
    A string spreads into its characters keyed by position; Rocq strings
    are byte strings, so that case is exact on ASCII text. *)
Fixpoint index_from {A} (i : nat) (l : list A) : list (string * A) :=
  match l with
  | [] => []
  | x :: l' => (pretty i, x) :: index_from (S i) l'
  end.

Fixpoint chars (s : string) : list json :=
  match s with
  | EmptyString => []
  | String c s' => JStr (String c EmptyString) :: chars s'
  end.

Definition spread (v : option json) : gmap string json :=
  match v with
  | Some (JObj o) => o
  | Some (JArr l) => list_to_map (index_from 0 l)
  | Some (JStr s) => list_to_map (index_from 0 (chars s))
  | _ => ∅
  end.

(** ** The marker and map validators *)

(** [static validateMarkerData(markerData)], map-storage.js 238-247. *)
Definition validateMarkerData (markerData : json) : bool :=
  if negb (truthy (Some markerData))
     || negb (jstype_eqb (typeof (Some markerData)) TObject) then false
  else if jstype_eqb (typeof (get "id" markerData)) TUndefined then false
  else if negb (truthy (get "titre" markerData))
          || negb (jstype_eqb (typeof (get "titre" markerData)) TString) then false
  else if negb (jstype_eqb (typeof (get "lat" markerData)) TNumber)
          || isNaN (get "lat" markerData) then false
  else if negb (jstype_eqb (typeof (get "lon" markerData)) TNumber)
          || isNaN (get "lon" markerData) then false
  else if negb (truthy (get "couleur" markerData))
          || negb (truthy (get "icone" markerData)) then false
  else true.

(** The markers of a map that make [validateMapData] log a warning. *)
Definition invalidMarkers (mapData : json) : list json :=
  match get "markers" mapData with
  | Some (JArr markers) => filter (λ m, validateMarkerData m = false) markers
  | _ => []
  end.

(** [static validateMapData(mapData)], map-storage.js 213-231.  The loop
    over the markers only warns on the console ([invalidMarkers]); it
    never changes the answer. *)
Definition validateMapData (mapData : json) : bool :=
  if negb (truthy (Some mapData))
     || negb (jstype_eqb (typeof (Some mapData)) TObject) then false
  else if negb (truthy (get "id" mapData))
          || negb (jstype_eqb (typeof (get "id" mapData)) TString) then false
  else if negb (truthy (get "title" mapData))
          || negb (jstype_eqb (typeof (get "title" mapData)) TString) then false
  else if negb (truthy (get "created" mapData))
          || negb (truthy (get "modified" mapData)) then false
  else true.

(** ** The runtime: errors, the store, the clock *)

(** What the program can throw.  A [DOMException] carries its [name]
    (the store raises ["QuotaExceededError"] when it is full); [Error] is
    [new Error(message)]. *)
Inductive exn :=
| SyntaxError
| TypeError
| DOMException (name : string)
| Error (message : string).

Definition exn_name (e : exn) : string :=
  match e with
  | SyntaxError => "SyntaxError"
  | TypeError => "TypeError"
  | DOMException n => n
  | Error _ => "Error"
  end.

Definition QuotaExceededError : exn := DOMException "QuotaExceededError".

(** A string as [JSON.parse] sees it: text that parses to a value, or
    text that does not parse (the empty string included, which the
    readers below treat the same way as a parse failure). *)
Inductive payload :=
| Garbled
| Doc (v : json).

Definition JSON_stringify (v : json) : payload := Doc (JSON_roundtrip v).

(** The world the class runs in: the browser's [localStorage], the
    outcomes scheduled for the coming store writes ([Some e]: the write
    throws [e]; [None], or nothing scheduled: it succeeds), and the number
    of clock and random readings made so far. *)
Record world := World {
  localStorage : gmap string payload;
  faults : list (option exn);
  ticks : nat
}.

(** Code that may change the world and may throw. *)
Definition M (A : Type) : Type := world → world * (exn + A).

#[global] Instance M_ret : MRet M := λ A x w, (w, inr x).
#[global] Instance M_bind : MBind M := λ A B f m w,
  match m w with
  | (w', inl e) => (w', inl e)
  | (w', inr a) => f a w'
  end.

Definition throw {A} (e : exn) : M A := λ w, (w, inl e).

(** [try { body } catch (error) { handler }]. *)
Definition try_catch {A} (body : M A) (handler : exn → M A) : M A := λ w,
  match body w with
  | (w', inl e) => handler e w'
  | r => r
  end.

Definition getItem (key : string) : M (option payload) :=
  λ w, (w, inr (localStorage w !! key)).

Definition write_outcome (w : world) : option exn * list (option exn) :=
  match faults w with
  | [] => (None, [])
  | o :: rest => (o, rest)
  end.

Definition setItem (key : string) (value : payload) : M unit := λ w,
  match write_outcome w with
  | (Some e, rest) => (World (localStorage w) rest (ticks w), inl e)
  | (None, rest) =>
      (World (<[key := value]> (localStorage w)) rest (ticks w), inr tt)
  end.

Definition removeItem (key : string) : M unit := λ w,
  match write_outcome w with
  | (Some e, rest) => (World (localStorage w) rest (ticks w), inl e)
  | (None, rest) =>
      (World (delete key (localStorage w)) rest (ticks w), inr tt)
  end.

Definition JSON_parse (p : payload) : M json :=
  match p with
  | Garbled => throw SyntaxError
  | Doc v => mret v
  end.

(** [array.findIndex(p)]; [None] is JavaScript's -1. *)
Fixpoint findIndex (p : json → bool) (l : list json) : option nat :=
  match l with
  | [] => None
  | x :: l' => if p x then Some 0 else S <$> findIndex p l'
  end.

(** [array.sort(cmp)]: the stable sort, by insertion.  The comparator
    returns a number, [None] standing for NaN, which [sort] reads as 0.
    (With dates that do not parse the comparator is inconsistent and the
    order browsers produce is implementation-defined; the model then
    gives the order of this insertion sort.) *)
Definition positive_result (r : option Z) : bool :=
  match r with Some z => (0 <? z)%Z | None => false end.

Fixpoint sort_insert (cmp : json → json → option Z) (x : json) (l : list json) : list json :=
  match l with
  | [] => [x]
  | y :: l' => if positive_result (cmp x y) then y :: sort_insert cmp x l' else x :: l
  end.

Definition sort (cmp : json → json → option Z) (l : list json) : list json :=
  foldr (sort_insert cmp) [] l.

(** [target.k = v] as JSON sees it afterwards: a property that holds
    [undefined] is not written by [JSON.stringify]. *)
Definition assign (k : string) (v : option json) (o : gmap string json) : gmap string json :=
  match v with
  | Some x => <[k := x]> o
  | None => delete k o
  end.

(** ** The class [MapStorage] *)

Definition STORAGE_KEY : string := "mapCreator_maps".
Definition SETTINGS_KEY : string := "mapCreator_settings".
Definition MAX_MAPS : nat := 50.
Definition VERSION : string := "1.0.0".

(** The result of [importMaps] and of [migrateMaps]. *)
Record importResult := ImportResult { imported : nat; skipped : nat; total : nat }.
Record migrateResult := MigrateResult { migrated : nat; migrate_total : nat }.

(** The result of [cleanupStorage] and the report of
    [checkDataIntegrity]; both have a field [validMaps]. *)
Module Cleanup.
Record result := Result {
  totalProcessed : nat;
  validMaps : nat;
  removedMaps : nat;
  fixedMaps : nat
}.
End Cleanup.

Module Integrity.
Record report := Report {
  totalMaps : nat;
  validMaps : nat;
  invalidMaps : nat;
  totalMarkers : nat;
  invalidMarkers : nat;
  integrityScore : json
}.
End Integrity.

(** The messages of the two errors [saveMap] throws. *)
Definition capacity_message : string :=
  "Espace de stockage insuffisant. Supprimez quelques cartes anciennes.".
Definition failure_message : string := "Impossible de sauvegarder la carte".

(** [m.id === id]. *)
Definition has_id (id : option json) (m : json) : bool := strict_eq (get "id" m) id.

(** What the store holds under [STORAGE_KEY], read as an array of records
    (nothing when the entry is absent, does not parse or is no array), and
    the part of it that passes [validateMapData]. *)
Definition storedMaps (w : world) : list json :=
  match localStorage w !! STORAGE_KEY with
  | Some (Doc (JArr l)) => l
  | _ => []
  end.

Definition visibleMaps (w : world) : list json :=
  List.filter validateMapData (storedMaps w).

(** A value that [JSON.stringify] followed by [JSON.parse] gives back
    unchanged: it holds no NaN, no infinity and no negative zero. *)
Definition JSON_stable (v : json) : Prop := JSON_roundtrip v = v.

(** The world after a successful write of [maps] under [STORAGE_KEY]. *)
Definition written (maps : list json) (w : world) : world :=
  World (<[STORAGE_KEY := JSON_stringify (JArr maps)]> (localStorage w))
        (tail (faults w)) (ticks w).

(** A payload that [importMaps] must refuse: text that does not parse, or
    whose [maps] field is missing or is not an array. *)
Definition malformed (jsonData : payload) : bool :=
  match jsonData with
  | Garbled => true
  | Doc v => negb (isArray (get "maps" v))
  end.

(** ** A sample environment

    A clock, a random source and a date parser to run the class on
    concrete stores.  The parser is exact on the year-only form of ISO
    8601 (["2024"] is midnight UTC on the first of January 2024) and is
    only ever applied to such texts below. *)
Definition pad2 (n : nat) : string :=
  if n <? 10 then "0" +:+ pretty n else pretty n.

Definition sample_toISOString (n : nat) : string :=
  "2024-01-01T00:" +:+ pad2 ((n / 60) mod 60) +:+ ":" +:+ pad2 (n mod 60) +:+ ".000Z".

Definition sample_Date_now (n : nat) : Z := (1704067200000 + 1000 * Z.of_nat n)%Z.

Definition sample_Math_random (n : nat) : string := "k3v9x" +:+ pretty n.

Definition digit (c : Ascii.ascii) : option Z :=
  let n := Ascii.nat_of_ascii c in
  if (48 <=? n) && (n <=? 57) then Some (Z.of_nat (n - 48)) else None.

Definition year_of (s : string) : option Z :=
  match s with
  | String a (String b (String c (String d EmptyString))) =>
      match digit a, digit b, digit c, digit d with
      | Some a, Some b, Some c, Some d => Some (1000 * a + 100 * b + 10 * c + d)%Z
      | _, _, _, _ => None
      end
  | _ => None
  end.

(** Milliseconds from the epoch to the start of year [y]. *)
Definition year_start (y : Z) : Z :=
  let leaps y := (y / 4 - y / 100 + y / 400)%Z in
  (86400000 * (365 * (y - 1970) + (leaps (y - 1) - leaps 1969)))%Z.

Definition sample_Date_value (v : option json) : option Z :=
  match v with
  | Some (JStr s) => year_start <$> year_of s
  | _ => None
  end.

(** A map record with the given id, title and year of creation. *)
Definition sample_map (id title created : string) : gmap string json :=
  <["id" := JStr id]> (<["title" := JStr title]> (<["created" := JStr created]>
  (<["modified" := JStr "2024"]> (<["markers" := JArr []]> ∅)))).

(** A store that holds [maps] as its Collection, with [faults] scheduled
    for the coming writes. *)
Definition sample_world (maps : list json) (faults : list (option exn)) : world :=
  World {[ STORAGE_KEY := Doc (JArr maps) ]} faults 0.

(** [n] records created in the years [y], [y+1], ..., with ids ["m<year>"]. *)
Fixpoint sample_maps (n : nat) (y : nat) : list (gmap string json) :=
  match n with
  | 0 => []
  | S n' => sample_map ("m" +:+ pretty y) ("Carte " +:+ pretty y) (pretty y) :: sample_maps n' (S y)
  end.

(** The range the data model gives to a coordinate: a finite number
    between [lo] and [hi]. *)
Definition finite_in_range (lo hi : float) (v : option json) : bool :=
  match v with
  | Some (JNum x) =>
      negb (PrimFloat.is_nan x) && negb (PrimFloat.is_infinity x)
      && PrimFloat.leb lo x && PrimFloat.leb x hi
  | _ => false
  end.

(** The marker [{titre:"x", lat, lon, couleur:"red", icone:"🍴", id:1}]. *)
Definition sample_marker (lat lon : float) : json :=
  JObj (<["titre" := JStr "x"]> (<["lat" := JNum lat]> (<["lon" := JNum lon]>
       (<["couleur" := JStr "red"]> (<["icone" := JStr "🍴"]>
       (<["id" := JNum 1]> ∅)))))).

(** A record from before the [created] field existed: no [created], no
    [version]. *)
Definition sample_old_map : gmap string json :=
  <["id" := JStr "a"]> (<["title" := JStr "Ancienne"]> (<["modified" := JStr "2019"]> ∅)).

(** A valid record saved by an earlier version, without view state. *)
Definition sample_legacy_map : gmap string json :=
  <["version" := JStr "0.9.0"]> (sample_map "b" "Lyon" "2021").

(** A valid record at the current version, looking at the whole world
    (zoom level 0). *)
Definition sample_current_map : gmap string json :=
  <["version" := JStr VERSION]> (<["zoom" := JNum 0]>
  (<["center" := JArr [JNum 48.5; JNum 2.5]]> (sample_map "c" "Monde" "2022"))).

(** An envelope with one valid record and one entry that is no record. *)
Definition sample_incoming : list json :=
  [JObj (sample_map "x" "Importee" "2019"); JNull].

Definition sample_envelope : json :=
  JObj (<["version" := JStr VERSION]> (<["maps" := JArr sample_incoming]> ∅)).

(** A marker without coordinates: it fails [validateMarkerData]. *)
Definition sample_bad_marker : json :=
  JObj (<["titre" := JStr "Sans position"]> (<["id" := JNum 2]> ∅)).

(** A store of two maps, with [faults] scheduled for the coming writes;
    the second map has one valid marker and one that is not. *)
Definition sample_store (faults : list (option exn)) : world :=
  sample_world
    [JObj (sample_map "a" "Paris" "2020");
     JObj (<["markers" := JArr [sample_marker 45.76 4.83; sample_bad_marker]]>
             (sample_map "b" "Lyon" "2021"))]
    faults.

(** A store whose only map has [null] among its markers. *)
Definition sample_null_marker_store : world :=
  sample_world [JObj (<["markers" := JArr [JNull]]> (sample_map "a" "Paris" "2020"))] [].

(** A store that is full: [MAX_MAPS] maps, created in 2000 to 2049. *)
Definition sample_full_store : world :=
  sample_world (JObj <$> sample_maps MAX_MAPS 2000) [].

(** An envelope that carries settings. *)
Definition sample_envelope_settings : json :=
  JObj (<["settings" := JObj {[ "theme" := JStr "dark" ]}]>
          (<["version" := JStr VERSION]> (<["maps" := JArr sample_incoming]> ∅))).

(** The text functions on ASCII letters and spaces. *)
Definition lower_ascii (c : Ascii.ascii) : Ascii.ascii :=
  let n := Ascii.nat_of_ascii c in
  if (65 <=? n) && (n <=? 90) then Ascii.ascii_of_nat (n + 32) else c.

Fixpoint sample_toLowerCase (s : string) : string :=
  match s with
  | EmptyString => EmptyString
  | String c rest => String (lower_ascii c) (sample_toLowerCase rest)
  end.

Fixpoint trim_start (s : string) : string :=
  match s with
  | String c rest => if Ascii.eqb c (Ascii.ascii_of_nat 32) then trim_start rest else s
  | EmptyString => EmptyString
  end.

Fixpoint trim_end (s : string) : string :=
  match s with
  | EmptyString => EmptyString
  | String c rest =>
      let rest' := trim_end rest in
      if Ascii.eqb c (Ascii.ascii_of_nat 32) && String.eqb rest' "" then EmptyString else String c rest'
  end.

Definition sample_trim (s : string) : string := trim_end (trim_start s).

Fixpoint sample_includes (s t : string) : bool :=
  String.prefix t s
  || match s with
     | EmptyString => false
     | String _ rest => sample_includes rest t
     end.

Section MapStorage.

(** The browser's clock, random source and date parser:
    [toISOString n] is the text [new Date().toISOString()] gives at the
    [n]-th reading, [Date_now n] the number [Date.now()] gives,
    [Math_random n] the text of
    [Math.random().toString(36).substr(2, 9)], and [Date_value v] the time
    value of [new Date(v)] in milliseconds, [None] for an invalid date
    (NaN). *)
Variable toISOString : nat → string.
Variable Date_now : nat → Z.
Variable Math_random : nat → string.
Variable Date_value : option json → option Z.

(** [toISOString] never gives the empty text (it gives 24 or 27
    characters). *)
Hypothesis toISOString_nonempty : ∀ n, toISOString n ≠ "".

Definition newDateISO : M string :=
  λ w, (World (localStorage w) (faults w) (S (ticks w)), inr (toISOString (ticks w))).

(** [static generateMapId()], map-storage.js 86-91: the clock is read,
    then the random source; [generatedId t] is the id made when the first
    of these two readings is the [t]-th. *)
Definition generatedId (t : nat) : string :=
  "map_" +:+ pretty (Date_now t) +:+ "_" +:+ Math_random (S t).

Definition generateMapId : M string := λ w,
  (World (localStorage w) (faults w) (S (S (ticks w))), inr (generatedId (ticks w))).

(** [(a, b) => new Date(a.created) - new Date(b.created)]. *)
Definition byCreated (a b : json) : option Z :=
  match Date_value (get "created" a), Date_value (get "created" b) with
  | Some x, Some y => Some (x - y)%Z
  | _, _ => None
  end.

(** [(a, b) => new Date(b.modified) - new Date(a.modified)]. *)
Definition byModifiedDesc (a b : json) : option Z :=
  match Date_value (get "modified" b), Date_value (get "modified" a) with
  | Some x, Some y => Some (x - y)%Z
  | _, _ => None
  end.

(** [static enforceMapLimit(maps)], map-storage.js 97-108; the array is
    changed in place, the model returns its new content. *)
Definition enforceMapLimit (maps : list json) : list json :=
  if MAX_MAPS <? length maps then
    let toRemove := length maps - MAX_MAPS in
    drop toRemove (sort byCreated maps)
  else maps.

(** [static getAllMaps()], map-storage.js 118-132.  A stored value that is
    not an array has no [filter] method: the call throws and the handler
    answers with the empty list. *)
Definition getAllMaps : M (list json) :=
  try_catch
    (data ← getItem STORAGE_KEY;
     match data with
     | None => mret []
     | Some text =>
         maps ← JSON_parse text;
         match maps with
         | JArr l => mret (List.filter validateMapData l)
         | _ => throw TypeError
         end
     end)
    (λ _, mret []).

(** [static getMapById(mapId)], map-storage.js 139-142; [None] is [null]. *)
Definition getMapById (mapId : json) : M (option json) :=
  allMaps ← getAllMaps;
  mret (List.find (has_id (Some mapId)) allMaps).

(** [static getRecentMaps(limit)], map-storage.js 149-155. *)
Definition getRecentMaps (limit : nat) : M (list json) :=
  allMaps ← getAllMaps;
  mret (take limit (sort byModifiedDesc allMaps)).

(** [static handleStorageQuotaExceeded()], map-storage.js 435-454.
    [Math.floor(maps.length * 0.25)] is the quotient by 4 (multiplying by
    0.25 is exact in binary floating point). *)
Definition handleStorageQuotaExceeded : M unit :=
  try_catch
    (maps ← getAllMaps;
     if 10 <? length maps then
       let toRemove := length maps / 4 in
       setItem STORAGE_KEY (JSON_stringify (JArr (drop toRemove (sort byCreated maps))))
     else mret tt)
    (λ _, mret tt).

(** [static saveMap(mapData)], map-storage.js 31-80, for a plain object
    [mapData].  The object is changed in place ([id], [version],
    [modified]); the record that is stored is the changed one. *)
Definition saveMap (mapData : gmap string json) : M json :=
  try_catch
    ('(id, mapData) ←
       match mapData !! "id" with
       | Some id =>
           if truthy (Some id) then mret (id, mapData)
           else id ← generateMapId; mret (JStr id, <["id" := JStr id]> mapData)
       | None => id ← generateMapId; mret (JStr id, <["id" := JStr id]> mapData)
       end;
     now ← newDateISO;
     let mapData := <["modified" := JStr now]> (<["version" := JStr VERSION]> mapData) in
     existingMaps ← getAllMaps;
     let existingMaps :=
       match findIndex (has_id (Some id)) existingMaps with
       | Some existingIndex => <[existingIndex := JObj mapData]> existingMaps
       | None => enforceMapLimit (existingMaps ++ [JObj mapData])
       end in
     setItem STORAGE_KEY (JSON_stringify (JArr existingMaps));;
     mret id)
    (λ error,
       if String.eqb (exn_name error) "QuotaExceededError" then
         handleStorageQuotaExceeded;;
         throw (Error capacity_message)
       else throw (Error failure_message)).

(** [static deleteMap(mapId)], map-storage.js 166-187. *)
Definition deleteMap (mapId : json) : M bool :=
  try_catch
    (allMaps ← getAllMaps;
     let initialCount := length allMaps in
     let filteredMaps := List.filter (λ m, negb (has_id (Some mapId) m)) allMaps in
     if length filteredMaps =? initialCount then mret false
     else
       setItem STORAGE_KEY (JSON_stringify (JArr filteredMaps));;
       mret true)
    (λ _, mret false).

(** [static deleteAllMaps()], map-storage.js 193-202. *)
Definition deleteAllMaps : M bool :=
  try_catch (removeItem STORAGE_KEY;; mret true) (λ _, mret false).

(** [static getDefaultSettings()], map-storage.js 302-312. *)
Definition getDefaultSettings : gmap string json :=
  list_to_map
    [("theme", JStr "light");
     ("defaultMapCenter", JArr [JNum 46.603354; JNum 1.888334]);
     ("defaultZoom", JNum 6);
     ("defaultLayer", JStr "standard");
     ("autoSave", JBool true);
     ("showTooltips", JBool true);
     ("language", JStr "fr")].

(** [static getSettings()], map-storage.js 274-296; its local
    [defaultSettings] has the content of [getDefaultSettings]. *)
Definition getSettings : M (gmap string json) :=
  try_catch
    (data ← getItem SETTINGS_KEY;
     match data with
     | None => mret getDefaultSettings
     | Some text =>
         saved ← JSON_parse text;
         mret (spread (Some saved) ∪ getDefaultSettings)
     end)
    (λ _, mret getDefaultSettings).

(** [static saveSettings(settings)], map-storage.js 257-268. *)
Definition saveSettings (settings : json) : M unit :=
  try_catch
    (currentSettings ← getSettings;
     let updatedSettings := spread (Some settings) ∪ currentSettings in
     setItem SETTINGS_KEY (JSON_stringify (JObj updatedSettings)))
    (λ _, mret tt).

(** The body of the [forEach] of [importMaps], map-storage.js 505-522:
    one incoming record, given the array built so far and the two
    counters. *)
Definition importOne (map : json) (st : list json * nat * nat) : M (list json * nat * nat) :=
  let '(existingMaps, importedCount, skippedCount) := st in
  if validateMapData map then
    newId ← generateMapId;
    importedAt ← newDateISO;
    modifiedAt ← newDateISO;
    let importedMap :=
      <["modified" := JStr modifiedAt]>
        (<["imported" := JStr importedAt]>
           (<["id" := JStr newId]> (spread (Some map)))) in
    mret (existingMaps ++ [JObj importedMap], S importedCount, skippedCount)
  else mret (existingMaps, importedCount, S skippedCount).

Fixpoint importEach (maps : list json) (st : list json * nat * nat) : M (list json * nat * nat) :=
  match maps with
  | [] => mret st
  | map :: rest => st' ← importOne map st; importEach rest st'
  end.

(** [static importMaps(jsonData, replace)], map-storage.js 490-550.
    Reading [importData.maps] throws a [TypeError] when the text is the
    JSON [null]; the handler logs and rethrows. *)
Definition importMaps (jsonData : payload) (replace : bool) : M importResult :=
  try_catch
    (importData ← JSON_parse jsonData;
     maps ← match importData with
            | JNull => throw TypeError
            | _ => mret (get "maps" importData)
            end;
     match maps with
     | Some (JArr incoming) =>
         existingMaps ← (if replace then mret [] else getAllMaps);
         '(existingMaps, importedCount, skippedCount) ←
           importEach incoming (existingMaps, 0, 0);
         let existingMaps := enforceMapLimit existingMaps in
         setItem STORAGE_KEY (JSON_stringify (JArr existingMaps));;
         (if truthy (get "settings" importData) && negb replace then
            currentSettings ← getSettings;
            let mergedSettings := spread (get "settings" importData) ∪ currentSettings in
            saveSettings (JObj mergedSettings)
          else mret tt);;
         mret (ImportResult importedCount skippedCount (length existingMaps))
     | _ => throw (Error "Format de fichier invalide")
     end)
    (λ error, throw error).

(** The marker loop of [applyMigrations], map-storage.js 798-804.  The
    class body is strict code: reading a property of [null] throws, and so
    does creating one on a number, a string or a boolean.  A property put
    on an array is not written by [JSON.stringify]. *)
Definition migrateMarker (created : option json) (marker : json) : exn + json :=
  match marker with
  | JNull => inl TypeError
  | JObj m =>
      if negb (truthy (m !! "created")) then inr (JObj (assign "created" created m))
      else inr marker
  | JArr _ => inr marker
  | JBool _ | JNum _ | JStr _ => inl TypeError
  end.

Fixpoint migrateMarkers (created : option json) (markers : list json) : exn + list json :=
  match markers with
  | [] => inr []
  | marker :: rest =>
      match migrateMarker created marker with
      | inl e => inl e
      | inr marker' =>
          match migrateMarkers created rest with
          | inl e => inl e
          | inr rest' => inr (marker' :: rest')
          end
      end
  end.

(** [[46.603354, 1.888334]], the centre of France. *)
Definition default_center : json := JArr [JNum 46.603354; JNum 1.888334].

(** [static applyMigrations(mapData, fromVersion, toVersion)],
    map-storage.js 779-805; the versions are not used. *)
Definition applyMigrations (mapData : gmap string json) : M (gmap string json) :=
  mapData ← (if negb (truthy (mapData !! "created")) then
               now ← newDateISO; mret (<["created" := JStr now]> mapData)
             else mret mapData);
  let mapData :=
    if negb (truthy (mapData !! "modified")) then
      assign "modified" (mapData !! "created") mapData
    else mapData in
  let mapData :=
    if negb (truthy (mapData !! "center")) then
      <["center" := default_center]> mapData
    else mapData in
  let mapData :=
    if negb (truthy (mapData !! "zoom")) then <["zoom" := JNum 6]> mapData
    else mapData in
  match mapData !! "markers" with
  | Some (JArr markers) =>
      match migrateMarkers (mapData !! "created") markers with
      | inl e => throw e
      | inr markers' => mret (<["markers" := JArr markers']> mapData)
      end
  | _ => mret mapData
  end.

(** The body of the [forEach] of [migrateMaps], map-storage.js 751-758.
    [getAllMaps] only hands objects to it; on anything else the property
    accesses end in a [TypeError]. *)
Definition migrateOne (toVersion : json) (map : json) (migratedCount : nat) : M (json * nat) :=
  match map with
  | JObj o =>
      if negb (truthy (o !! "version"))
         || negb (strict_eq (o !! "version") (Some toVersion)) then
        o' ← applyMigrations o;
        mret (JObj (<["version" := toVersion]> o'), S migratedCount)
      else mret (map, migratedCount)
  | _ => throw TypeError
  end.

Fixpoint migrateEach (toVersion : json) (maps : list json) (migratedCount : nat) : M (list json * nat) :=
  match maps with
  | [] => mret ([], migratedCount)
  | map :: rest =>
      '(map', migratedCount) ← migrateOne toVersion map migratedCount;
      '(rest', migratedCount) ← migrateEach toVersion rest migratedCount;
      mret (map' :: rest', migratedCount)
  end.

(** [static migrateMaps(fromVersion, toVersion)], map-storage.js 744-771;
    [fromVersion] is only logged. *)
Definition migrateMaps (fromVersion toVersion : json) : M migrateResult :=
  try_catch
    (maps ← getAllMaps;
     '(maps, migratedCount) ← migrateEach toVersion maps 0;
     (if 0 <? migratedCount then
        setItem STORAGE_KEY (JSON_stringify (JArr maps))
      else mret tt);;
     mret (MigrateResult migratedCount (length maps)))
    (λ error, throw error).

(** Modelled from the spec: [MapStorage.renameMap], which the home page
    calls ([executeMapRename]) and which the class under [src/] does not
    define.  Section 4.3 of the specification: "rename(id, newTitle):
    no-op if id not found; otherwise updates title and modified", as one
    read of the whole Collection, one change, one write of the whole
    Collection (section 5). *)
Definition renameMap (id : json) (newTitle : string) : M unit :=
  allMaps ← getAllMaps;
  match findIndex (has_id (Some id)) allMaps with
  | None => mret tt
  | Some index =>
      now ← newDateISO;
      let renamed :=
        <["modified" := JStr now]> (<["title" := JStr newTitle]> (spread (allMaps !! index))) in
      setItem STORAGE_KEY (JSON_stringify (JArr (<[index := JObj renamed]> allMaps)))
  end.

(** [executeMapRename(id, newName)] of the home page script
    (src/unnamed/part_002, 508-513); [allMaps] is the page's copy of the
    Collection, whose new content is returned. *)
Definition executeMapRename (id : json) (newName : string) (allMaps : list json) : M (list json) :=
  renameMap id newName;;
  mret (match findIndex (has_id (Some id)) allMaps with
        | Some i => alter (λ m, JObj (<["title" := JStr newName]> (spread (Some m)))) i allMaps
        | None => allMaps
        end).

(** Saving a list of records one after the other, keeping the outcomes. *)
Fixpoint saveAll (records : list (gmap string json)) (w : world) : world * list (exn + json) :=
  match records with
  | [] => (w, [])
  | r :: rest =>
      let '(w1, out) := saveMap r w in
      let '(w2, outs) := saveAll rest w1 in
      (w2, out :: outs)
  end.

(** *** Maintenance, export and queries *)

(** The marker clean-up of [cleanupStorage], map-storage.js 394-404: the
    map with its invalid markers removed, and whether any was. *)
Definition cleanMarkers (map : json) : json * bool :=
  match map with
  | JObj o =>
      match o !! "markers" with
      | Some (JArr markers) =>
          let validMarkers := List.filter validateMarkerData markers in
          if length validMarkers <? length markers then
            (JObj (<["markers" := JArr validMarkers]> o), true)
          else (map, false)
      | _ => (map, false)
      end
  | _ => (map, false)
  end.

(** The [forEach] of [cleanupStorage], map-storage.js 391-411.  The
    warning of the else branch reads [map.title], which throws on
    [null]. *)
Fixpoint cleanEach (maps : list json) (st : list json * nat * nat) : exn + (list json * nat * nat) :=
  match maps with
  | [] => inr st
  | map :: rest =>
      let '(validMaps, removedCount, fixedCount) := st in
      if validateMapData map then
        let '(map', fixed) := cleanMarkers map in
        cleanEach rest (validMaps ++ [map'], removedCount,
                        if fixed then S fixedCount else fixedCount)
      else
        match map with
        | JNull => inl TypeError
        | _ => cleanEach rest (validMaps, S removedCount, fixedCount)
        end
  end.

(** [static cleanupStorage()], map-storage.js 382-430. *)
Definition cleanupStorage : M Cleanup.result :=
  try_catch
    (allMaps ← getAllMaps;
     match cleanEach allMaps ([], 0, 0) with
     | inl e => throw e
     | inr (validMaps, removedCount, fixedCount) =>
         setItem STORAGE_KEY (JSON_stringify (JArr validMaps));;
         mret (Cleanup.Result (length allMaps) (length validMaps) removedCount fixedCount)
     end)
    (λ error, throw error).

(** The counters of [checkDataIntegrity], map-storage.js 671-686:
    [validMaps], [invalidMaps], [totalMarkers], [invalidMarkers]. *)
Fixpoint countMarkers (markers : list json) (st : nat * nat) : nat * nat :=
  match markers with
  | [] => st
  | marker :: rest =>
      let '(totalMarkers, invalidMarkers) := st in
      countMarkers rest
        (S totalMarkers,
         if negb (validateMarkerData marker) then S invalidMarkers else invalidMarkers)
  end.

Fixpoint checkEach (maps : list json) (st : nat * nat * nat * nat) : nat * nat * nat * nat :=
  match maps with
  | [] => st
  | map :: rest =>
      let '(validMaps, invalidMaps, totalMarkers, invalidMarkers) := st in
      if validateMapData map then
        let '(totalMarkers, invalidMarkers) :=
          match get "markers" map with
          | Some (JArr markers) => countMarkers markers (totalMarkers, invalidMarkers)
          | _ => (totalMarkers, invalidMarkers)
          end in
        checkEach rest (S validMaps, invalidMaps, totalMarkers, invalidMarkers)
      else checkEach rest (validMaps, S invalidMaps, totalMarkers, invalidMarkers)
  end.

(** A count as a JavaScript number (exact below 2^53; an array is shorter
    than 2^32). *)
Definition float_of_nat (n : nat) : float :=
  PrimFloat.of_uint63 (Uint63.of_Z (Z.of_nat n)).

Section NumberFormat.

(** [x.toFixed(digits)], the runtime's formatting of a number. *)
Variable Number_toFixed : float → nat → string.

(** [static checkDataIntegrity()], map-storage.js 664-696. *)
Definition checkDataIntegrity : M Integrity.report :=
  maps ← getAllMaps;
  let '(validMaps, invalidMaps, totalMarkers, invalidMarkers) :=
    checkEach maps (0, 0, 0, 0) in
  mret (Integrity.Report (length maps) validMaps invalidMaps totalMarkers invalidMarkers
          (if 0 <? length maps then
             JStr (Number_toFixed
                     (float_of_nat validMaps / float_of_nat (length maps) * 100)%float 1)
           else JNum 100)).

End NumberFormat.

(** [static exportAllMaps()], map-storage.js 464-482; the text it returns
    is given as [JSON.parse] would read it. *)
Definition exportAllMaps : M payload :=
  try_catch
    (maps ← getAllMaps;
     settings ← getSettings;
     exported ← newDateISO;
     let exportData : gmap string json :=
       <["maps" := JArr maps]>
         (<["settings" := JObj settings]>
            (<["exported" := JStr exported]> (<["version" := JStr VERSION]> ∅))) in
     mret (JSON_stringify (JObj exportData)))
    (λ error, throw error).

(** [static isStorageAvailable()], map-storage.js 815-825.  The test
    value is the text ["__storage_test__"], which is no JSON. *)
Definition isStorageAvailable : M bool :=
  try_catch
    (let test := "__storage_test__" in
     setItem test Garbled;;
     removeItem test;;
     mret true)
    (λ _, mret false).

(** [static filterMapsByDate(fromDate, toDate)], map-storage.js 591-598,
    for two [Date] objects given by their time values ([None] for an
    invalid date): a comparison with NaN is false. *)
Definition filterMapsByDate (fromDate toDate : option Z) : M (list json) :=
  allMaps ← getAllMaps;
  mret (List.filter
          (λ map,
             match Date_value (get "created" map), fromDate, toDate with
             | Some createdDate, Some from, Some to =>
                 (from <=? createdDate)%Z && (createdDate <=? to)%Z
             | _, _, _ => false
             end)
          allMaps).

Section Calendar.

(** [date.getFullYear()] and [date.getMonth()] of the date with a given
    time value, in the browser's time zone. *)
Variable getFullYear : Z → Z.
Variable getMonth : Z → Z.

(** [s.padStart(2, '0')]. *)
Definition padStart2 (s : string) : string :=
  match String.length s with
  | 0 => "00"
  | 1 => "0" +:+ s
  | _ => s
  end.

(** The key of [groupMapsByMonth], map-storage.js 609-610; every part of
    an invalid date is NaN. *)
Definition monthKey (map : json) : string :=
  match Date_value (get "created" map) with
  | Some t => pretty (getFullYear t) +:+ "-" +:+ padStart2 (pretty (getMonth t + 1)%Z)
  | None => "NaN-NaN"
  end.

(** [static groupMapsByMonth()], map-storage.js 604-620.  The keys all
    hold a ["-"], so none is a property the empty object inherits. *)
Definition groupMapsByMonth : M (gmap string (list json)) :=
  allMaps ← getAllMaps;
  mret (foldl (λ (grouped : gmap string (list json)) map,
                 let key := monthKey map in
                 match grouped !! key with
                 | Some group => <[key := group ++ [map]]> grouped
                 | None => <[key := [map]]> grouped
                 end)
              ∅ allMaps).

End Calendar.

Section Text.

(** The text functions of the runtime used by [searchMaps]:
    [s.toLowerCase()], [s.trim()] and [s.includes(t)]. *)
Variable String_toLowerCase : string → string.
Variable String_trim : string → string.
Variable String_includes : string → string → bool.

(** [v && v.toLowerCase().includes(term)]: a truthy value that is no
    string has no usable [toLowerCase]. *)
Definition lowerIncludes (v : option json) (term : string) : exn + bool :=
  if truthy v then
    match v with
    | Some (JStr s) => inr (String_includes (String_toLowerCase s) term)
    | _ => inl TypeError
    end
  else inr false.

(** The callback of [some] in [searchMaps], map-storage.js 575-578. *)
Definition markerMatches (term : string) (marker : json) : exn + bool :=
  match marker with
  | JNull => inl TypeError
  | _ =>
      match lowerIncludes (get "titre" marker) term with
      | inl e => inl e
      | inr true => inr true
      | inr false => lowerIncludes (get "description" marker) term
      end
  end.

Fixpoint someMarker (term : string) (markers : list json) : exn + bool :=
  match markers with
  | [] => inr false
  | marker :: rest =>
      match markerMatches term marker with
      | inl e => inl e
      | inr true => inr true
      | inr false => someMarker term rest
      end
  end.

(** The callback of [filter] in [searchMaps], map-storage.js 569-582. *)
Definition mapMatches (term : string) (map : json) : exn + bool :=
  match get "title" map with
  | Some (JStr title) =>
      if String_includes (String_toLowerCase title) term then inr true
      else
        match get "markers" map with
        | Some (JArr markers) => someMarker term markers
        | _ => inr false
        end
  | _ => inl TypeError
  end.

Fixpoint filterMatches (term : string) (maps : list json) : exn + list json :=
  match maps with
  | [] => inr []
  | map :: rest =>
      match mapMatches term map with
      | inl e => inl e
      | inr keep =>
          match filterMatches term rest with
          | inl e => inl e
          | inr rest' => inr (if keep then map :: rest' else rest')
          end
      end
  end.

(** [static searchMaps(searchTerm)], map-storage.js 561-583, for a
    string. *)
Definition searchMaps (searchTerm : string) : M (list json) :=
  if String.eqb searchTerm "" || (String.length (String_trim searchTerm) =? 0) then
    getAllMaps
  else
    let term := String_trim (String_toLowerCase searchTerm) in
    allMaps ← getAllMaps;
    match filterMatches term allMaps with
    | inl e => throw e
    | inr found => mret found
    end.

End Text.


(** *** What [saveMap] stores

    The effect of the body of [saveMap] on a record, read off the code:
    the id it ends with, the record as changed in place, and the array it
    hands to the store, when the clock has been read [t] times. *)
Definition needsId (mapData : gmap string json) : bool :=
  negb (truthy (mapData !! "id")).

Definition idTicks (mapData : gmap string json) : nat :=
  if needsId mapData then 2 else 0.

Definition savedId (mapData : gmap string json) (t : nat) : json :=
  if needsId mapData then JStr (generatedId t)
  else default JNull (mapData !! "id").

Definition stamped (mapData : gmap string json) (t : nat) : gmap string json :=
  <["modified" := JStr (toISOString (t + idTicks mapData))]>
    (<["version" := JStr VERSION]>
       (if needsId mapData then <["id" := JStr (generatedId t)]> mapData else mapData)).

Definition savedCollection (mapData : gmap string json) (t : nat) (existingMaps : list json) : list json :=
  match findIndex (has_id (Some (savedId mapData t))) existingMaps with
  | Some existingIndex => <[existingIndex := JObj (stamped mapData t)]> existingMaps
  | None => enforceMapLimit (existingMaps ++ [JObj (stamped mapData t)])
  end.

(** The world once [n] more readings of the clock have been made. *)
Definition later (n : nat) (w : world) : world :=
  World (localStorage w) (faults w) (ticks w + n).

(** The world after a store write that failed. *)
Definition refused (w : world) : world :=
  World (localStorage w) (tail (faults w)) (ticks w).

(** The world [handleStorageQuotaExceeded] leaves. *)
Definition afterQuotaCleanup (w : world) : world :=
  let maps := visibleMaps w in
  if 10 <? length maps then
    match head (faults w) with
    | Some (Some _) => refused w
    | _ => written (drop (length maps / 4) (sort byCreated maps)) w
    end
  else w.

(** The time value of a record's [created] field, and the order it
    gives: [not_after a b] when both dates are valid and [a] was created
    no later than [b]; [before a b] when strictly earlier. *)
Definition createdAt (m : json) : option Z := Date_value (get "created" m).

Definition not_after (a b : json) : Prop :=
  ∃ x y, createdAt a = Some x ∧ createdAt b = Some y ∧ (x ≤ y)%Z.

Definition before (a b : json) : Prop :=
  ∃ x y, createdAt a = Some x ∧ createdAt b = Some y ∧ (x < y)%Z.

Definition dated (m : json) : Prop := is_Some (createdAt m).

(** What [saveMap] needs of a record for its stored form to pass
    [validateMapData]: an id that is absent (one is generated) or a
    string, a non-empty string title, and a [created] field. *)
Definition storable (mapData : gmap string json) : bool :=
  (needsId mapData || jstype_eqb (typeof (mapData !! "id")) TString)
  && truthy (mapData !! "title")
  && jstype_eqb (typeof (mapData !! "title")) TString
  && truthy (mapData !! "created").

(** A run of saves that are all inserts: when its turn comes, the id of
    each record (its own, or the one generated for it) is not in the
    Collection. *)
Fixpoint inserts (records : list (gmap string json)) (w : world) : Prop :=
  match records with
  | [] => True
  | r :: rest =>
      findIndex (has_id (Some (savedId r (ticks w)))) (visibleMaps w) = None
      ∧ inserts rest (saveMap r w).1
  end.

(** The records of a run of saves as [saveMap] changes them, the first
    one being saved when the clock has been read [t] times. *)
Fixpoint stampedAll (records : list (gmap string json)) (t : nat) : list json :=
  match records with
  | [] => []
  | r :: rest => JObj (stamped r t) :: stampedAll rest (t + idTicks r + 1)
  end.

(** The state of the retention cap along a run of inserts: [kept] is the
    Collection, [evicted] what the cap has removed so far, [all] every
    record that was stored or inserted. *)
Definition cap_invariant (all kept evicted : list json) : Prop :=
  Permutation (evicted ++ kept) all
  ∧ (evicted = [] ∨ length kept = MAX_MAPS)
  ∧ (∀ a b, In a evicted → In b kept → not_after a b).

(** *** What [importMaps] appends

    The record built from a valid incoming [map] when the clock has been
    read [t] times, and the records appended for a whole list: a valid
    record takes four readings (two for the id, one for each date), an
    invalid one none. *)
Definition importedRecord (map : json) (t : nat) : json :=
  JObj (<["modified" := JStr (toISOString (t + 3))]>
          (<["imported" := JStr (toISOString (t + 2))]>
             (<["id" := JStr (generatedId t)]> (spread (Some map))))).

Fixpoint importedAll (incoming : list json) (t : nat) : list json :=
  match incoming with
  | [] => []
  | map :: rest =>
      if validateMapData map then importedRecord map t :: importedAll rest (t + 4)
      else importedAll rest t
  end.

(** *** What [migrateMaps] changes

    The test of the loop of [migrateMaps]; the records whose markers the
    marker loop of [applyMigrations] can go through without a
    [TypeError] (objects and arrays); and what a migrated record [m']
    keeps and gains from the record [m] it comes from. *)
Definition needsMigration (toVersion : json) (m : json) : bool :=
  negb (truthy (get "version" m))
  || negb (strict_eq (get "version" m) (Some toVersion)).

Definition is_object (v : json) : bool :=
  match v with JObj _ | JArr _ => true | _ => false end.

Definition migratable (m : json) : bool :=
  match get "markers" m with
  | Some (JArr markers) => forallb is_object markers
  | _ => true
  end.

Definition backfill_of (toVersion : json) (m m' : json) : Prop :=
  ∃ o o', m = JObj o ∧ m' = JObj o'
    ∧ o' !! "version" = Some toVersion
    ∧ o' !! "created" = o !! "created"
    ∧ o' !! "modified" = o !! "modified"
    ∧ (o !! "center" = None → o' !! "center" = Some default_center)
    ∧ (truthy (o !! "center") = true → o' !! "center" = o !! "center")
    ∧ (o !! "zoom" = None → o' !! "zoom" = Some (JNum 6))
    ∧ (truthy (o !! "zoom") = true → o' !! "zoom" = o !! "zoom")
    ∧ (∀ k, k ≠ "version" → k ≠ "center" → k ≠ "zoom" → k ≠ "markers" →
         o' !! k = o !! k)
    ∧ match o !! "markers" with
      | Some (JArr markers) =>
          ∃ markers', migrateMarkers (o !! "created") markers = inr markers'
                      ∧ o' !! "markers" = Some (JArr markers')
      | other => o' !! "markers" = other
      end.

(** *** Orders and measures for the further properties *)

(** The time value of a record's [modified] field; [newer_or_same a b]
    when both dates are valid and [a] was modified no earlier than [b]. *)
Definition modifiedAt (m : json) : option Z := Date_value (get "modified" m).

Definition newer_or_same (a b : json) : Prop :=
  ∃ x y, modifiedAt a = Some x ∧ modifiedAt b = Some y ∧ (y ≤ x)%Z.

(** The markers [checkDataIntegrity] and [cleanupStorage] look at. *)
Definition markersOf (map : json) : list json :=
  match get "markers" map with
  | Some (JArr markers) => markers
  | _ => []
  end.

(** A map that [cleanupStorage] has to fix: one of the markers it looks
    at fails [validateMarkerData]. *)
Definition needsFix (map : json) : bool :=
  negb (forallb validateMarkerData (markersOf map)).

(** The array [cleanupStorage] builds from the maps it reads. *)
Definition cleaned (maps : list json) : list json :=
  (λ map, (cleanMarkers map).1) <$> maps.

(** All the markers [checkDataIntegrity] counts, and the test it counts
    the invalid ones with. *)
Definition allMarkers (maps : list json) : list json :=
  concat (markersOf <$> maps).

Definition invalidMarker (marker : json) : bool := negb (validateMarkerData marker).

(** A marker [searchMaps] can look at without a [TypeError]: not [null],
    its [titre] and [description] absent, falsy or text. *)
Definition textOrFalsy (v : option json) : bool :=
  negb (truthy v) || jstype_eqb (typeof v) TString.

Definition searchable (marker : json) : bool :=
  match marker with
  | JNull => false
  | _ => textOrFalsy (get "titre" marker) && textOrFalsy (get "description" marker)
  end.

(** ** Running the reads *)

Lemma getAllMaps_run w : getAllMaps w = (w, inr (visibleMaps w)).
Proof.
  unfold getAllMaps, visibleMaps, storedMaps, try_catch, getItem, mbind, M_bind.
  destruct (localStorage w !! STORAGE_KEY) as [[|[]]|]; reflexivity.
Qed.

Lemma visibleMaps_valid w m : In m (visibleMaps w) → validateMapData m = true.
Proof. unfold visibleMaps. intros H. apply filter_In in H. tauto. Qed.

Lemma visibleMaps_stored w m : In m (visibleMaps w) → In m (storedMaps w).
Proof. unfold visibleMaps. intros H. apply filter_In in H. tauto. Qed.

(** ** The sort *)

Lemma sort_insert_perm cmp x l : Permutation (sort_insert cmp x l) (x :: l).
Proof.
  induction l as [|y l IH]; simpl; [reflexivity|].
  destruct (positive_result (cmp x y)); [|reflexivity].
  rewrite IH. apply perm_swap.
Qed.

Lemma sort_perm cmp l : Permutation (sort cmp l) l.
Proof.
  induction l as [|x l IH]; simpl; [reflexivity|].
  rewrite sort_insert_perm. now apply perm_skip.
Qed.

Lemma sort_length cmp l : length (sort cmp l) = length l.
Proof. apply Permutation_length, sort_perm. Qed.

Lemma sort_In cmp l m : In m (sort cmp l) ↔ In m l.
Proof.
  split; apply Permutation_in; [apply sort_perm | symmetry; apply sort_perm].
Qed.

Lemma In_take {A} n (l : list A) x : In x (take n l) → In x l.
Proof. rewrite <- (take_drop n l) at 2. intros H. apply in_or_app. now left. Qed.

Lemma In_drop {A} n (l : list A) x : In x (drop n l) → In x l.
Proof. rewrite <- (take_drop n l) at 2. intros H. apply in_or_app. now right. Qed.

(** ** C10: what the reads return *)

(** C10. Every record returned by [getAllMaps], [getMapById] and
    [getRecentMaps] passes [validateMapData]; [getMapById] answers [null]
    as soon as every stored record that carries the id fails validation
    (in particular when none carries it); and none of the three reads
    changes the store, so a record that fails validation stays in it. *)
Theorem reads_return_valid_maps (w : world) (mapId : json) (limit : nat) :
  (getAllMaps w = (w, inr (visibleMaps w))
   ∧ Forall (λ m, validateMapData m = true) (visibleMaps w))
  ∧ (∃ found, getMapById mapId w = (w, inr found)
       ∧ (∀ m, found = Some m →
            validateMapData m = true ∧ In m (storedMaps w)
            ∧ has_id (Some mapId) m = true)
       ∧ ((∀ m, In m (storedMaps w) → has_id (Some mapId) m = true →
             validateMapData m = false) → found = None))
  ∧ (∃ recent, getRecentMaps limit w = (w, inr recent)
       ∧ Forall (λ m, validateMapData m = true) recent
       ∧ length recent = Nat.min limit (length (visibleMaps w))).
Proof.
  split; [|split].
  - split; [apply getAllMaps_run|].
    apply List.Forall_forall. intros m. apply visibleMaps_valid.
  - exists (List.find (has_id (Some mapId)) (visibleMaps w)).
    split; [|split].
    + unfold getMapById, mbind, M_bind. now rewrite getAllMaps_run.
    + intros m Hm. apply find_some in Hm. destruct Hm as [Hin Hid].
      eauto using visibleMaps_valid, visibleMaps_stored.
    + intros Hall.
      destruct (List.find _ _) as [m|] eqn:Hf; [|reflexivity].
      apply find_some in Hf. destruct Hf as [Hin Hid].
      pose proof (visibleMaps_valid _ _ Hin) as Hv.
      rewrite (Hall m (visibleMaps_stored _ _ Hin) Hid) in Hv. discriminate.
  - exists (take limit (sort byModifiedDesc (visibleMaps w))).
    split; [|split].
    + unfold getRecentMaps, mbind, M_bind. now rewrite getAllMaps_run.
    + apply List.Forall_forall. intros m Hm.
      apply In_take, sort_In in Hm. eauto using visibleMaps_valid.
    + rewrite length_take, sort_length. reflexivity.
Qed.

(** ** C7: a malformed import payload *)

(** C7. When the payload does not parse, or parses to a value whose
    [maps] field is missing or is not an array, [importMaps] throws (the
    parser's [SyntaxError], a [TypeError] on the JSON [null], or the
    class's own format error) and leaves the whole world as it was: the
    stored Collection and the stored settings are not written. *)
Theorem importMaps_malformed (jsonData : payload) (replace : bool) (w : world) :
  malformed jsonData = true →
  ∃ e, importMaps jsonData replace w = (w, inl e)
       ∧ (e = SyntaxError ∨ e = TypeError ∨ e = Error "Format de fichier invalide").
Proof.
  intros Hbad. destruct jsonData as [|v].
  - exists SyntaxError. split; [reflexivity|auto].
  - destruct v as [| b | x | s | l | o];
      try (eexists; split; [reflexivity|auto]).
    simpl in Hbad.
    destruct (o !! "maps") as [[]|] eqn:Hm; try discriminate Hbad;
      (exists (Error "Format de fichier invalide"); split; [|auto]);
      unfold importMaps, try_catch, mbind, M_bind; simpl; rewrite Hm; reflexivity.
Qed.

(** ** Running the writes *)

Lemma setItem_ok key value w :
  head (faults w) = None ∨ head (faults w) = Some None →
  setItem key value w
  = (World (<[key := value]> (localStorage w)) (tail (faults w)) (ticks w), inr tt).
Proof.
  unfold setItem, write_outcome.
  destruct (faults w) as [|[e|] rest]; simpl; intros [H|H]; try discriminate; reflexivity.
Qed.

Lemma setItem_fails key value w e :
  head (faults w) = Some (Some e) → setItem key value w = (refused w, inl e).
Proof.
  unfold setItem, write_outcome, refused.
  destruct (faults w) as [|[e'|] rest]; simpl; intros H; try discriminate.
  now inversion H.
Qed.

Lemma handleStorageQuotaExceeded_run w :
  handleStorageQuotaExceeded w = (afterQuotaCleanup w, inr tt).
Proof.
  unfold handleStorageQuotaExceeded, afterQuotaCleanup, try_catch, mbind, M_bind.
  rewrite getAllMaps_run.
  destruct (10 <? length (visibleMaps w)); [|reflexivity].
  destruct (faults w) as [|[e|] rest] eqn:Hf.
  - rewrite setItem_ok by (rewrite Hf; auto). reflexivity.
  - rewrite (setItem_fails _ _ _ e) by (rewrite Hf; auto). reflexivity.
  - rewrite setItem_ok by (rewrite Hf; auto). reflexivity.
Qed.

(** The body of [saveMap] up to the store write: the array it is about
    to write and the id it is about to return. *)
Lemma saveMap_run mapData w :
  saveMap mapData w
  = let w1 := later (idTicks mapData + 1) w in
    let maps := savedCollection mapData (ticks w) (visibleMaps w) in
    match head (faults w) with
    | Some (Some error) =>
        if String.eqb (exn_name error) "QuotaExceededError" then
          (afterQuotaCleanup (refused w1), inl (Error capacity_message))
        else (refused w1, inl (Error failure_message))
    | _ => (written maps w1, inr (savedId mapData (ticks w)))
    end.
Proof.
  assert (Hq : ∀ e x, 
    (if String.eqb (exn_name e) "QuotaExceededError" then
       λ w : world,
         match handleStorageQuotaExceeded w with
         | (w', inl e0) => (w', inl e0)
         | (w', inr _) => throw (A:=json) (Error capacity_message) w'
         end
     else throw (Error failure_message)) x
    = (if String.eqb (exn_name e) "QuotaExceededError" then
         (afterQuotaCleanup x, inl (Error capacity_message))
       else (x, inl (Error failure_message)))).
  { intros e x. destruct (String.eqb _ _); [|reflexivity].
    rewrite handleStorageQuotaExceeded_run. reflexivity. }
  destruct w as [ls fs t].
  unfold saveMap, try_catch, savedCollection, stamped, savedId, idTicks, needsId,
    later, written, refused, generatedId.
  unfold mbind, M_bind, mret, M_ret.
  destruct (mapData !! "id") as [id|] eqn:Hid;
    [destruct (truthy (Some id)) eqn:Ht|];
    cbv beta iota; unfold generateMapId, newDateISO; cbv beta iota;
    rewrite getAllMaps_run; cbv beta iota;
    unfold setItem, write_outcome, visibleMaps, storedMaps;
    cbn [localStorage faults ticks head tail negb default truthy];
    rewrite ?Nat.add_0_r;
    replace (t + (0 + 1)) with (S t) by lia;
    replace (t + (2 + 1)) with (S (S (S t))) by lia;
    replace (t + 2) with (S (S t)) by lia;
    destruct fs as [|[e|] rest];
    cbn [localStorage faults ticks head tail negb default];
    try reflexivity; apply Hq.
Qed.

Lemma deleteMap_run mapId w :
  deleteMap mapId w
  = let filteredMaps := List.filter (λ m, negb (has_id (Some mapId) m)) (visibleMaps w) in
    if length filteredMaps =? length (visibleMaps w) then (w, inr false)
    else match head (faults w) with
         | Some (Some _) => (refused w, inr false)
         | _ => (written filteredMaps w, inr true)
         end.
Proof.
  unfold deleteMap, try_catch, mbind, M_bind, mret, M_ret.
  rewrite getAllMaps_run. cbv beta iota zeta.
  destruct (_ =? _); [reflexivity|].
  destruct (faults w) as [|[e|] rest] eqn:Hf.
  - rewrite setItem_ok by (rewrite Hf; auto). reflexivity.
  - rewrite (setItem_fails _ _ _ e) by (rewrite Hf; auto). reflexivity.
  - rewrite setItem_ok by (rewrite Hf; auto). reflexivity.
Qed.

Lemma deleteAllMaps_run w :
  deleteAllMaps w
  = match head (faults w) with
    | Some (Some _) => (refused w, inr false)
    | _ => (World (delete STORAGE_KEY (localStorage w)) (tail (faults w)) (ticks w), inr true)
    end.
Proof.
  unfold deleteAllMaps, try_catch, mbind, M_bind, mret, M_ret, removeItem,
    write_outcome, refused.
  destruct (faults w) as [|[e|] rest]; reflexivity.
Qed.

(** ** C3: a store write that fails *)

(** C3 (amended). When the coming store write fails: [saveMap] throws an
    explicit error (the capacity error for a full store, the generic
    failure otherwise); [deleteMap] and [deleteAllMaps] do not throw,
    they answer [false] and leave the store as it was. *)
Theorem store_write_failure (w : world) (e : exn) :
  head (faults w) = Some (Some e) →
  (∀ mapData, ∃ w',
      saveMap mapData w
      = (w', inl (Error (if String.eqb (exn_name e) "QuotaExceededError"
                         then capacity_message else failure_message))))
  ∧ (∀ mapId, ∃ w',
        deleteMap mapId w = (w', inr false) ∧ localStorage w' = localStorage w)
  ∧ deleteAllMaps w = (refused w, inr false).
Proof.
  intros Hf. split; [|split].
  - intros mapData. rewrite saveMap_run. cbv zeta.
    replace (head (faults w)) with (Some (Some e)).
    destruct (String.eqb _ _); eexists; reflexivity.
  - intros mapId. rewrite deleteMap_run. cbv zeta.
    destruct (_ =? _); [eauto|]. rewrite Hf. eauto.
  - rewrite deleteAllMaps_run, Hf. reflexivity.
Qed.

(** ** Sorting by creation date *)

Lemma not_after_trans a b c : not_after a b → not_after b c → not_after a c.
Proof.
  intros (x & y & Hx & Hy & Hxy) (y' & z & Hy' & Hz & Hyz).
  exists x, z. rewrite Hy in Hy'. inversion Hy'; subst. repeat split; auto. lia.
Qed.

Lemma sort_insert_sorted x l :
  dated x → Forall dated l →
  StronglySorted not_after l → StronglySorted not_after (sort_insert byCreated x l).
Proof.
  intros [kx Hx] Hd Hs. induction Hs as [|y l Hs IH Hy]; simpl.
  - repeat constructor.
  - apply Forall_cons in Hd as [[ky Hky] Hd].
    unfold byCreated. fold (createdAt x). fold (createdAt y).
    rewrite Hx, Hky. simpl. destruct (0 <? kx - ky)%Z eqn:Hc.
    + apply Z.ltb_lt in Hc. constructor; [auto|].
      apply List.Forall_forall. intros z Hz.
      apply (Permutation_in _ (sort_insert_perm byCreated x l)) in Hz.
      destruct Hz as [<-|Hz].
      * exists ky, kx. repeat split; auto. lia.
      * rewrite List.Forall_forall in Hy. auto.
    + apply Z.ltb_ge in Hc.
      assert (Hxy : not_after x y) by (exists kx, ky; repeat split; auto; lia).
      constructor; [constructor; auto|].
      constructor; [auto|].
      eapply Forall_impl; [exact Hy|]. intros z Hz. eapply not_after_trans; eauto.
Qed.

Lemma sort_byCreated_sorted l :
  Forall dated l → StronglySorted not_after (sort byCreated l).
Proof.
  induction l as [|x l IH]; intros Hd; simpl; [constructor|].
  apply Forall_cons in Hd as [Hx Hd].
  apply sort_insert_sorted; auto.
  apply List.Forall_forall. intros z Hz. apply sort_In in Hz.
  rewrite List.Forall_forall in Hd. auto.
Qed.

(** Cutting a sorted array in two: whatever is dropped from the front
    was created no later than whatever stays. *)
Lemma sorted_cut n l a b :
  StronglySorted not_after l → In a (take n l) → In b (drop n l) → not_after a b.
Proof.
  intros Hs Ha Hb. rewrite <- (take_drop n l) in Hs.
  apply list_elem_of_In in Ha, Hb.
  eapply StronglySorted_app_1_elem_of; eauto.
Qed.

(** ** C5: saving into a full store *)

Lemma visibleMaps_same w1 w2 :
  localStorage w1 = localStorage w2 → visibleMaps w1 = visibleMaps w2.
Proof. unfold visibleMaps, storedMaps. now intros ->. Qed.

(** C5 (amended). When the write of a save is refused for lack of space,
    [saveMap] makes one cleaning pass and throws the capacity error; it
    does not write the record again.  The pass evicts only when more than
    10 valid maps are stored: it then writes back the Collection without
    the first quarter (rounded down) of its sort by [created], which are
    the oldest records when every date is valid.  With 10 maps or fewer,
    or when the write of the pass is refused too, the store is left as it
    was. *)
Theorem save_on_full_store (w : world) (mapData : gmap string json) :
  head (faults w) = Some (Some QuotaExceededError) →
  ∃ w', saveMap mapData w = (w', inl (Error capacity_message))
    ∧ (length (visibleMaps w) ≤ 10 →
         localStorage w' = localStorage w ∧ faults w' = tail (faults w))
    ∧ (10 < length (visibleMaps w) →
         match head (tail (faults w)) with
         | Some (Some _) => localStorage w' = localStorage w
         | _ =>
             ∃ evicted survivors,
               Permutation (evicted ++ survivors) (visibleMaps w)
               ∧ length evicted = length (visibleMaps w) / 4
               ∧ localStorage w'
                 = <[STORAGE_KEY := JSON_stringify (JArr survivors)]> (localStorage w)
               ∧ (Forall dated (visibleMaps w) →
                    ∀ a b, In a evicted → In b survivors → not_after a b)
         end
         ∧ faults w' = tail (tail (faults w))).
Proof.
  intros Hf. rewrite saveMap_run. cbv zeta. rewrite Hf.
  change (String.eqb (exn_name QuotaExceededError) "QuotaExceededError") with true.
  cbv iota. eexists. split; [reflexivity|].
  set (w1 := refused (later (idTicks mapData + 1) w)).
  assert (Hv : visibleMaps w1 = visibleMaps w) by (apply visibleMaps_same; reflexivity).
  unfold afterQuotaCleanup. rewrite Hv.
  destruct (10 <? length (visibleMaps w)) eqn:Hn.
  - apply Nat.ltb_lt in Hn. split; [lia|]. intros _.
    change (faults w1) with (tail (faults w)).
    destruct (head (tail (faults w))) as [[e|]|] eqn:Hh;
      (split; [|reflexivity]); try reflexivity.
    all: exists (take (length (visibleMaps w) / 4) (sort byCreated (visibleMaps w))),
                (drop (length (visibleMaps w) / 4) (sort byCreated (visibleMaps w))).
    all: split; [rewrite take_drop; apply sort_perm|].
    all: split; [rewrite length_take, sort_length;
                 pose proof (Nat.Div0.div_le_upper_bound (length (visibleMaps w)) 4
                               (length (visibleMaps w))); lia|].
    all: split; [reflexivity|].
    all: intros Hd a b; apply sorted_cut, sort_byCreated_sorted, Hd.
  - apply Nat.ltb_ge in Hn. split; [|lia]. intros _. split; reflexivity.
Qed.

(** ** What a write leaves in the store *)

Lemma filter_all {A} (p : A → bool) (l : list A) :
  Forall (λ x, p x = true) l → List.filter p l = l.
Proof.
  induction 1 as [|x l Hx _ IH]; simpl; [reflexivity|]. now rewrite Hx, IH.
Qed.

Lemma roundtrip_all (l : list json) :
  Forall JSON_stable l → JSON_roundtrip <$> l = l.
Proof.
  induction 1 as [|x l Hx _ IH]; [reflexivity|].
  unfold JSON_stable in Hx. now rewrite fmap_cons, Hx, IH.
Qed.

Lemma visibleMaps_written c w :
  visibleMaps (written c w) = List.filter validateMapData (JSON_roundtrip <$> c).
Proof.
  unfold visibleMaps, storedMaps, written, JSON_stringify. simpl.
  now rewrite lookup_insert_eq.
Qed.

Lemma visibleMaps_written_clean c w :
  Forall JSON_stable c → Forall (λ m, validateMapData m = true) c →
  visibleMaps (written c w) = c.
Proof.
  intros Hs Hv. rewrite visibleMaps_written, roundtrip_all by assumption.
  now apply filter_all.
Qed.

Lemma storedMaps_written_clean c w :
  Forall JSON_stable c → storedMaps (written c w) = c.
Proof.
  intros Hs. unfold storedMaps, written, JSON_stringify. cbn [localStorage JSON_roundtrip].
  now rewrite lookup_insert_eq, roundtrip_all.
Qed.

Lemma JSON_stable_obj o : JSON_stable (JObj o) ↔ JSON_roundtrip <$> o = o.
Proof.
  unfold JSON_stable. simpl. split; [now intros [= ->]|now intros ->].
Qed.

Lemma JSON_stable_insert_str k s o :
  JSON_stable (JObj o) → JSON_stable (JObj (<[k := JStr s]> o)).
Proof.
  rewrite !JSON_stable_obj. intros H. now rewrite fmap_insert, H.
Qed.

(** What [JSON.stringify] writes reads back unchanged when it is written
    again: every record the class has stored is stable. *)
Lemma json_size_lookup (o : gmap string json) k x :
  o !! k = Some x → json_size x < json_size (JObj o).
Proof.
  intros H. cbn [json_size].
  rewrite <- (insert_delete_id o k x H).
  rewrite map_fold_insert_L; [lia|intros; lia|apply lookup_delete_eq].
Qed.

Lemma json_size_In l x : In x l → json_size x < json_size (JArr l).
Proof.
  cbn [json_size]. induction l as [|y l IH]; [intros []|].
  intros [<-|H]; cbn [foldr]; [lia|]. specialize (IH H). lia.
Qed.

Lemma JSON_roundtrip_num x : JSON_stable (JSON_roundtrip (JNum x)).
Proof.
  unfold JSON_stable. cbn [JSON_roundtrip].
  destruct (PrimFloat.is_nan x || PrimFloat.is_infinity x) eqn:H1; [reflexivity|].
  destruct (PrimFloat.is_zero x) eqn:H2; cbn [JSON_roundtrip].
  - reflexivity.
  - now rewrite H1, H2.
Qed.

Lemma JSON_roundtrip_stable v : JSON_stable (JSON_roundtrip v).
Proof.
  unfold JSON_stable.
  remember (json_size v) as n eqn:Hn. revert v Hn.
  induction n as [n IH] using lt_wf_ind. intros v Hn.
  destruct v as [| b | x | s | l | o]; try reflexivity.
  - apply JSON_roundtrip_num.
  - cbn [JSON_roundtrip]. f_equal. rewrite <- list_fmap_compose.
    apply list_fmap_ext. intros i x Hx. cbn.
    apply (IH (json_size x)); [|reflexivity]. subst n.
    apply json_size_In, list_elem_of_In, list_elem_of_lookup_2 with i, Hx.
  - cbn [JSON_roundtrip]. f_equal. rewrite <- map_fmap_compose.
    apply map_fmap_ext. intros k x Hx. cbn.
    apply (IH (json_size x)); [|reflexivity]. subst n.
    eapply json_size_lookup, Hx.
Qed.

Lemma written_stable c w : Forall JSON_stable (visibleMaps (written c w)).
Proof.
  rewrite visibleMaps_written. apply List.Forall_forall. intros m Hm.
  apply filter_In in Hm as [Hm _]. apply list_elem_of_In, list_elem_of_fmap in Hm.
  destruct Hm as (y & -> & _). apply JSON_roundtrip_stable.
Qed.

Lemma stamped_stable m t : JSON_stable (JObj m) → JSON_stable (JObj (stamped m t)).
Proof.
  intros H. unfold stamped.
  destruct (needsId m); repeat apply JSON_stable_insert_str; exact H.
Qed.

Lemma stamped_id m t : get "id" (JObj (stamped m t)) = Some (savedId m t).
Proof.
  unfold stamped, savedId, needsId, get.
  rewrite !lookup_insert_ne by discriminate.
  destruct (m !! "id") as [i|] eqn:Hi.
  - change (default JNull (Some i)) with i.
    destruct (truthy (Some i)); cbn [negb]; [exact Hi|apply lookup_insert_eq].
  - apply lookup_insert_eq.
Qed.

Lemma stamped_has_id m t : storable m = true → has_id (Some (savedId m t)) (JObj (stamped m t)) = true.
Proof.
  intros Hs. unfold has_id. rewrite stamped_id.
  unfold savedId. unfold storable in Hs.
  destruct (needsId m); cbn [orb andb] in Hs.
  - apply String.eqb_refl.
  - destruct (m !! "id") as [[]|]; try discriminate Hs.
    apply String.eqb_refl.
Qed.

Lemma stamped_other m t k :
  k ≠ "id" → k ≠ "version" → k ≠ "modified" → stamped m t !! k = m !! k.
Proof.
  intros H1 H2 H3. unfold stamped.
  rewrite !lookup_insert_ne by congruence.
  destruct (needsId m); [now rewrite lookup_insert_ne by congruence|reflexivity].
Qed.

Lemma validateMapData_obj o :
  validateMapData (JObj o)
  = truthy (o !! "id") && jstype_eqb (typeof (o !! "id")) TString
    && truthy (o !! "title") && jstype_eqb (typeof (o !! "title")) TString
    && truthy (o !! "created") && truthy (o !! "modified").
Proof.
  unfold validateMapData, get.
  change (truthy (Some (JObj o))) with true.
  change (typeof (Some (JObj o))) with TObject.
  cbn [negb orb jstype_eqb].
  destruct (truthy (o !! "id")), (jstype_eqb (typeof (o !! "id")) TString),
    (truthy (o !! "title")), (jstype_eqb (typeof (o !! "title")) TString),
    (truthy (o !! "created")), (truthy (o !! "modified")); reflexivity.
Qed.

Lemma validateMapData_is_obj m :
  validateMapData m = true → ∃ o, m = JObj o.
Proof.
  destruct m as [| b | x | s | l | o]; intros H; [..|now exists o]; exfalso;
    unfold validateMapData in H; cbn [typeof jstype_eqb negb get] in H;
    rewrite ?orb_true_r in H; discriminate H.
Qed.

Lemma truthy_now n : truthy (Some (JStr (toISOString n))) = true.
Proof.
  unfold truthy. apply negb_true_iff, String.eqb_neq, toISOString_nonempty.
Qed.

Lemma stamped_valid m t : storable m = true → validateMapData (JObj (stamped m t)) = true.
Proof.
  intros Hs. rewrite validateMapData_obj.
  pose proof (stamped_id m t) as Hid. unfold get in Hid. rewrite Hid.
  rewrite !stamped_other by discriminate.
  replace (stamped m t !! "modified") with (Some (JStr (toISOString (t + idTicks m))))
    by (unfold stamped; now rewrite lookup_insert_eq).
  rewrite truthy_now. unfold storable in Hs.
  apply andb_prop in Hs as [Hs Hc]. apply andb_prop in Hs as [Hs Ht2].
  apply andb_prop in Hs as [Hi Ht1]. rewrite Ht1, Ht2, Hc.
  unfold savedId. unfold needsId in *.
  destruct (m !! "id") as [i|]; [destruct (truthy (Some i)) eqn:Hti|];
    try change (default JNull (Some i)) with i;
    cbn [negb orb] in *; try reflexivity.
  rewrite Hti. destruct i; try discriminate Hi. reflexivity.
Qed.

Lemma valid_storable m : validateMapData (JObj m) = true → storable m = true.
Proof.
  rewrite validateMapData_obj. unfold storable, needsId. intros H.
  repeat (apply andb_prop in H as [H ?]).
  repeat (apply andb_true_intro; split); try assumption.
  apply orb_true_iff. now right.
Qed.

(** ** Looking a record up by id *)

Lemma findIndex_None p l : findIndex p l = None ↔ Forall (λ x, p x = false) l.
Proof.
  induction l as [|x l IH]; simpl; [split; auto|].
  destruct (p x) eqn:Hp.
  - split; [discriminate|]. intros H. apply Forall_cons in H as [H _]. congruence.
  - destruct (findIndex p l); simpl.
    + split; [discriminate|]. intros H. apply Forall_cons in H as [_ H].
      apply IH in H. discriminate.
    + split; [|reflexivity]. intros _. constructor; [assumption|]. now apply IH.
Qed.

Lemma findIndex_found p l x :
  In x l → p x = true → ∃ i, findIndex p l = Some i.
Proof.
  intros Hin Hp. destruct (findIndex p l) as [i|] eqn:Hf; [eauto|].
  apply findIndex_None in Hf. rewrite List.Forall_forall in Hf.
  rewrite (Hf x Hin) in Hp. discriminate.
Qed.

Lemma find_insert_at p l i y :
  findIndex p l = Some i → p y = true → List.find p (<[i := y]> l) = Some y.
Proof.
  revert i. induction l as [|x l IH]; intros i; simpl; [discriminate|].
  destruct (p x) eqn:Hp.
  - intros [= <-] Hy. simpl. now rewrite Hy.
  - destruct (findIndex p l) as [j|]; simpl; [|discriminate].
    intros [= <-] Hy. simpl. rewrite Hp. now apply IH.
Qed.

Lemma findIndex_lt p l i : findIndex p l = Some i → i < length l.
Proof.
  revert i. induction l as [|x l IH]; intros i; simpl; [discriminate|].
  destruct (p x); [intros [= <-]; lia|].
  destruct (findIndex p l) as [j|]; simpl; [|discriminate].
  intros [= <-]. specialize (IH j eq_refl). lia.
Qed.

(** ** C9: saving a record that is already stored *)

Lemma Forall_insert_list {A} (P : A → Prop) (l : list A) i y :
  Forall P l → P y → Forall P (<[i := y]> l).
Proof.
  intros Hl Hy. revert i. induction Hl as [|x l Hx Hl IH]; intros [|i]; simpl;
    constructor; auto.
Qed.

(** One save of a valid record whose id is already in the Collection. *)
Lemma save_update (w : world) (m : gmap string json) :
  faults w = [] →
  Forall JSON_stable (visibleMaps w) →
  validateMapData (JObj m) = true →
  JSON_stable (JObj m) →
  (∃ x, In x (visibleMaps w) ∧ has_id (m !! "id") x = true) →
  ∃ w1,
    saveMap m w = (w1, inr (default JNull (m !! "id")))
    ∧ faults w1 = [] ∧ ticks w1 = ticks w + 1
    ∧ Forall JSON_stable (visibleMaps w1)
    ∧ length (visibleMaps w1) = length (visibleMaps w)
    ∧ storedMaps w1 = visibleMaps w1
    ∧ getMapById (default JNull (m !! "id")) w1
      = (w1, inr (Some (JObj (<["modified" := JStr (toISOString (ticks w))]>
                                (<["version" := JStr VERSION]> m))))).
Proof.
  intros Hf Hst Hv Hm (x & Hx & Hxid).
  assert (Hs : storable m = true) by now apply valid_storable.
  assert (Hn : needsId m = false).
  { rewrite validateMapData_obj in Hv. unfold needsId.
    destruct (truthy (m !! "id")); [reflexivity|discriminate]. }
  assert (Hid : ∃ i, m !! "id" = Some i).
  { unfold needsId in Hn. destruct (m !! "id"); [eauto|discriminate]. }
  destruct Hid as [i Hi].
  assert (Hsid : savedId m (ticks w) = i) by (unfold savedId; now rewrite Hn, Hi).
  assert (Hstamp : stamped m (ticks w)
                   = <["modified" := JStr (toISOString (ticks w))]>
                       (<["version" := JStr VERSION]> m)).
  { unfold stamped, idTicks. now rewrite Hn, Nat.add_0_r. }
  rewrite Hi in *. change (default JNull (Some i)) with i.
  destruct (findIndex_found _ _ _ Hx Hxid) as [k Hk].
  set (c := <[k := JObj (stamped m (ticks w))]> (visibleMaps w)).
  assert (Hc : savedCollection m (ticks w) (visibleMaps w) = c).
  { unfold savedCollection. now rewrite Hsid, Hk. }
  assert (Hcs : Forall JSON_stable c).
  { apply Forall_insert_list; [assumption|now apply stamped_stable]. }
  assert (Hcv : Forall (λ y, validateMapData y = true) c).
  { apply Forall_insert_list; [|now apply stamped_valid].
    apply List.Forall_forall. intros y. apply visibleMaps_valid. }
  exists (written c (later (idTicks m + 1) w)).
  rewrite saveMap_run. cbv zeta. rewrite Hf, Hc, Hsid. cbn [head].
  split; [reflexivity|]. split; [now cbn; rewrite Hf|].
  split; [unfold idTicks; rewrite Hn; reflexivity|].
  rewrite visibleMaps_written_clean, storedMaps_written_clean by assumption.
  split; [assumption|]. split; [apply length_insert|]. split; [reflexivity|].
  unfold getMapById, mbind, M_bind, mret, M_ret.
  rewrite getAllMaps_run, visibleMaps_written_clean by assumption.
  rewrite <- Hstamp. unfold c.
  rewrite (find_insert_at _ _ _ _ Hk); [reflexivity|].
  rewrite <- Hsid. now apply stamped_has_id.
Qed.

(** C9. Saving a valid record whose id is already in the Collection, and
    saving it (or another valid record with the same id) once more: both
    saves succeed and return the id, neither changes the number of maps
    [getAllMaps] returns (which, after a save, are all the records the
    store holds), and after each of them [getMapById] returns the record
    just saved, as stamped by that save.  The writes are assumed
    to succeed and the stored records and the saved ones to be plain JSON
    data. *)
Theorem save_twice (w : world) (m1 m2 : gmap string json) :
  faults w = [] →
  Forall JSON_stable (visibleMaps w) →
  validateMapData (JObj m1) = true → JSON_stable (JObj m1) →
  validateMapData (JObj m2) = true → JSON_stable (JObj m2) →
  m2 !! "id" = m1 !! "id" →
  (∃ x, In x (visibleMaps w) ∧ has_id (m1 !! "id") x = true) →
  ∃ id w1 w2,
    m1 !! "id" = Some id
    ∧ saveMap m1 w = (w1, inr id)
    ∧ saveMap m2 w1 = (w2, inr id)
    ∧ length (visibleMaps w1) = length (visibleMaps w)
    ∧ length (visibleMaps w2) = length (visibleMaps w)
    ∧ storedMaps w1 = visibleMaps w1
    ∧ storedMaps w2 = visibleMaps w2
    ∧ getMapById id w1
      = (w1, inr (Some (JObj (<["modified" := JStr (toISOString (ticks w))]>
                                (<["version" := JStr VERSION]> m1)))))
    ∧ getMapById id w2
      = (w2, inr (Some (JObj (<["modified" := JStr (toISOString (ticks w1))]>
                                (<["version" := JStr VERSION]> m2))))).
Proof.
  intros Hf Hst Hv1 Hs1 Hv2 Hs2 Hid Hx.
  destruct (save_update w m1 Hf Hst Hv1 Hs1 Hx)
    as (w1 & Hsave1 & Hf1 & Ht1 & Hst1 & Hlen1 & Hsv1 & Hget1).
  assert (Hi : ∃ i, m1 !! "id" = Some i).
  { rewrite validateMapData_obj in Hv1.
    destruct (m1 !! "id"); [eauto|discriminate]. }
  destruct Hi as [i Hi]. rewrite Hi in *. change (default JNull (Some i)) with i in *.
  assert (Hx1 : ∃ x, In x (visibleMaps w1) ∧ has_id (m2 !! "id") x = true).
  { unfold getMapById, mbind, M_bind, mret, M_ret in Hget1.
    rewrite getAllMaps_run in Hget1. injection Hget1 as Hfind.
    apply find_some in Hfind. rewrite Hid. eauto. }
  destruct (save_update w1 m2 Hf1 Hst1 Hv2 Hs2 Hx1)
    as (w2 & Hsave2 & Hf2 & Ht2 & Hst2 & Hlen2 & Hsv2 & Hget2).
  rewrite Hid in *. change (default JNull (Some i)) with i in *.
  exists i, w1, w2. repeat split; try assumption. congruence.
Qed.

(** ** C4: the retention cap *)

Lemma enforceMapLimit_In maps m : In m (enforceMapLimit maps) → In m maps.
Proof.
  unfold enforceMapLimit. destruct (MAX_MAPS <? length maps); [|auto].
  intros H. now apply In_drop, sort_In in H.
Qed.

Lemma enforceMapLimit_Forall (P : json → Prop) maps :
  Forall P maps → Forall P (enforceMapLimit maps).
Proof.
  rewrite !List.Forall_forall. intros H m Hm. apply H, enforceMapLimit_In, Hm.
Qed.

Lemma enforceMapLimit_length maps :
  length (enforceMapLimit maps) = Nat.min MAX_MAPS (length maps).
Proof.
  unfold enforceMapLimit. destruct (MAX_MAPS <? length maps) eqn:H.
  - apply Nat.ltb_lt in H. rewrite length_drop, sort_length. lia.
  - apply Nat.ltb_ge in H. lia.
Qed.

(** One insert: the Collection becomes the capped array. *)
Lemma save_insert (w : world) (m : gmap string json) :
  faults w = [] →
  Forall JSON_stable (visibleMaps w) →
  storable m = true → JSON_stable (JObj m) →
  findIndex (has_id (Some (savedId m (ticks w)))) (visibleMaps w) = None →
  saveMap m w
  = (written (enforceMapLimit (visibleMaps w ++ [JObj (stamped m (ticks w))]))
       (later (idTicks m + 1) w),
     inr (savedId m (ticks w)))
  ∧ visibleMaps (saveMap m w).1
    = enforceMapLimit (visibleMaps w ++ [JObj (stamped m (ticks w))])
  ∧ storedMaps (saveMap m w).1 = visibleMaps (saveMap m w).1
  ∧ faults (saveMap m w).1 = []
  ∧ ticks (saveMap m w).1 = ticks w + idTicks m + 1.
Proof.
  intros Hf Hst Hs Hm Hnew.
  rewrite saveMap_run. cbv zeta. rewrite Hf. cbn [head fst].
  unfold savedCollection. rewrite Hnew.
  assert (Hcs : Forall JSON_stable
                  (enforceMapLimit (visibleMaps w ++ [JObj (stamped m (ticks w))]))).
  { apply enforceMapLimit_Forall, Forall_app. split; [assumption|].
    constructor; [now apply stamped_stable|constructor]. }
  assert (Hcv : Forall (λ y, validateMapData y = true)
                  (enforceMapLimit (visibleMaps w ++ [JObj (stamped m (ticks w))]))).
  { apply enforceMapLimit_Forall, Forall_app. split.
    - apply List.Forall_forall. intros y. apply visibleMaps_valid.
    - constructor; [now apply stamped_valid|constructor]. }
  split; [reflexivity|].
  rewrite visibleMaps_written_clean, storedMaps_written_clean by assumption.
  split; [reflexivity|]. split; [reflexivity|]. split.
  - cbn. now rewrite Hf.
  - cbn. lia.
Qed.

Lemma cap_step all kept evicted m :
  cap_invariant all kept evicted →
  Forall dated all → dated m →
  ∃ evicted',
    cap_invariant (all ++ [m]) (enforceMapLimit (kept ++ [m])) evicted'.
Proof.
  intros (Hp & Hfull & Hord) Hd Hm.
  assert (Hdk : Forall dated (kept ++ [m])).
  { apply Forall_app. split; [|now constructor].
    rewrite List.Forall_forall in *. intros x Hx. apply Hd.
    apply (Permutation_in _ Hp), in_or_app. now right. }
  unfold enforceMapLimit.
  destruct (MAX_MAPS <? length (kept ++ [m])) eqn:Hcap.
  - apply Nat.ltb_lt in Hcap. rewrite length_app in Hcap. simpl in Hcap.
    set (n := length (kept ++ [m]) - MAX_MAPS).
    set (sorted := sort byCreated (kept ++ [m])).
    assert (Hsorted : StronglySorted not_after sorted)
      by now apply sort_byCreated_sorted.
    assert (Hps : Permutation (take n sorted ++ drop n sorted) (kept ++ [m]))
      by (rewrite take_drop; apply sort_perm).
    exists (evicted ++ take n sorted). split; [|split].
    + rewrite <- app_assoc, Hps, app_assoc. now rewrite Hp.
    + right. rewrite length_drop. unfold sorted, n.
      rewrite sort_length, length_app. simpl. lia.
    + intros a b Ha Hb. apply in_app_or in Ha as [Ha|Ha];
        [|now apply (sorted_cut n sorted)].
      destruct Hfull as [->|Hlen]; [destruct Ha|].
      assert (Hn : n = 1) by (unfold n; rewrite length_app; simpl; lia).
      rewrite Hn in *.
      destruct sorted as [|d rest] eqn:Hsd.
      { apply (f_equal length) in Hsd. unfold sorted in Hsd.
        rewrite sort_length, length_app in Hsd. simpl in Hsd. lia. }
      simpl in Hps, Hb.
      assert (Hdb : not_after d b).
      { apply (sorted_cut 1 (d :: rest)); simpl; auto. }
      assert (Hd_in : In d (kept ++ [m]))
        by (apply (Permutation_in _ Hps); now left).
      apply in_app_or in Hd_in as [Hdk'|[<-|[]]].
      * eapply not_after_trans; [|exact Hdb]. now apply Hord.
      * apply Hord; [assumption|].
        assert (Hrk : Permutation rest kept).
        { apply (Permutation_cons_inv (a := m)).
          rewrite Hps. symmetry. apply Permutation_cons_append. }
        now apply (Permutation_in _ Hrk).
  - apply Nat.ltb_ge in Hcap. rewrite length_app in Hcap. simpl in Hcap.
    exists evicted.
    destruct Hfull as [->|Hlen]; [|unfold MAX_MAPS in *; lia].
    split; [|split].
    + simpl in *. now rewrite Hp.
    + now left.
    + intros a b [].
Qed.

Lemma createdAt_stamped r t : createdAt (JObj (stamped r t)) = createdAt (JObj r).
Proof. unfold createdAt, get. now rewrite stamped_other by discriminate. Qed.

Lemma createdAt_stampedAll news t :
  createdAt <$> stampedAll news t = createdAt <$> (JObj <$> news).
Proof.
  revert t. induction news as [|r rest IH]; intros t; [reflexivity|].
  cbn [stampedAll]. rewrite !fmap_cons, createdAt_stamped. f_equal. apply IH.
Qed.

Lemma dated_stampedAll news t :
  Forall dated (JObj <$> news) → Forall dated (stampedAll news t).
Proof.
  revert t. induction news as [|r rest IH]; intros t H; simpl; [constructor|].
  rewrite fmap_cons in H. apply Forall_cons in H as [Hr H].
  constructor; [|now apply IH].
  unfold dated in *. now rewrite createdAt_stamped.
Qed.

(** A run of inserts keeps the invariant of the cap. *)
Lemma saveAll_inserts news : ∀ w all evicted,
  faults w = [] →
  Forall JSON_stable (visibleMaps w) →
  Forall (λ r, storable r = true ∧ JSON_stable (JObj r)) news →
  inserts news w →
  cap_invariant all (visibleMaps w) evicted →
  Forall dated all → Forall dated (JObj <$> news) →
  ∃ evicted',
    cap_invariant (all ++ stampedAll news (ticks w))
      (visibleMaps (saveAll news w).1) evicted'
    ∧ Forall (λ out, ∃ id, out = inr id) (saveAll news w).2
    ∧ (news ≠ [] →
         length (visibleMaps (saveAll news w).1) ≤ MAX_MAPS
         ∧ storedMaps (saveAll news w).1 = visibleMaps (saveAll news w).1).
Proof.
  induction news as [|r rest IH]; intros w all evicted Hf Hst Hnews Hins Hinv Hda Hdn.
  - exists evicted. simpl. rewrite app_nil_r.
    split; [exact Hinv|]. split; [constructor|]. intros Hne. now destruct Hne.
  - apply Forall_cons in Hnews as [[Hs Hm] Hnews].
    rewrite fmap_cons in Hdn. apply Forall_cons in Hdn as [Hdr Hdn].
    destruct Hins as [Hnew Hins].
    destruct (save_insert w r Hf Hst Hs Hm Hnew) as (Hrun & Hvis & Hsv & Hf1 & Ht1).
    assert (Hdr' : dated (JObj (stamped r (ticks w))))
      by (unfold dated; now rewrite createdAt_stamped).
    destruct (cap_step all (visibleMaps w) evicted (JObj (stamped r (ticks w))) Hinv Hda Hdr')
      as [evicted1 Hinv1].
    rewrite <- Hvis in Hinv1.
    assert (Hst1 : Forall JSON_stable (visibleMaps (saveMap r w).1)).
    { rewrite Hvis. apply enforceMapLimit_Forall, Forall_app.
      split; [assumption|]. constructor; [now apply stamped_stable|constructor]. }
    assert (Hda1 : Forall dated (all ++ [JObj (stamped r (ticks w))])).
    { apply Forall_app. split; [assumption|now constructor]. }
    destruct (IH (saveMap r w).1 _ evicted1 Hf1 Hst1 Hnews Hins Hinv1 Hda1 Hdn)
      as (evicted' & Hinv' & Houts & Hlen).
    simpl. destruct (saveMap r w) as [w1 out] eqn:Hsave.
    destruct (saveAll rest w1) as [w2 outs] eqn:Hrest.
    cbn [fst snd] in *. rewrite ?Hrest in *. cbn [fst snd] in *.
    exists evicted'. split; [|split].
    + rewrite Ht1 in Hinv'. rewrite <- app_assoc in Hinv'. exact Hinv'.
    + constructor; [|assumption]. injection Hrun as _ ->. eauto.
    + intros _. destruct rest as [|r' rest'].
      * simpl in Hrest. injection Hrest as <- _. split; [|exact Hsv].
        rewrite Hvis, enforceMapLimit_length. lia.
      * apply Hlen. discriminate.
Qed.

Lemma NoDup_fmap_apart {A B} (f : A → B) (l1 l2 : list A) a b :
  NoDup (f <$> (l1 ++ l2)) → In a l1 → In b l2 → f a ≠ f b.
Proof.
  rewrite fmap_app. intros Hnd Ha Hb Heq.
  apply NoDup_app in Hnd as (_ & Hdisj & _).
  apply (Hdisj (f a)).
  - apply list_elem_of_In, in_map, Ha.
  - rewrite Heq. apply list_elem_of_In, in_map, Hb.
Qed.

(** C4. Starting from any stored Collection, a run of [MAX_MAPS + k]
    inserts of storable records, all dates of creation being valid and
    different, leaves exactly [MAX_MAPS] maps, which are all the records
    the store then holds: the Collection and what
    was evicted make up the maps stored before together with the inserted
    ones, [k] records more than were stored before are evicted (exactly
    [k] from an empty store), and every evicted record was created
    strictly before every record that is kept.  The writes are assumed to
    succeed and the records to be plain JSON data. *)
Theorem cap_enforcement (w : world) (news : list (gmap string json)) (k : nat) :
  faults w = [] →
  Forall JSON_stable (visibleMaps w) →
  Forall (λ r, storable r = true ∧ JSON_stable (JObj r)) news →
  inserts news w →
  length news = MAX_MAPS + k →
  Forall dated (visibleMaps w ++ (JObj <$> news)) →
  NoDup (createdAt <$> (visibleMaps w ++ (JObj <$> news))) →
  ∃ evicted,
    Forall (λ out, ∃ id, out = inr id) (saveAll news w).2
    ∧ Permutation (evicted ++ visibleMaps (saveAll news w).1)
        (visibleMaps w ++ stampedAll news (ticks w))
    ∧ length (visibleMaps (saveAll news w).1) = MAX_MAPS
    ∧ storedMaps (saveAll news w).1 = visibleMaps (saveAll news w).1
    ∧ length evicted = length (visibleMaps w) + k
    ∧ (∀ a b, In a evicted → In b (visibleMaps (saveAll news w).1) → before a b).
Proof.
  intros Hf Hst Hnews Hins Hlen Hd Hnd.
  apply Forall_app in Hd as [Hda Hdn].
  assert (Hinv0 : cap_invariant (visibleMaps w) (visibleMaps w) []).
  { split; [reflexivity|]. split; [now left|]. intros a b []. }
  destruct (saveAll_inserts news w _ [] Hf Hst Hnews Hins Hinv0 Hda Hdn)
    as (evicted & (Hp & Hfull & Hord) & Houts & Hcap).
  assert (Hne : news ≠ []).
  { intros ->. simpl in Hlen. unfold MAX_MAPS in Hlen. lia. }
  destruct (Hcap Hne) as [Hcap' Hsv]. clear Hcap. rename Hcap' into Hcap.
  pose proof (Permutation_length Hp) as Hpl.
  rewrite !length_app in Hpl.
  assert (Hsl : length (stampedAll news (ticks w)) = length news).
  { rewrite <- (length_fmap createdAt), createdAt_stampedAll, !length_fmap.
    reflexivity. }
  rewrite Hsl, Hlen in Hpl.
  assert (Hkept : length (visibleMaps (saveAll news w).1) = MAX_MAPS).
  { destruct Hfull as [->|H]; [|exact H]. cbn [length] in Hpl. lia. }
  exists evicted. repeat split; try assumption; [lia|].
  intros a b Ha Hb.
  destruct (Hord a b Ha Hb) as (x & y & Hx & Hy & Hxy).
  exists x, y. repeat split; try assumption.
  assert (Hneq : createdAt a ≠ createdAt b).
  { apply (NoDup_fmap_apart createdAt evicted (visibleMaps (saveAll news w).1));
      try assumption.
    rewrite Hp, fmap_app, createdAt_stampedAll, <- fmap_app. exact Hnd. }
  rewrite Hx, Hy in Hneq. assert (x ≠ y) by congruence. lia.
Qed.

(** ** C6: importing an envelope *)

Lemma later_later a b w : later a (later b w) = later (b + a) w.
Proof. unfold later. simpl. f_equal. lia. Qed.

Lemma later_0 w : later 0 w = w.
Proof. destruct w. unfold later. simpl. f_equal. lia. Qed.

(** The loop of [importMaps]: the valid records are appended in order,
    the two counters count the valid and the invalid ones. *)
Lemma importEach_run incoming : ∀ acc i s w,
  importEach incoming (acc, i, s) w
  = (later (4 * length (List.filter validateMapData incoming)) w,
     inr (acc ++ importedAll incoming (ticks w),
          i + length (List.filter validateMapData incoming),
          s + length (List.filter (λ m, negb (validateMapData m)) incoming))).
Proof.
  induction incoming as [|map rest IH]; intros acc i s w.
  - simpl. rewrite later_0, app_nil_r, !Nat.add_0_r. reflexivity.
  - cbn [importEach]. unfold mbind, M_bind. unfold importOne.
    cbn [List.filter importedAll]. destruct (validateMapData map) eqn:Hv.
    + unfold mbind, M_bind, mret, M_ret, generateMapId, newDateISO.
      cbn [localStorage faults ticks negb].
      rewrite IH. cbn [ticks length]. unfold importedRecord, generatedId, later.
      cbn [localStorage faults ticks].
      replace (S (S (S (ticks w)))) with (ticks w + 3) by lia.
      replace (S (S (ticks w))) with (ticks w + 2) by lia.
      replace (S (ticks w + 3)) with (ticks w + 4) by lia.
      rewrite <- app_assoc. cbn [app].
      replace (ticks w + 4 * S (length (List.filter validateMapData rest)))
        with (ticks w + 4 + 4 * length (List.filter validateMapData rest)) by lia.
      replace (i + S (length (List.filter validateMapData rest)))
        with (S i + length (List.filter validateMapData rest)) by lia.
      reflexivity.
    + unfold mret, M_ret. cbn [negb length]. rewrite IH.
      replace (s + S (length (List.filter (λ m, negb (validateMapData m)) rest)))
        with (S s + length (List.filter (λ m, negb (validateMapData m)) rest)) by lia.
      reflexivity.
Qed.

Lemma getSettings_run w : ∃ settings, getSettings w = (w, inr settings).
Proof.
  unfold getSettings, try_catch, getItem, mbind, M_bind, mret, M_ret.
  destruct (localStorage w !! SETTINGS_KEY) as [[|v]|]; eauto.
Qed.

Lemma saveSettings_run settings w :
  ∃ w', saveSettings settings w = (w', inr tt)
        ∧ localStorage w' !! STORAGE_KEY = localStorage w !! STORAGE_KEY
        ∧ ticks w' = ticks w.
Proof.
  unfold saveSettings, try_catch, mbind, M_bind, mret, M_ret.
  destruct (getSettings_run w) as [current ->].
  unfold setItem, write_outcome.
  destruct (faults w) as [|[e|] rest]; eexists; (split; [reflexivity|]);
    cbn [localStorage ticks]; split; try reflexivity;
    now rewrite lookup_insert_ne by discriminate.
Qed.

Lemma filter_split_length {A} (p : A → bool) (l : list A) :
  length (List.filter p l) + length (List.filter (λ x, negb (p x)) l) = length l.
Proof.
  induction l as [|x l IH]; [reflexivity|].
  cbn [List.filter]. destruct (p x); simpl; lia.
Qed.

(** The records appended by an import, one for each valid incoming
    record, in order. *)
Lemma importedAll_lookup incoming : ∀ t j m,
  List.filter validateMapData incoming !! j = Some m →
  importedAll incoming t !! j = Some (importedRecord m (t + 4 * j)).
Proof.
  induction incoming as [|map rest IH]; intros t j m; [discriminate|].
  cbn [List.filter importedAll]. destruct (validateMapData map).
  - destruct j as [|j]; cbn [lookup list_lookup].
    + intros [= ->]. now rewrite Nat.mul_0_r, Nat.add_0_r.
    + intros H. rewrite (IH _ _ _ H). do 2 f_equal. lia.
  - apply IH.
Qed.

Lemma importedAll_length incoming t :
  length (importedAll incoming t) = length (List.filter validateMapData incoming).
Proof.
  revert t. induction incoming as [|map rest IH]; intros t; [reflexivity|].
  cbn [List.filter importedAll]. destruct (validateMapData map); simpl; now rewrite IH.
Qed.

Lemma importedRecord_fields map t :
  get "id" (importedRecord map t) = Some (JStr (generatedId t))
  ∧ get "imported" (importedRecord map t) = Some (JStr (toISOString (t + 2)))
  ∧ get "modified" (importedRecord map t) = Some (JStr (toISOString (t + 3)))
  ∧ (∀ k, k ≠ "id" → k ≠ "imported" → k ≠ "modified" →
       get k (importedRecord map t) = spread (Some map) !! k).
Proof.
  unfold importedRecord, get. repeat split.
  - rewrite !lookup_insert_ne by discriminate. apply lookup_insert_eq.
  - rewrite lookup_insert_ne by discriminate. apply lookup_insert_eq.
  - apply lookup_insert_eq.
  - intros k H1 H2 H3. now rewrite !lookup_insert_ne by congruence.
Qed.


(** ** C2: renaming a map *)

Lemma valid_set_title o s :
  validateMapData (JObj o) = true → s ≠ "" →
  validateMapData (JObj (<["title" := JStr s]> o)) = true.
Proof.
  rewrite !validateMapData_obj. intros Hv Hs.
  rewrite (lookup_insert_ne o "title" "id"), (lookup_insert_ne o "title" "created"),
    (lookup_insert_ne o "title" "modified"), lookup_insert_eq by discriminate.
  repeat (apply andb_prop in Hv as [Hv ?]).
  repeat (apply andb_true_intro; split); try assumption; try reflexivity.
  unfold truthy. now apply negb_true_iff, String.eqb_neq.
Qed.

Lemma valid_set_modified o n :
  validateMapData (JObj o) = true →
  validateMapData (JObj (<["modified" := JStr (toISOString n)]> o)) = true.
Proof.
  rewrite !validateMapData_obj. intros Hv.
  rewrite (lookup_insert_ne o "modified" "id"), (lookup_insert_ne o "modified" "created"),
    (lookup_insert_ne o "modified" "title"), lookup_insert_eq by discriminate.
  repeat (apply andb_prop in Hv as [Hv ?]).
  repeat (apply andb_true_intro; split); try assumption. apply truthy_now.
Qed.

Lemma findIndex_lookup p l i :
  findIndex p l = Some i → ∃ x, l !! i = Some x ∧ p x = true.
Proof.
  revert i. induction l as [|x l IH]; intros i; simpl; [discriminate|].
  destruct (p x) eqn:Hp.
  - intros [= <-]. eauto.
  - destruct (findIndex p l) as [j|]; simpl; [|discriminate].
    intros [= <-]. simpl. now apply IH.
Qed.

Lemma findIndex_absent p l :
  (∀ m, In m l → p m = false) → findIndex p l = None.
Proof. intros H. apply findIndex_None, List.Forall_forall, H. Qed.

(** C2. [renameMap], as the specification describes it: when no map of
    the Collection carries the id it returns normally and changes
    nothing, and then neither does the page's [executeMapRename] on a
    page copy without that id; when a map carries the id, and the store
    accepts the write, the first such map gets the new title and a fresh
    [modified] stamp, every other map being kept as it is. *)
Theorem rename_contract (w : world) (id : json) (newTitle : string) (allMaps : list json) :
  ((∀ m, In m (visibleMaps w) → has_id (Some id) m = false) →
     renameMap id newTitle w = (w, inr tt)
     ∧ ((∀ m, In m allMaps → has_id (Some id) m = false) →
          executeMapRename id newTitle allMaps w = (w, inr allMaps)))
  ∧ (∀ m, In m (visibleMaps w) → has_id (Some id) m = true →
       faults w = [] → Forall JSON_stable (visibleMaps w) → newTitle ≠ "" →
       ∃ i o w',
         findIndex (has_id (Some id)) (visibleMaps w) = Some i
         ∧ visibleMaps w !! i = Some (JObj o)
         ∧ renameMap id newTitle w = (w', inr tt)
         ∧ visibleMaps w'
           = <[i := JObj (<["modified" := JStr (toISOString (ticks w))]>
                            (<["title" := JStr newTitle]> o))]> (visibleMaps w)).
Proof.
  split.
  - intros Hnone.
    assert (Hr : renameMap id newTitle w = (w, inr tt)).
    { unfold renameMap, mbind, M_bind. rewrite getAllMaps_run.
      now rewrite (findIndex_absent _ _ Hnone). }
    split; [exact Hr|]. intros Hpage.
    unfold executeMapRename, mbind, M_bind. rewrite Hr.
    now rewrite (findIndex_absent _ _ Hpage).
  - intros m Hin Hid Hf Hst Hne.
    destruct (findIndex_found _ _ _ Hin Hid) as [i Hi].
    destruct (findIndex_lookup _ _ _ Hi) as (x & Hx & Hxid).
    assert (Hxin : In x (visibleMaps w))
      by (apply list_elem_of_In; eapply list_elem_of_lookup_2; eauto).
    pose proof (visibleMaps_valid _ _ Hxin) as Hxv.
    destruct (validateMapData_is_obj x Hxv) as [o ->].
    set (renamed := <["modified" := JStr (toISOString (ticks w))]>
                      (<["title" := JStr newTitle]> o)).
    set (c := <[i := JObj renamed]> (visibleMaps w)).
    exists i, o, (written c (later 1 w)).
    split; [exact Hi|]. split; [exact Hx|].
    assert (Hrv : validateMapData (JObj renamed) = true)
      by (apply valid_set_modified, valid_set_title; assumption).
    assert (Hrs : JSON_stable (JObj renamed)).
    { unfold renamed. repeat apply JSON_stable_insert_str.
      rewrite List.Forall_forall in Hst. auto. }
    split.
    + unfold renameMap, mbind, M_bind. rewrite getAllMaps_run, Hi.
      unfold newDateISO. rewrite Hx. cbn [spread].
      rewrite setItem_ok by (cbn; rewrite Hf; auto).
      unfold written, later. cbn. now rewrite Nat.add_1_r.
    + apply visibleMaps_written_clean; apply Forall_insert_list; try assumption.
      apply List.Forall_forall. intros y. apply visibleMaps_valid.
Qed.

(** ** C8: migrating the Collection *)

Lemma migrateMarkers_ok created markers :
  forallb is_object markers = true → ∃ markers', migrateMarkers created markers = inr markers'.
Proof.
  induction markers as [|mk rest IH]; simpl; [eauto|].
  intros H. apply andb_prop in H as [Hmk Hrest].
  destruct (IH Hrest) as [rest' ->].
  destruct mk; try discriminate Hmk; simpl; [eauto|].
  destruct (negb (truthy (o !! "created"))); eauto.
Qed.

(** [applyMigrations] on a record that passed [validateMapData]: the
    clock is not read, and [created] and [modified] are kept. *)
Lemma applyMigrations_run o w :
  truthy (o !! "created") = true → truthy (o !! "modified") = true →
  migratable (JObj o) = true →
  ∃ o1, applyMigrations o w = (w, inr o1)
    ∧ (o !! "center" = None → o1 !! "center" = Some default_center)
    ∧ (truthy (o !! "center") = true → o1 !! "center" = o !! "center")
    ∧ (o !! "zoom" = None → o1 !! "zoom" = Some (JNum 6))
    ∧ (truthy (o !! "zoom") = true → o1 !! "zoom" = o !! "zoom")
    ∧ (∀ k, k ≠ "center" → k ≠ "zoom" → k ≠ "markers" → o1 !! k = o !! k)
    ∧ match o !! "markers" with
      | Some (JArr markers) =>
          ∃ markers', migrateMarkers (o !! "created") markers = inr markers'
                      ∧ o1 !! "markers" = Some (JArr markers')
      | other => o1 !! "markers" = other
      end.
Proof.
  intros Hc Hm Hmk.
  set (oc := if negb (truthy (o !! "center")) then <["center" := default_center]> o else o).
  set (oz := if negb (truthy (oc !! "zoom")) then <["zoom" := JNum 6]> oc else oc).
  assert (Hoc : ∀ k, k ≠ "center" → oc !! k = o !! k).
  { intros k Hk. unfold oc. destruct (negb (truthy (o !! "center"))); [|reflexivity].
    now rewrite lookup_insert_ne by congruence. }
  assert (Hoz : ∀ k, k ≠ "zoom" → oz !! k = oc !! k).
  { intros k Hk. unfold oz. destruct (negb (truthy (oc !! "zoom"))); [|reflexivity].
    now rewrite lookup_insert_ne by congruence. }
  assert (Hcenter1 : o !! "center" = None → oz !! "center" = Some default_center).
  { intros H. rewrite Hoz by discriminate. unfold oc. rewrite H.
    change (truthy None) with false. cbn [negb]. apply lookup_insert_eq. }
  assert (Hcenter2 : truthy (o !! "center") = true → oz !! "center" = o !! "center").
  { intros H. rewrite Hoz by discriminate. unfold oc. now rewrite H. }
  assert (Hzoom1 : o !! "zoom" = None → oz !! "zoom" = Some (JNum 6)).
  { intros H. unfold oz. rewrite (Hoc "zoom") by discriminate. rewrite H.
    change (truthy None) with false. cbn [negb]. apply lookup_insert_eq. }
  assert (Hzoom2 : truthy (o !! "zoom") = true → oz !! "zoom" = o !! "zoom").
  { intros H. unfold oz. rewrite (Hoc "zoom") by discriminate. rewrite H.
    cbn [negb]. now apply Hoc. }
  assert (Hrun : applyMigrations o w
                 = match oz !! "markers" with
                   | Some (JArr markers) =>
                       match migrateMarkers (oz !! "created") markers with
                       | inl e => (w, inl e)
                       | inr markers' => (w, inr (<["markers" := JArr markers']> oz))
                       end
                   | _ => (w, inr oz)
                   end).
  { unfold applyMigrations, mbind, M_bind, mret, M_ret, throw.
    rewrite Hc. cbn [negb]. cbv beta iota zeta. rewrite Hm. cbn [negb].
    fold oc. fold oz.
    destruct (oz !! "markers") as [[]|]; try reflexivity.
    destruct (migrateMarkers _ _); reflexivity. }
  assert (Hmarkers : oz !! "markers" = o !! "markers")
    by (rewrite Hoz, Hoc by discriminate; reflexivity).
  assert (Hcreated : oz !! "created" = o !! "created")
    by (rewrite Hoz, Hoc by discriminate; reflexivity).
  rewrite Hrun, Hmarkers, Hcreated.
  unfold migratable, get in Hmk.
  destruct (o !! "markers") as [mv|] eqn:Hmv.
  2: { exists oz. repeat split; try assumption.
       intros k H1 H2 H3. rewrite Hoz, Hoc by assumption. reflexivity. }
  destruct mv as [| b | x | s | markers | om].
  5: { destruct (migrateMarkers_ok (o !! "created") markers Hmk) as [markers' Hmm].
       rewrite Hmm. exists (<["markers" := JArr markers']> oz).
       split; [reflexivity|].
       rewrite !(lookup_insert_ne oz "markers") by discriminate.
       repeat split; try assumption.
       - intros k H1 H2 H3. rewrite lookup_insert_ne by congruence.
         rewrite Hoz, Hoc by assumption. reflexivity.
       - exists markers'. split; [reflexivity|apply lookup_insert_eq]. }
  all: exists oz; repeat split; try assumption;
    intros k H1 H2 H3; rewrite Hoz, Hoc by assumption; reflexivity.
Qed.

(** The loop of [migrateMaps] on valid records. *)
Lemma migrateEach_run (toVersion : json) maps : ∀ count w,
  Forall (λ m, validateMapData m = true) maps →
  Forall (λ m, migratable m = true) maps →
  ∃ maps',
    migrateEach toVersion maps count w
    = (w, inr (maps', count + length (List.filter (needsMigration toVersion) maps)))
    ∧ Forall2 (λ m m', if needsMigration toVersion m then backfill_of toVersion m m'
                       else m' = m) maps maps'.
Proof.
  induction maps as [|m rest IH]; intros count w Hv Hmk.
  - exists []. split; [|constructor]. simpl. now rewrite Nat.add_0_r.
  - apply Forall_cons in Hv as [Hmv Hv]. apply Forall_cons in Hmk as [Hmm Hmk].
    destruct (validateMapData_is_obj m Hmv) as [o ->].
    cbn [migrateEach List.filter]. unfold mbind at 1, M_bind at 1.
    unfold migrateOne.
    change (negb (truthy (o !! "version"))
            || negb (strict_eq (o !! "version") (Some toVersion)))
      with (needsMigration toVersion (JObj o)).
    rewrite validateMapData_obj in Hmv.
    repeat (apply andb_prop in Hmv as [Hmv ?]).
    destruct (needsMigration toVersion (JObj o)) eqn:Hneed.
    + destruct (applyMigrations_run o w) as (o1 & Hrun & Hc1 & Hc2 & Hz1 & Hz2 & Hk & Hmks);
        try assumption.
      unfold mbind at 1, M_bind at 1. rewrite Hrun.
      unfold mret at 1, M_ret at 1.
      destruct (IH (S count) w Hv Hmk) as (rest' & Hrest & Hall).
      unfold mbind, M_bind. rewrite Hrest. unfold mret, M_ret.
      exists (JObj (<["version" := toVersion]> o1) :: rest').
      split; [cbn [length]; now rewrite Nat.add_succ_r|].
      constructor; [|assumption].
      rewrite Hneed.
      exists o, (<["version" := toVersion]> o1).
      split; [reflexivity|]. split; [reflexivity|].
      split; [apply lookup_insert_eq|].
      rewrite !(lookup_insert_ne o1 "version") by discriminate.
      rewrite !Hk by discriminate.
      repeat split; try assumption.
      intros k Hk1 Hk2 Hk3 Hk4. rewrite lookup_insert_ne by congruence. now apply Hk.
    + unfold mret at 1, M_ret at 1.
      destruct (IH count w Hv Hmk) as (rest' & Hrest & Hall).
      unfold mbind, M_bind. rewrite Hrest. unfold mret, M_ret.
      exists (JObj o :: rest'). split; [reflexivity|].
      constructor; [|assumption].
      now rewrite Hneed.
Qed.


(** * Further properties of the class *)

(** ** Deleting *)

Lemma find_absent {A} (p : A → bool) (l : list A) :
  (∀ x, In x l → p x = false) → List.find p l = None.
Proof.
  induction l as [|x l IH]; intros H; simpl; [reflexivity|].
  rewrite (H x) by now left. apply IH. intros y Hy. apply H. now right.
Qed.

Lemma filter_length_lt {A} (p : A → bool) (l : list A) x :
  In x l → p x = false → length (List.filter p l) < length l.
Proof.
  induction l as [|y l IH]; [intros []|]. intros [<-|Hin] Hx; simpl.
  - rewrite Hx. pose proof (List.filter_length_le p l). lia.
  - destruct (p y); simpl; specialize (IH Hin Hx); lia.
Qed.

(** The id of a valid map is a text, which a write keeps as it is. *)
Lemma has_id_roundtrip id m :
  validateMapData m = true → has_id id (JSON_roundtrip m) = has_id id m.
Proof.
  intros Hv. destruct (validateMapData_is_obj m Hv) as [o ->].
  rewrite validateMapData_obj in Hv.
  repeat (apply andb_prop in Hv as [Hv ?]).
  unfold has_id, get. cbn [JSON_roundtrip]. rewrite lookup_fmap.
  destruct (o !! "id") as [[]|]; try discriminate. reflexivity.
Qed.

(** X1. Deleting an id that no map of the Collection carries answers
    [false], attempts no write and leaves the world as it is. *)
Theorem deleteMap_absent (w : world) (mapId : json) :
  (∀ m, In m (visibleMaps w) → has_id (Some mapId) m = false) →
  deleteMap mapId w = (w, inr false).
Proof.
  intros Hnone. rewrite deleteMap_run. cbv zeta.
  rewrite filter_all; [now rewrite Nat.eqb_refl|].
  apply List.Forall_forall. intros m Hm. now rewrite (Hnone m Hm).
Qed.

(** X2. Deleting an id that is in the Collection, when the store accepts
    the write, answers [true]; afterwards no map carries the id (a second
    map with the same id is removed too), the settings are untouched, and
    the other maps are the Collection, in their order. *)
Theorem deleteMap_present (w : world) (mapId : json) :
  (∃ m, In m (visibleMaps w) ∧ has_id (Some mapId) m = true) →
  faults w = [] →
  ∃ w',
    deleteMap mapId w = (w', inr true)
    ∧ getMapById mapId w' = (w', inr None)
    ∧ (∀ m, In m (visibleMaps w') → has_id (Some mapId) m = false)
    ∧ localStorage w' !! SETTINGS_KEY = localStorage w !! SETTINGS_KEY
    ∧ (Forall JSON_stable (visibleMaps w) →
         visibleMaps w'
         = List.filter (λ m, negb (has_id (Some mapId) m)) (visibleMaps w)).
Proof.
  intros (m & Hm & Hid) Hf.
  set (kept := List.filter (λ m, negb (has_id (Some mapId) m)) (visibleMaps w)).
  assert (Hlt : length kept < length (visibleMaps w)).
  { apply (filter_length_lt _ _ m Hm). now rewrite Hid. }
  assert (Hkept : ∀ x, In x (visibleMaps (written kept w)) → has_id (Some mapId) x = false).
  { intros x Hx. rewrite visibleMaps_written in Hx.
    apply filter_In in Hx as [Hx _].
    apply list_elem_of_In, list_elem_of_fmap in Hx as (y & -> & Hy).
    apply list_elem_of_In, filter_In in Hy as [Hy Hny].
    rewrite has_id_roundtrip by (eapply visibleMaps_valid; eauto).
    now apply negb_true_iff. }
  exists (written kept w). split; [|split; [|split; [|split]]].
  - rewrite deleteMap_run. cbv zeta. fold kept.
    replace (length kept =? length (visibleMaps w)) with false
      by (symmetry; apply Nat.eqb_neq; lia).
    now rewrite Hf.
  - unfold getMapById, mbind, M_bind, mret, M_ret. rewrite getAllMaps_run.
    now rewrite (find_absent _ _ Hkept).
  - exact Hkept.
  - unfold written. cbn. now rewrite lookup_insert_ne by discriminate.
  - intros Hst. apply visibleMaps_written_clean.
    + rewrite List.Forall_forall in *. intros x Hx. apply Hst.
      now apply filter_In in Hx as [Hx _].
    + apply List.Forall_forall. intros x Hx. apply filter_In in Hx as [Hx _].
      eapply visibleMaps_valid; eauto.
Qed.

(** X3. [deleteAllMaps], when the store accepts the removal, answers
    [true] and leaves an empty Collection: [getAllMaps] returns nothing
    and [getMapById] finds no id; the settings are untouched. *)
Theorem deleteAllMaps_clears (w : world) :
  faults w = [] →
  ∃ w',
    deleteAllMaps w = (w', inr true)
    ∧ getAllMaps w' = (w', inr [])
    ∧ (∀ mapId, getMapById mapId w' = (w', inr None))
    ∧ localStorage w' !! SETTINGS_KEY = localStorage w !! SETTINGS_KEY.
Proof.
  intros Hf. rewrite deleteAllMaps_run, Hf. cbn [head tail].
  set (w' := World (delete STORAGE_KEY (localStorage w)) [] (ticks w)).
  assert (Hv : visibleMaps w' = []).
  { unfold visibleMaps, storedMaps, w'. cbn. now rewrite lookup_delete_eq. }
  exists w'. repeat split.
  - now rewrite getAllMaps_run, Hv.
  - intros mapId. unfold getMapById, mbind, M_bind, mret, M_ret.
    now rewrite getAllMaps_run, Hv.
  - unfold w'. cbn. now rewrite lookup_delete_ne by discriminate.
Qed.


(** ** The settings *)

Lemma getSettings_pure w : ∃ settings,
  getSettings w = (w, inr settings)
  ∧ settings
    = match localStorage w !! SETTINGS_KEY with
      | Some (Doc saved) => spread (Some saved) ∪ getDefaultSettings
      | _ => getDefaultSettings
      end.
Proof.
  unfold getSettings, try_catch, getItem, mbind, M_bind, mret, M_ret.
  destruct (localStorage w !! SETTINGS_KEY) as [[|v]|]; eauto.
Qed.

Lemma getSettings_same w1 w2 settings :
  localStorage w1 !! SETTINGS_KEY = localStorage w2 !! SETTINGS_KEY →
  getSettings w1 = (w1, inr settings) → getSettings w2 = (w2, inr settings).
Proof.
  intros Heq H1.
  destruct (getSettings_pure w1) as (s1 & Hr1 & Hs1).
  destruct (getSettings_pure w2) as (s2 & Hr2 & Hs2).
  rewrite Hr1 in H1. injection H1 as <-. rewrite Hr2. do 2 f_equal.
  rewrite Hs1, Hs2, Heq. reflexivity.
Qed.

Lemma union_covered (a d : gmap string json) :
  (∀ k, is_Some (d !! k) → is_Some (a !! k)) → a ∪ d = a.
Proof.
  intros H. apply map_eq. intros k. rewrite lookup_union.
  destruct (a !! k) as [x|] eqn:Ha; destruct (d !! k) as [y|] eqn:Hd; try reflexivity.
  destruct (H k) as [z Hz]; [eauto|]. rewrite Ha in Hz. discriminate.
Qed.

(** X4. [getSettings] never throws and never writes; every key of the
    defaults is defined in its answer; a value stored for a key is the one
    returned; without a stored entry, or with one that does not parse, the
    answer is the defaults. *)
Theorem getSettings_defaults (w : world) :
  ∃ settings,
    getSettings w = (w, inr settings)
    ∧ (∀ k, is_Some (getDefaultSettings !! k) → is_Some (settings !! k))
    ∧ (∀ saved k v, localStorage w !! SETTINGS_KEY = Some (Doc (JObj saved)) →
         saved !! k = Some v → settings !! k = Some v)
    ∧ (localStorage w !! SETTINGS_KEY = None
       ∨ localStorage w !! SETTINGS_KEY = Some Garbled →
       settings = getDefaultSettings).
Proof.
  destruct (getSettings_pure w) as (settings & Hrun & Hs).
  exists settings. split; [exact Hrun|]. subst settings. repeat split.
  - intros k Hk. destruct (localStorage w !! SETTINGS_KEY) as [[|saved]|]; try exact Hk.
    apply lookup_union_is_Some. now right.
  - intros saved k v -> Hv. cbn [spread]. now apply lookup_union_Some_l.
  - intros [->| ->]; reflexivity.
Qed.

Lemma saveSettings_ok settings current w :
  faults w = [] →
  getSettings w = (w, inr current) →
  saveSettings settings w
  = (World (<[SETTINGS_KEY := JSON_stringify (JObj (spread (Some settings) ∪ current))]>
              (localStorage w)) [] (ticks w),
     inr tt).
Proof.
  intros Hf Hc. unfold saveSettings, try_catch, mbind, M_bind. rewrite Hc.
  rewrite setItem_ok by (rewrite Hf; auto). now rewrite Hf.
Qed.

Lemma getSettings_after_save (saved current : gmap string json) w ls fs t :
  getSettings w = (w, inr current) →
  let w' := World (<[SETTINGS_KEY := JSON_stringify (JObj (saved ∪ current))]> ls) fs t in
  getSettings w' = (w', inr (JSON_roundtrip <$> (saved ∪ current))).
Proof.
  intros Hc w'. destruct (getSettings_pure w') as (s' & -> & Hs').
  do 2 f_equal. rewrite Hs'. unfold w'. cbn [localStorage]. rewrite lookup_insert_eq.
  unfold JSON_stringify. cbn [JSON_roundtrip spread].
  apply union_covered. intros k Hk. rewrite lookup_fmap. apply fmap_is_Some.
  apply lookup_union_is_Some. right.
  destruct (getSettings_pure w) as (s & Hs & Hdef).
  rewrite Hs in Hc. injection Hc as <-. rewrite Hdef.
  destruct (localStorage w !! SETTINGS_KEY) as [[|v]|]; try exact Hk.
  apply lookup_union_is_Some. now right.
Qed.

(** X5. Saving settings and reading them back: when the store accepts the
    write, [getSettings] then returns the saved values over the ones it
    returned before, as JSON keeps them; the Collection is untouched. *)
Theorem saveSettings_getSettings (w : world) (settings : json) (current : gmap string json) :
  faults w = [] →
  getSettings w = (w, inr current) →
  ∃ w',
    saveSettings settings w = (w', inr tt)
    ∧ getSettings w'
      = (w', inr (JSON_roundtrip <$> (spread (Some settings) ∪ current)))
    ∧ localStorage w' !! STORAGE_KEY = localStorage w !! STORAGE_KEY.
Proof.
  intros Hf Hc. eexists. split; [apply (saveSettings_ok settings current); assumption|].
  split.
  - now apply (getSettings_after_save _ _ w).
  - cbn. now rewrite lookup_insert_ne by discriminate.
Qed.

Lemma saveSettings_swallows_run settings w e :
  head (faults w) = Some (Some e) →
  saveSettings settings w = (refused w, inr tt).
Proof.
  intros Hf. unfold saveSettings, try_catch, mbind, M_bind.
  destruct (getSettings_pure w) as (current & -> & _).
  now rewrite (setItem_fails _ _ _ e).
Qed.

(** X6. [saveSettings] never throws: when the store refuses the write it
    returns normally and the store is left as it was. *)
Theorem saveSettings_swallows (w : world) (settings : json) (e : exn) :
  head (faults w) = Some (Some e) →
  saveSettings settings w = (refused w, inr tt).
Proof. apply saveSettings_swallows_run. Qed.


(** ** The most recent maps *)

Lemma newer_or_same_trans a b c :
  newer_or_same a b → newer_or_same b c → newer_or_same a c.
Proof.
  intros (x & y & Hx & Hy & Hxy) (y' & z & Hy' & Hz & Hyz).
  exists x, z. rewrite Hy in Hy'. inversion Hy'; subst. repeat split; auto. lia.
Qed.

Lemma sort_insert_byModifiedDesc x l :
  is_Some (modifiedAt x) → Forall (λ m, is_Some (modifiedAt m)) l →
  StronglySorted newer_or_same l →
  StronglySorted newer_or_same (sort_insert byModifiedDesc x l).
Proof.
  intros [kx Hx] Hd Hs. induction Hs as [|y l Hs IH Hy]; simpl.
  - repeat constructor.
  - apply Forall_cons in Hd as [[ky Hky] Hd].
    unfold byModifiedDesc. fold (modifiedAt x). fold (modifiedAt y).
    rewrite Hx, Hky. simpl. destruct (0 <? ky - kx)%Z eqn:Hc.
    + apply Z.ltb_lt in Hc. constructor; [auto|].
      apply List.Forall_forall. intros z Hz.
      apply (Permutation_in _ (sort_insert_perm byModifiedDesc x l)) in Hz.
      destruct Hz as [<-|Hz].
      * exists ky, kx. repeat split; auto. lia.
      * rewrite List.Forall_forall in Hy. auto.
    + apply Z.ltb_ge in Hc. constructor; [now constructor|].
      constructor.
      * exists kx, ky. repeat split; auto. lia.
      * eapply Forall_impl; [exact Hy|]. intros z Hz.
        apply newer_or_same_trans with y; auto.
        exists kx, ky. repeat split; auto. lia.
Qed.

Lemma sort_byModifiedDesc_sorted l :
  Forall (λ m, is_Some (modifiedAt m)) l →
  StronglySorted newer_or_same (sort byModifiedDesc l).
Proof.
  induction l as [|x l IH]; intros Hd; simpl; [constructor|].
  apply Forall_cons in Hd as [Hx Hd].
  apply sort_insert_byModifiedDesc; auto.
  apply List.Forall_forall. intros z Hz. apply sort_In in Hz.
  rewrite List.Forall_forall in Hd. auto.
Qed.

Lemma StronglySorted_take {A} (R : A → A → Prop) n l :
  StronglySorted R l → StronglySorted R (take n l).
Proof.
  intros Hs. rewrite <- (take_drop n l) in Hs.
  now apply StronglySorted_app_1_l in Hs.
Qed.

(** X7. [getRecentMaps] reads only.  When every map of the Collection
    carries a [modified] date that parses, it returns [limit] maps of the
    Collection (all of them when there are fewer), most recently modified
    first, and no map it leaves out was modified after one it returns. *)
Theorem getRecentMaps_newest (w : world) (limit : nat) :
  Forall (λ m, is_Some (modifiedAt m)) (visibleMaps w) →
  ∃ recent rest,
    getRecentMaps limit w = (w, inr recent)
    ∧ length recent = limit `min` length (visibleMaps w)
    ∧ Permutation (visibleMaps w) (recent ++ rest)
    ∧ StronglySorted newer_or_same recent
    ∧ (∀ a b, In a recent → In b rest → newer_or_same a b).
Proof.
  intros Hd.
  exists (take limit (sort byModifiedDesc (visibleMaps w))),
         (drop limit (sort byModifiedDesc (visibleMaps w))).
  pose proof (sort_byModifiedDesc_sorted _ Hd) as Hs.
  split; [|split; [|split; [|split]]].
  - unfold getRecentMaps, mbind, M_bind. now rewrite getAllMaps_run.
  - now rewrite length_take, sort_length.
  - rewrite take_drop. symmetry. apply sort_perm.
  - now apply StronglySorted_take.
  - intros a b Ha Hb. rewrite <- (take_drop limit (sort _ _)) in Hs.
    apply list_elem_of_In in Ha, Hb.
    eapply StronglySorted_app_1_elem_of; eauto.
Qed.


(** ** Cleaning the store *)

Lemma filter_full {A} (p : A → bool) (l : list A) :
  length l ≤ length (List.filter p l) → List.filter p l = l.
Proof.
  induction l as [|x l IH]; [reflexivity|]. cbn [List.filter].
  pose proof (List.filter_length_le p l).
  destruct (p x); cbn [length]; intros H'; [f_equal; apply IH; lia|lia].
Qed.

Lemma filter_short {A} (p : A → bool) (l : list A) :
  (length (List.filter p l) <? length l) = negb (forallb p l).
Proof.
  induction l as [|x l IH]; [reflexivity|]. cbn [List.filter forallb].
  pose proof (List.filter_length_le p l).
  destruct (p x); cbn [length andb].
  - exact IH.
  - cbn [negb]. apply Nat.ltb_lt. lia.
Qed.

Lemma cleanMarkers_markers m :
  markersOf (cleanMarkers m).1 = List.filter validateMarkerData (markersOf m).
Proof.
  unfold cleanMarkers, markersOf.
  destruct m as [| b | x | s | l | o]; try reflexivity. cbn [get].
  destruct (o !! "markers") as [[| b | x | s | l | o']|] eqn:Hm;
    cbn [fst get]; rewrite ?Hm; try reflexivity.
  destruct (length (List.filter validateMarkerData l) <? length l) eqn:Hlt; cbn [fst get].
  - now rewrite lookup_insert_eq.
  - rewrite Hm. symmetry. apply filter_full. now apply Nat.ltb_ge.
Qed.

Lemma cleanMarkers_fixed m : (cleanMarkers m).2 = needsFix m.
Proof.
  unfold cleanMarkers, needsFix, markersOf.
  destruct m as [| b | x | s | l | o]; try reflexivity. cbn [get].
  destruct (o !! "markers") as [[| b | x | s | l | o']|]; try reflexivity.
  rewrite <- filter_short.
  now destruct (length (List.filter validateMarkerData l) <? length l).
Qed.

Lemma cleanMarkers_kept m : needsFix m = false → (cleanMarkers m).1 = m.
Proof.
  rewrite <- cleanMarkers_fixed. unfold cleanMarkers.
  destruct m as [| b | x | s | l | o]; try reflexivity.
  destruct (o !! "markers") as [[| b | x | s | l | o']|]; try reflexivity.
  now destruct (length (List.filter validateMarkerData l) <? length l).
Qed.

Lemma cleanMarkers_other m k :
  k ≠ "markers" → get k (cleanMarkers m).1 = get k m.
Proof.
  intros Hk. unfold cleanMarkers.
  destruct m as [| b | x | s | l | o]; try reflexivity.
  destruct (o !! "markers") as [[| b | x | s | l | o']|]; try reflexivity.
  destruct (length (List.filter validateMarkerData l) <? length l); [|reflexivity].
  cbn [fst get]. now rewrite lookup_insert_ne.
Qed.

Lemma cleanMarkers_valid m :
  validateMapData m = true → validateMapData (cleanMarkers m).1 = true.
Proof.
  intros Hv. unfold validateMapData in *.
  rewrite !cleanMarkers_other by discriminate.
  destruct (validateMapData_is_obj m) as [o ->]; [exact Hv|].
  replace (cleanMarkers (JObj o)).1 with (JObj (spread (Some (cleanMarkers (JObj o)).1))).
  - exact Hv.
  - unfold cleanMarkers. destruct (o !! "markers") as [[| b | x | s | l | o']|]; try reflexivity.
    now destruct (length (List.filter validateMarkerData l) <? length l).
Qed.

Lemma JSON_stable_lookup o k v :
  JSON_stable (JObj o) → o !! k = Some v → JSON_stable v.
Proof.
  rewrite JSON_stable_obj. intros Ho Hk.
  assert (H : (JSON_roundtrip <$> o) !! k = Some v) by now rewrite Ho.
  rewrite lookup_fmap, Hk in H. now injection H.
Qed.

Lemma JSON_stable_arr l : JSON_stable (JArr l) ↔ Forall JSON_stable l.
Proof.
  unfold JSON_stable. cbn [JSON_roundtrip]. split.
  - intros [= H]. induction l as [|x l IH]; [constructor|].
    rewrite fmap_cons in H. injection H as Hx Hl. constructor; auto.
  - intros H. now rewrite roundtrip_all.
Qed.

Lemma cleanMarkers_stable m : JSON_stable m → JSON_stable (cleanMarkers m).1.
Proof.
  intros Hs. unfold cleanMarkers.
  destruct m as [| b | x | s | l | o]; try exact Hs.
  destruct (o !! "markers") as [[| b | x | s | l | o']|] eqn:Hm; try exact Hs.
  destruct (length (List.filter validateMarkerData l) <? length l); [|exact Hs].
  cbn [fst]. pose proof (JSON_stable_lookup _ _ _ Hs Hm) as Hl.
  apply JSON_stable_arr in Hl.
  assert (Hf : JSON_stable (JArr (List.filter validateMarkerData l))).
  { apply JSON_stable_arr, List.Forall_forall. intros y Hy.
    apply filter_In in Hy as [Hy _]. rewrite List.Forall_forall in Hl. auto. }
  apply JSON_stable_obj. apply JSON_stable_obj in Hs.
  rewrite fmap_insert, Hs. f_equal. exact Hf.
Qed.

Lemma cleanEach_run maps : ∀ acc removed fixed,
  Forall (λ m, validateMapData m = true) maps →
  cleanEach maps (acc, removed, fixed)
  = inr (acc ++ cleaned maps, removed, fixed + length (List.filter needsFix maps)).
Proof.
  induction maps as [|m maps IH]; intros acc removed fixed Hv.
  - cbn. now rewrite app_nil_r, Nat.add_0_r.
  - apply Forall_cons in Hv as [Hm Hv]. cbn [cleanEach]. rewrite Hm.
    pose proof (cleanMarkers_fixed m) as Hfix.
    destruct (cleanMarkers m) as [m' fx] eqn:Hc. cbn [snd] in Hfix. subst fx.
    rewrite IH by exact Hv. unfold cleaned. rewrite fmap_cons, Hc. cbn [fst List.filter].
    rewrite <- app_assoc. cbn [app].
    destruct (needsFix m); cbn [length]; f_equal; f_equal; lia.
Qed.

Lemma visibleMaps_all_valid w : Forall (λ m, validateMapData m = true) (visibleMaps w).
Proof. apply List.Forall_forall. intros m. apply visibleMaps_valid. Qed.

Lemma cleanupStorage_ok w :
  head (faults w) = None ∨ head (faults w) = Some None →
  cleanupStorage w
  = (written (cleaned (visibleMaps w)) w,
     inr (Cleanup.Result (length (visibleMaps w)) (length (visibleMaps w)) 0
            (length (List.filter needsFix (visibleMaps w))))).
Proof.
  intros Hf. unfold cleanupStorage, try_catch, mbind, M_bind, mret, M_ret.
  rewrite getAllMaps_run, cleanEach_run by apply visibleMaps_all_valid.
  cbn [app]. rewrite setItem_ok by exact Hf.
  unfold written, cleaned. now rewrite length_fmap.
Qed.


Lemma cleaned_visible w :
  Forall JSON_stable (visibleMaps w) →
  visibleMaps (written (cleaned (visibleMaps w)) w) = cleaned (visibleMaps w)
  ∧ storedMaps (written (cleaned (visibleMaps w)) w) = cleaned (visibleMaps w).
Proof.
  intros Hs.
  assert (Hs' : Forall JSON_stable (cleaned (visibleMaps w))).
  { unfold cleaned. apply Forall_fmap. eapply Forall_impl; [exact Hs|].
    intros m. apply cleanMarkers_stable. }
  split; [|now apply storedMaps_written_clean].
  apply visibleMaps_written_clean; [exact Hs'|].
  unfold cleaned. apply Forall_fmap. eapply Forall_impl; [apply visibleMaps_all_valid|].
  intros m. apply cleanMarkers_valid.
Qed.

Lemma forallb_filter {A} (p : A → bool) (l : list A) : forallb p (List.filter p l) = true.
Proof.
  apply forallb_forall. intros x Hx. now apply filter_In in Hx as [_ Hx].
Qed.

Lemma cleaned_needsFix maps : List.filter needsFix (cleaned maps) = [].
Proof.
  induction maps as [|m maps IH]; [reflexivity|].
  unfold cleaned in *. rewrite fmap_cons. cbn [List.filter].
  unfold needsFix at 1. now rewrite cleanMarkers_markers, forallb_filter.
Qed.

Lemma cleaned_cleaned maps : cleaned (cleaned maps) = cleaned maps.
Proof.
  induction maps as [|m maps IH]; [reflexivity|].
  unfold cleaned in *. rewrite !fmap_cons, IH. f_equal.
  apply cleanMarkers_kept. unfold needsFix.
  now rewrite cleanMarkers_markers, forallb_filter.
Qed.

(** X8. A clean-up the store accepts, on a Collection that JSON keeps as
    it is: every map stays, in its place; the markers it keeps are the
    markers that pass [validateMarkerData], in order; no other field
    changes, and a map without an invalid marker is not changed at all.
    What the store held beside the Collection's maps is gone, yet
    [removedMaps] is 0: the count of maps fixed is the number of maps that
    held an invalid marker.  The settings are untouched. *)
Theorem cleanupStorage_cleans (w : world) :
  faults w = [] → Forall JSON_stable (visibleMaps w) →
  ∃ w',
    cleanupStorage w
    = (w', inr (Cleanup.Result (length (visibleMaps w)) (length (visibleMaps w)) 0
                  (length (List.filter needsFix (visibleMaps w)))))
    ∧ storedMaps w' = visibleMaps w'
    ∧ length (visibleMaps w') = length (visibleMaps w)
    ∧ (∀ i m, visibleMaps w !! i = Some m →
         ∃ m', visibleMaps w' !! i = Some m'
           ∧ markersOf m' = List.filter validateMarkerData (markersOf m)
           ∧ (∀ k, k ≠ "markers" → get k m' = get k m)
           ∧ (needsFix m = false → m' = m))
    ∧ localStorage w' !! SETTINGS_KEY = localStorage w !! SETTINGS_KEY.
Proof.
  intros Hf Hs. exists (written (cleaned (visibleMaps w)) w).
  destruct (cleaned_visible w Hs) as [Hvis Hsto].
  split; [apply cleanupStorage_ok; rewrite Hf; auto|].
  split; [now rewrite Hvis, Hsto|].
  split; [rewrite Hvis; unfold cleaned; apply length_fmap|].
  split.
  - intros i m Hi. exists (cleanMarkers m).1. rewrite Hvis. unfold cleaned.
    rewrite list_lookup_fmap, Hi. split; [reflexivity|].
    split; [apply cleanMarkers_markers|].
    split; [intros k; apply cleanMarkers_other|apply cleanMarkers_kept].
  - unfold written. cbn [localStorage]. now rewrite lookup_insert_ne by discriminate.
Qed.

(** X9. Cleaning twice: after a clean-up the store accepted, a second one
    finds nothing to fix and leaves the store exactly as it is. *)
Theorem cleanupStorage_twice (w : world) :
  faults w = [] → Forall JSON_stable (visibleMaps w) →
  ∃ w' result,
    cleanupStorage w = (w', inr result)
    ∧ cleanupStorage w'
      = (w', inr (Cleanup.Result (length (visibleMaps w)) (length (visibleMaps w)) 0 0)).
Proof.
  intros Hf Hs. exists (written (cleaned (visibleMaps w)) w). eexists.
  destruct (cleaned_visible w Hs) as [Hvis _].
  split; [apply cleanupStorage_ok; rewrite Hf; auto|].
  rewrite cleanupStorage_ok by (unfold written; cbn [faults]; rewrite Hf; auto).
  rewrite Hvis, cleaned_cleaned, cleaned_needsFix.
  unfold cleaned at 3 4. rewrite length_fmap. f_equal.
  unfold written. cbn [localStorage faults ticks]. rewrite Hf. cbn [tail].
  now rewrite insert_insert_eq.
Qed.

(** X10. A clean-up whose write the store refuses throws the store's own
    error and leaves the store as it was. *)
Theorem cleanupStorage_rethrows (w : world) (e : exn) :
  head (faults w) = Some (Some e) →
  cleanupStorage w = (refused w, inl e).
Proof.
  intros Hf. unfold cleanupStorage, try_catch, mbind, M_bind, mret, M_ret.
  rewrite getAllMaps_run, cleanEach_run by apply visibleMaps_all_valid.
  cbn [app]. now rewrite (setItem_fails _ _ _ e).
Qed.


(** ** Checking the store *)

Lemma countMarkers_run markers : ∀ total invalid,
  countMarkers markers (total, invalid)
  = (total + length markers, invalid + length (List.filter invalidMarker markers)).
Proof.
  induction markers as [|k markers IH]; intros total invalid; cbn [countMarkers].
  - now rewrite !Nat.add_0_r.
  - rewrite IH. cbn [List.filter]. unfold invalidMarker at 2.
    destruct (negb (validateMarkerData k)); cbn [length]; f_equal; lia.
Qed.

Lemma filter_app_list {A} (p : A → bool) (l k : list A) :
  List.filter p (l ++ k) = List.filter p l ++ List.filter p k.
Proof.
  induction l as [|x l IH]; [reflexivity|]. cbn [app List.filter].
  destruct (p x); [cbn [app]|]; now rewrite IH.
Qed.

Lemma checkEach_run maps : ∀ valid invalidMaps total invalid,
  Forall (λ m, validateMapData m = true) maps →
  checkEach maps (valid, invalidMaps, total, invalid)
  = (valid + length maps, invalidMaps, total + length (allMarkers maps),
     invalid + length (List.filter invalidMarker (allMarkers maps))).
Proof.
  induction maps as [|m maps IH]; intros valid invalidMaps total invalid Hv.
  - cbn. now rewrite !Nat.add_0_r.
  - apply Forall_cons in Hv as [Hm Hv]. cbn [checkEach]. rewrite Hm.
    unfold allMarkers. rewrite fmap_cons. cbn [concat].
    rewrite filter_app_list, !length_app. fold (allMarkers maps).
    unfold markersOf at 1 2.
    destruct (get "markers" m) as [[| b | x | s | l | o]|];
      rewrite ?countMarkers_run, IH by exact Hv; cbn [length List.filter];
      repeat match goal with |- (_, _) = (_, _) => f_equal end; lia.
Qed.

Lemma checkDataIntegrity_pure (Number_toFixed : float → nat → string) w :
  ∃ report,
    checkDataIntegrity Number_toFixed w = (w, inr report)
    ∧ Integrity.totalMaps report = length (visibleMaps w)
    ∧ Integrity.totalMarkers report = length (allMarkers (visibleMaps w))
    ∧ Integrity.invalidMarkers report
      = length (List.filter invalidMarker (allMarkers (visibleMaps w))).
Proof.
  unfold checkDataIntegrity, mbind, M_bind, mret, M_ret.
  rewrite getAllMaps_run, checkEach_run by apply visibleMaps_all_valid.
  eexists. split; [reflexivity|]. repeat split.
Qed.

(** X11. [checkDataIntegrity] reads only, and since it counts the maps
    that [getAllMaps] has already filtered, it never reports an invalid
    map: [validMaps] is [totalMaps] and [invalidMaps] is 0 whatever the
    store holds.  The marker counts are those of the arrays under
    [markers].  The score is the number 100 on an empty Collection;
    otherwise it is a text, the one [toFixed(1)] gives for
    [validMaps / maps.length * 100], the two counts being the same
    number. *)
Theorem checkDataIntegrity_counts (Number_toFixed : float → nat → string) (w : world) :
  ∃ report,
    checkDataIntegrity Number_toFixed w = (w, inr report)
    ∧ Integrity.totalMaps report = length (visibleMaps w)
    ∧ Integrity.validMaps report = length (visibleMaps w)
    ∧ Integrity.invalidMaps report = 0
    ∧ Integrity.totalMarkers report = length (allMarkers (visibleMaps w))
    ∧ Integrity.invalidMarkers report
      = length (List.filter invalidMarker (allMarkers (visibleMaps w)))
    ∧ Integrity.invalidMarkers report ≤ Integrity.totalMarkers report
    ∧ typeof (Some (Integrity.integrityScore report))
      = (if decide (visibleMaps w = []) then TNumber else TString)
    ∧ Integrity.integrityScore report
      = (if decide (visibleMaps w = []) then JNum 100
         else JStr (Number_toFixed
                      (float_of_nat (length (visibleMaps w))
                       / float_of_nat (length (visibleMaps w)) * 100)%float 1)).
Proof.
  unfold checkDataIntegrity, mbind, M_bind, mret, M_ret.
  rewrite getAllMaps_run, checkEach_run by apply visibleMaps_all_valid.
  cbn [Nat.add]. eexists. split; [reflexivity|].
  cbn [Integrity.totalMaps Integrity.validMaps Integrity.invalidMaps
       Integrity.totalMarkers Integrity.invalidMarkers Integrity.integrityScore].
  repeat split; try reflexivity.
  - apply List.filter_length_le.
  - destruct (visibleMaps w); reflexivity.
  - destruct (visibleMaps w); reflexivity.
Qed.


Lemma allMarkers_cleaned maps :
  allMarkers (cleaned maps) = List.filter validateMarkerData (allMarkers maps).
Proof.
  induction maps as [|m maps IH]; [reflexivity|].
  unfold allMarkers, cleaned in *. rewrite !fmap_cons. cbn [concat].
  now rewrite filter_app_list, IH, cleanMarkers_markers.
Qed.

Lemma filter_invalid_valid l :
  List.filter invalidMarker (List.filter validateMarkerData l) = [].
Proof.
  induction l as [|k l IH]; [reflexivity|]. cbn [List.filter].
  destruct (validateMarkerData k) eqn:Hk; [|exact IH].
  cbn [List.filter]. unfold invalidMarker at 1. now rewrite Hk.
Qed.

Lemma needsFix_invalid m :
  needsFix m = true → 1 ≤ length (List.filter invalidMarker (markersOf m)).
Proof.
  unfold needsFix. induction (markersOf m) as [|k l IH]; [discriminate|].
  cbn [forallb List.filter]. unfold invalidMarker at 1.
  destruct (validateMarkerData k); cbn [andb negb length]; [exact IH|lia].
Qed.

Lemma fixed_le_invalid maps :
  length (List.filter needsFix maps)
  ≤ length (List.filter invalidMarker (allMarkers maps)).
Proof.
  induction maps as [|m maps IH]; [reflexivity|].
  unfold allMarkers in *. rewrite fmap_cons. cbn [concat List.filter].
  rewrite filter_app_list, length_app.
  destruct (needsFix m) eqn:Hm; [|lia].
  apply needsFix_invalid in Hm. cbn [length]. lia.
Qed.

(** X12. Checking after cleaning: when the store accepts a clean-up of a
    Collection that JSON keeps as it is, [checkDataIntegrity] then finds
    the same number of maps and no invalid marker, and counts exactly the
    markers that were valid before.  The clean-up fixed no more maps than
    there were invalid markers. *)
Theorem cleanupStorage_then_check
    (Number_toFixed : float → nat → string) (w : world) (before : Integrity.report) :
  faults w = [] → Forall JSON_stable (visibleMaps w) →
  checkDataIntegrity Number_toFixed w = (w, inr before) →
  ∃ w' result after,
    cleanupStorage w = (w', inr result)
    ∧ checkDataIntegrity Number_toFixed w' = (w', inr after)
    ∧ Integrity.invalidMarkers after = 0
    ∧ Integrity.totalMarkers after
      = Integrity.totalMarkers before - Integrity.invalidMarkers before
    ∧ Integrity.totalMaps after = Integrity.totalMaps before
    ∧ Cleanup.fixedMaps result ≤ Integrity.invalidMarkers before.
Proof.
  intros Hf Hs Hb. exists (written (cleaned (visibleMaps w)) w). eexists.
  destruct (cleaned_visible w Hs) as [Hvis _].
  destruct (checkDataIntegrity_pure Number_toFixed (written (cleaned (visibleMaps w)) w))
    as (after & Ha & Ha1 & Ha2 & Ha3).
  destruct (checkDataIntegrity_pure Number_toFixed w) as (b & Hb' & Hb1 & Hb2 & Hb3).
  rewrite Hb in Hb'. injection Hb' as <-.
  exists after. split; [apply cleanupStorage_ok; rewrite Hf; auto|].
  split; [exact Ha|].
  rewrite Ha1, Ha2, Ha3, Hb1, Hb2, Hb3, Hvis, allMarkers_cleaned, filter_invalid_valid.
  cbn [Cleanup.fixedMaps length]. unfold cleaned. rewrite length_fmap.
  split; [reflexivity|]. split; [|split; [reflexivity|apply fixed_le_invalid]].
  pose proof (filter_split_length validateMarkerData (allMarkers (visibleMaps w))) as Hl.
  fold invalidMarker in Hl.
  change (λ x, negb (validateMarkerData x)) with invalidMarker in Hl. lia.
Qed.


(** ** Export and import *)

Lemma importMaps_upto_write (envelope : json) (incoming : list json) (replace : bool) (w : world) :
  get "maps" envelope = Some (JArr incoming) →
  let existing := if replace then [] else visibleMaps w in
  let c := enforceMapLimit (existing ++ importedAll incoming (ticks w)) in
  let w1 := later (4 * length (List.filter validateMapData incoming)) w in
  importMaps (Doc envelope) replace w
  = match setItem STORAGE_KEY (JSON_stringify (JArr c)) w1 with
    | (w2, inl e) => (w2, inl e)
    | (w2, inr _) =>
        let '(w3, _) :=
          ((if truthy (get "settings" envelope) && negb replace then
              currentSettings ← getSettings;
              saveSettings (JObj (spread (get "settings" envelope) ∪ currentSettings))
            else mret tt) : M unit) w2 in
        (w3, inr (ImportResult (length (List.filter validateMapData incoming))
                    (length (List.filter (λ m, negb (validateMapData m)) incoming))
                    (length c)))
    end.
Proof.
  intros Hmaps existing c w1.
  assert (Hobj : ∃ o, envelope = JObj o).
  { destruct envelope; try discriminate Hmaps. eauto. }
  destruct Hobj as [o ->].
  unfold importMaps, try_catch. cbn [JSON_parse].
  unfold mbind, M_bind, mret, M_ret, throw.
  cbv beta iota. rewrite Hmaps. unfold existing in *.
  destruct replace; rewrite ?getAllMaps_run; rewrite importEach_run;
    cbv beta iota zeta; fold w1; fold c;
    destruct (setItem STORAGE_KEY (JSON_stringify (JArr c)) w1) as [w2 [e|[]]];
    try reflexivity.
  - rewrite andb_false_r. reflexivity.
  - rewrite andb_true_r. destruct (truthy (get "settings" (JObj o))); [|reflexivity].
    destruct (getSettings_run w2) as [current Hc]. rewrite Hc.
    destruct (saveSettings_run (JObj (spread (get "settings" (JObj o)) ∪ current)) w2)
      as (w' & -> & _). reflexivity.
Qed.

(** X13. An import whose write of the Collection the store refuses
    throws the store's own error, whatever [replace] is; nothing is stored,
    neither maps nor settings. *)
Theorem importMaps_rethrows
    (w : world) (envelope : json) (incoming : list json) (replace : bool) (e : exn) :
  get "maps" envelope = Some (JArr incoming) →
  head (faults w) = Some (Some e) →
  ∃ w', importMaps (Doc envelope) replace w = (w', inl e)
        ∧ localStorage w' = localStorage w.
Proof.
  intros Hmaps Hf. rewrite (importMaps_upto_write _ _ _ _ Hmaps). cbv zeta.
  rewrite (setItem_fails _ _ _ e) by exact Hf. eexists. split; reflexivity.
Qed.

(** X14. An import with [replace] never touches the stored settings,
    even when the envelope carries some: the only entry of the store it
    writes is the Collection, which then holds the imported records, at
    most [MAX_MAPS] of them. *)
Theorem importMaps_replace_keeps_settings
    (w : world) (envelope : json) (incoming : list json) :
  get "maps" envelope = Some (JArr incoming) →
  head (faults w) = None ∨ head (faults w) = Some None →
  ∃ w' result,
    importMaps (Doc envelope) true w = (w', inr result)
    ∧ (∀ key, key ≠ STORAGE_KEY → localStorage w' !! key = localStorage w !! key)
    ∧ total result = Nat.min MAX_MAPS (imported result)
    ∧ length (storedMaps w') = total result
    ∧ faults w' = tail (faults w).
Proof.
  intros Hmaps Hf. rewrite (importMaps_upto_write _ _ _ _ Hmaps). cbv zeta.
  rewrite setItem_ok by exact Hf. rewrite andb_false_r.
  unfold mret, M_ret. eexists. eexists. split; [reflexivity|].
  cbn [localStorage faults total imported later app].
  split; [intros key Hk; now rewrite lookup_insert_ne by congruence|].
  split; [now rewrite enforceMapLimit_length, importedAll_length|].
  split; [|reflexivity].
  unfold storedMaps, JSON_stringify. cbn [localStorage JSON_roundtrip].
  rewrite lookup_insert_eq. now rewrite length_fmap.
Qed.


(** X15. An import without [replace] of an envelope that carries
    settings, when the store accepts both writes: the settings read back
    afterwards are the envelope's over the ones in force before, as JSON
    keeps them. *)
Theorem importMaps_merges_settings
    (w : world) (envelope : json) (incoming : list json) (current : gmap string json) :
  get "maps" envelope = Some (JArr incoming) →
  truthy (get "settings" envelope) = true →
  faults w = [] →
  getSettings w = (w, inr current) →
  ∃ w' result,
    importMaps (Doc envelope) false w = (w', inr result)
    ∧ getSettings w'
      = (w', inr (JSON_roundtrip <$> (spread (get "settings" envelope) ∪ current))).
Proof.
  intros Hmaps Hset Hf Hc. rewrite (importMaps_upto_write _ _ _ _ Hmaps). cbv zeta.
  rewrite setItem_ok by (cbn [faults later]; rewrite Hf; auto).
  rewrite Hset. cbn [negb andb later faults ticks localStorage]. rewrite Hf. cbn [tail].
  set (w2 := World _ [] _).
  assert (Hc2 : getSettings w2 = (w2, inr current)).
  { apply (getSettings_same w); [|exact Hc].
    unfold w2. cbn [localStorage]. now rewrite lookup_insert_ne by discriminate. }
  unfold mbind at 1, M_bind at 1. rewrite Hc2.
  rewrite (saveSettings_ok _ current) by (exact Hc2 || reflexivity).
  cbn [spread].
  assert (Hidem : spread (get "settings" envelope) ∪ current ∪ current
                  = spread (get "settings" envelope) ∪ current).
  { apply union_covered. intros k Hk. apply lookup_union_is_Some. now right. }
  rewrite Hidem. eexists. eexists. split; [reflexivity|].
  now apply (getSettings_after_save _ _ w2).
Qed.

(** X16. The settings of an import are saved through [saveSettings],
    which swallows a refused write: when the store accepts the Collection
    and refuses the next write, the import still returns normally and the
    stored settings are the ones from before. *)
Theorem importMaps_settings_refused
    (w : world) (envelope : json) (incoming : list json) (replace : bool)
    (e : exn) (rest : list (option exn)) :
  get "maps" envelope = Some (JArr incoming) →
  faults w = None :: Some e :: rest →
  ∃ w' result,
    importMaps (Doc envelope) replace w = (w', inr result)
    ∧ localStorage w' !! SETTINGS_KEY = localStorage w !! SETTINGS_KEY.
Proof.
  intros Hmaps Hf. rewrite (importMaps_upto_write _ _ _ _ Hmaps). cbv zeta.
  rewrite setItem_ok by (cbn [faults later]; rewrite Hf; auto).
  cbn [later faults ticks localStorage]. rewrite Hf. cbn [tail].
  set (w2 := World _ (Some e :: rest) _).
  destruct (truthy (get "settings" envelope) && negb replace).
  - unfold mbind at 1, M_bind at 1. destruct (getSettings_pure w2) as (current & -> & _).
    rewrite (saveSettings_swallows_run _ _ e) by reflexivity.
    eexists. eexists. split; [reflexivity|].
    unfold refused, w2. cbn [localStorage]. now rewrite lookup_insert_ne by discriminate.
  - unfold mret, M_ret. eexists. eexists. split; [reflexivity|].
    unfold w2. cbn [localStorage]. now rewrite lookup_insert_ne by discriminate.
Qed.


Lemma exportAllMaps_run w :
  ∃ settings,
    getSettings w = (w, inr settings)
    ∧ exportAllMaps w
      = (later 1 w,
         inr (JSON_stringify
                (JObj (<["maps" := JArr (visibleMaps w)]>
                         (<["settings" := JObj settings]>
                            (<["exported" := JStr (toISOString (ticks w))]>
                               (<["version" := JStr VERSION]> ∅))))))).
Proof.
  destruct (getSettings_pure w) as (settings & Hs & _). exists settings.
  split; [exact Hs|].
  unfold exportAllMaps, try_catch, mbind, M_bind, mret, M_ret.
  rewrite getAllMaps_run, Hs. unfold newDateISO, later. cbn [localStorage faults ticks].
  do 2 f_equal. lia.
Qed.

Lemma importedRecord_valid m t :
  validateMapData m = true → validateMapData (importedRecord m t) = true.
Proof.
  intros Hv. destruct (validateMapData_is_obj m Hv) as [o ->].
  unfold importedRecord. cbn [spread]. rewrite validateMapData_obj in *.
  rewrite lookup_insert_eq.
  rewrite !(lookup_insert_ne _ "modified") by discriminate.
  rewrite !(lookup_insert_ne _ "imported") by discriminate.
  rewrite lookup_insert_eq.
  rewrite !(lookup_insert_ne _ "id") by discriminate.
  rewrite truthy_now.
  repeat (apply andb_prop in Hv as [Hv ?]).
  repeat (apply andb_true_intro; split); auto.
Qed.

Lemma importedRecord_stable m t :
  validateMapData m = true → JSON_stable m → JSON_stable (importedRecord m t).
Proof.
  intros Hv Hs. destruct (validateMapData_is_obj m Hv) as [o ->].
  unfold importedRecord. cbn [spread]. now do 3 apply JSON_stable_insert_str.
Qed.

Lemma importedAll_all (P : json → Prop) incoming :
  (∀ m t, In m incoming → validateMapData m = true → P (importedRecord m t)) →
  ∀ t, Forall P (importedAll incoming t).
Proof.
  induction incoming as [|m rest IH]; intros H t; [constructor|].
  cbn [importedAll]. destruct (validateMapData m) eqn:Hm.
  - constructor; [apply H; [now left|exact Hm]|].
    apply IH. intros m' t' Hin. apply H. now right.
  - apply IH. intros m' t' Hin. apply H. now right.
Qed.

(** X17. Export, then import with [replace]: for a Collection that JSON
    keeps as it is and that is within the cap, the text [exportAllMaps]
    returns (without writing the store) is accepted by [importMaps] on any
    store that takes the write; every map is imported, none skipped, and
    the Collection afterwards holds the same maps in the same order, each
    with a newly generated id and new stamps; its other fields are those
    of the exported map. *)
Theorem export_then_import (w w0 : world) :
  Forall JSON_stable (visibleMaps w) →
  length (visibleMaps w) ≤ MAX_MAPS →
  faults w0 = [] →
  ∃ w1 text w2,
    exportAllMaps w = (w1, inr text)
    ∧ localStorage w1 = localStorage w
    ∧ importMaps text true w0
      = (w2, inr (ImportResult (length (visibleMaps w)) 0 (length (visibleMaps w))))
    ∧ length (visibleMaps w2) = length (visibleMaps w)
    ∧ (∀ j m, visibleMaps w !! j = Some m →
         ∃ r, visibleMaps w2 !! j = Some r
              ∧ get "id" r = Some (JStr (generatedId (ticks w0 + 4 * j)))
              ∧ (∀ k, k ≠ "id" → k ≠ "imported" → k ≠ "modified" →
                   get k r = get k m)).
Proof.
  intros Hs Hcap Hf.
  destruct (exportAllMaps_run w) as (settings & _ & Hexp).
  pose proof (visibleMaps_all_valid w) as Hv.
  set (V := visibleMaps w) in *.
  assert (HfV : List.filter validateMapData V = V) by now apply filter_all.
  assert (HnV : List.filter (λ m, negb (validateMapData m)) V = []).
  { pose proof (filter_split_length validateMapData V) as Hl. rewrite HfV in Hl.
    destruct (List.filter (λ m, negb (validateMapData m)) V); [reflexivity|].
    cbn [length] in Hl. lia. }
  set (c := importedAll V (ticks w0)).
  assert (Hlen : length c = length V) by (unfold c; now rewrite importedAll_length, HfV).
  assert (Hc : enforceMapLimit c = c).
  { unfold enforceMapLimit. rewrite Hlen.
    now replace (MAX_MAPS <? length V) with false by (symmetry; apply Nat.ltb_ge; lia). }
  assert (Hvis : visibleMaps (written c (later (4 * length V) w0)) = c).
  { apply visibleMaps_written_clean; unfold c.
    - apply importedAll_all. intros m t Hin Hm. apply importedRecord_stable; [exact Hm|].
      rewrite List.Forall_forall in Hs. now apply Hs.
    - apply importedAll_all. intros m t _ Hm. now apply importedRecord_valid. }
  eexists. eexists. exists (written c (later (4 * length V) w0)).
  split; [exact Hexp|]. split; [reflexivity|]. split; [|split].
  - unfold JSON_stringify. cbn [JSON_roundtrip].
    rewrite (importMaps_upto_write _ V).
    2:{ cbn [get]. rewrite lookup_fmap, lookup_insert_eq. cbn [fmap option_fmap option_map].
        cbn [JSON_roundtrip]. now rewrite roundtrip_all. }
    cbv zeta. cbn [app]. fold c. rewrite Hc, HfV, HnV, Hlen.
    rewrite setItem_ok by (cbn [faults later]; rewrite Hf; auto).
    rewrite andb_false_r. reflexivity.
  - now rewrite Hvis.
  - intros j m Hj. exists (importedRecord m (ticks w0 + 4 * j)). rewrite Hvis.
    split; [unfold c; apply importedAll_lookup; now rewrite HfV|].
    destruct (importedRecord_fields m (ticks w0 + 4 * j)) as (H1 & _ & _ & H4).
    split; [exact H1|]. intros k Hk1 Hk2 Hk3. rewrite H4 by assumption.
    assert (Hm : validateMapData m = true).
    { apply list_elem_of_lookup_2, list_elem_of_In in Hj.
      rewrite List.Forall_forall in Hv. now apply Hv. }
    destruct (validateMapData_is_obj m Hm) as [om ->]. reflexivity.
Qed.


(** ** Migrating again, and markers that are no objects *)

Lemma migrateMarkers_fails created markers :
  forallb is_object markers = false → migrateMarkers created markers = inl TypeError.
Proof.
  induction markers as [|mk rest IH]; [discriminate|].
  cbn [forallb migrateMarkers]. intros H.
  destruct mk as [| b | x | s | l | o]; try reflexivity; cbn [is_object andb] in H;
    cbn [migrateMarker]; rewrite (IH H); [reflexivity|].
  now destruct (negb (truthy (o !! "created"))).
Qed.

Lemma applyMigrations_fails o w :
  truthy (o !! "created") = true → truthy (o !! "modified") = true →
  migratable (JObj o) = false →
  applyMigrations o w = (w, inl TypeError).
Proof.
  intros Hc Hm Hmk.
  set (oc := if negb (truthy (o !! "center")) then <["center" := default_center]> o else o).
  set (oz := if negb (truthy (oc !! "zoom")) then <["zoom" := JNum 6]> oc else oc).
  assert (Hoc : ∀ k, k ≠ "center" → oc !! k = o !! k).
  { intros k Hk. unfold oc. destruct (negb (truthy (o !! "center"))); [|reflexivity].
    now rewrite lookup_insert_ne by congruence. }
  assert (Hoz : ∀ k, k ≠ "zoom" → oz !! k = oc !! k).
  { intros k Hk. unfold oz. destruct (negb (truthy (oc !! "zoom"))); [|reflexivity].
    now rewrite lookup_insert_ne by congruence. }
  assert (Hmarkers : oz !! "markers" = o !! "markers")
    by (rewrite Hoz, Hoc by discriminate; reflexivity).
  unfold migratable, get in Hmk.
  destruct (o !! "markers") as [[| b | x | s | markers | om]|] eqn:Hmv; try discriminate Hmk.
  unfold applyMigrations, mbind, M_bind, mret, M_ret, throw.
  rewrite Hc. cbn [negb]. cbv beta iota zeta. rewrite Hm. cbn [negb].
  fold oc. fold oz. rewrite Hmarkers.
  now rewrite (migrateMarkers_fails _ _ Hmk).
Qed.

Lemma migrateEach_fails (toVersion : json) maps : ∀ count w,
  Forall (λ m, validateMapData m = true) maps →
  (∃ m, In m maps ∧ needsMigration toVersion m = true ∧ migratable m = false) →
  migrateEach toVersion maps count w = (w, inl TypeError).
Proof.
  induction maps as [|m rest IH]; intros count w Hv (bad & Hin & Hneedb & Hbad);
    [destruct Hin|].
  apply Forall_cons in Hv as [Hmv Hv].
  destruct (validateMapData_is_obj m Hmv) as [o ->].
  cbn [migrateEach]. unfold mbind at 1, M_bind at 1. unfold migrateOne.
  change (negb (truthy (o !! "version"))
          || negb (strict_eq (o !! "version") (Some toVersion)))
    with (needsMigration toVersion (JObj o)).
  rewrite validateMapData_obj in Hmv.
  repeat (apply andb_prop in Hmv as [Hmv ?]).
  destruct (needsMigration toVersion (JObj o)) eqn:Hneed.
  - destruct (migratable (JObj o)) eqn:Hmk.
    + destruct (applyMigrations_run o w) as (o1 & Hrun & _); try assumption.
      unfold mbind at 1, M_bind at 1. rewrite Hrun. unfold mret at 1, M_ret at 1.
      unfold mbind, M_bind. rewrite IH; [reflexivity|exact Hv|].
      destruct Hin as [<-|Hin]; [congruence|eauto].
    + unfold mbind at 1, M_bind at 1. now rewrite applyMigrations_fails.
  - unfold mret at 1, M_ret at 1. unfold mbind, M_bind. rewrite IH; [reflexivity|exact Hv|].
    destruct Hin as [<-|Hin]; [congruence|eauto].
Qed.

(** X18. A marker that is [null], a number, a text or a boolean, in a
    map that needs migrating, stops the whole migration: [migrateMaps]
    throws a [TypeError] and writes nothing, also for the maps that could
    have been migrated. *)
Theorem migrateMaps_marker_not_object (w : world) (fromVersion toVersion : json) :
  (∃ m, In m (visibleMaps w)
        ∧ needsMigration toVersion m = true ∧ migratable m = false) →
  migrateMaps fromVersion toVersion w = (w, inl TypeError).
Proof.
  intros Hbad. unfold migrateMaps, try_catch, mbind, M_bind.
  rewrite getAllMaps_run.
  now rewrite (migrateEach_fails toVersion _ 0 w (visibleMaps_all_valid w) Hbad).
Qed.

Lemma migrateEach_current (toVersion : json) maps : ∀ count w,
  Forall (λ m, validateMapData m = true) maps →
  Forall (λ m, needsMigration toVersion m = false) maps →
  migrateEach toVersion maps count w = (w, inr (maps, count)).
Proof.
  induction maps as [|m rest IH]; intros count w Hv Hn; [reflexivity|].
  apply Forall_cons in Hv as [Hmv Hv]. apply Forall_cons in Hn as [Hmn Hn].
  destruct (validateMapData_is_obj m Hmv) as [o ->].
  cbn [migrateEach]. unfold mbind at 1, M_bind at 1. unfold migrateOne.
  change (negb (truthy (o !! "version"))
          || negb (strict_eq (o !! "version") (Some toVersion)))
    with (needsMigration toVersion (JObj o)).
  rewrite Hmn. unfold mret at 1, M_ret at 1. unfold mbind, M_bind.
  now rewrite IH.
Qed.

Lemma current_version_kept s m :
  needsMigration (JStr s) m = false → needsMigration (JStr s) (JSON_roundtrip m) = false.
Proof.
  unfold needsMigration. destruct m as [| b | x | s' | l | o]; try discriminate.
  cbn [get JSON_roundtrip]. rewrite lookup_fmap. intros H.
  apply orb_false_elim in H as [H1 H2]. apply negb_false_iff in H2.
  destruct (o !! "version") as [[| b | x | s' | l | o']|]; try discriminate H2.
  cbn [fmap option_fmap option_map JSON_roundtrip]. now rewrite H1, H2.
Qed.

Lemma filter_none {A} (p : A → bool) (l : list A) :
  length (List.filter p l) = 0 → Forall (λ x, p x = false) l.
Proof.
  induction l as [|x l IH]; [constructor|]. cbn [List.filter].
  destruct (p x) eqn:Hx; [discriminate|]. auto.
Qed.

(** X19. Migrating twice to a version that is a non-empty text: after a
    migration the store accepted, a second one migrates nothing and does
    not write the store. *)
Theorem migrateMaps_twice (w : world) (fromVersion fromVersion' : json) (s : string) :
  s ≠ "" →
  faults w = [] →
  Forall (λ m, migratable m = true) (visibleMaps w) →
  ∃ w' result,
    migrateMaps fromVersion (JStr s) w = (w', inr result)
    ∧ migrateMaps fromVersion' (JStr s) w'
      = (w', inr (MigrateResult 0 (length (visibleMaps w')))).
Proof.
  intros Hs Hf Hmk.
  pose proof (visibleMaps_all_valid w) as Hv.
  destruct (migrateEach_run (JStr s) (visibleMaps w) 0 w Hv Hmk) as (maps' & Hrun & Hall).
  cbn [Nat.add] in Hrun.
  set (count := length (List.filter (needsMigration (JStr s)) (visibleMaps w))) in *.
  assert (Hsecond : ∀ w', Forall (λ m, needsMigration (JStr s) m = false) (visibleMaps w') →
    migrateMaps fromVersion' (JStr s) w'
    = (w', inr (MigrateResult 0 (length (visibleMaps w'))))).
  { intros w' Hcur. unfold migrateMaps, try_catch, mbind, M_bind.
    rewrite getAllMaps_run.
    now rewrite (migrateEach_current _ _ 0 w' (visibleMaps_all_valid w') Hcur). }
  unfold migrateMaps at 1, try_catch, mbind, M_bind.
  rewrite getAllMaps_run, Hrun. cbv beta iota.
  destruct (0 <? count) eqn:Hc.
  - rewrite setItem_ok by (rewrite Hf; auto). unfold mret, M_ret.
    eexists. eexists. split; [reflexivity|]. apply Hsecond.
    change (World _ _ _) with (written maps' w). rewrite visibleMaps_written.
    apply List.Forall_forall. intros m Hm. apply filter_In in Hm as [Hm _].
    apply list_elem_of_In, list_elem_of_fmap in Hm as (m' & -> & Hm').
    apply current_version_kept.
    apply list_elem_of_lookup in Hm' as [i Hi].
    destruct (Forall2_lookup_r _ _ _ _ _ Hall Hi) as (m & _ & Hmm').
    destruct (needsMigration (JStr s) m) eqn:Hneed; [|now subst m'].
    destruct Hmm' as (o & o' & -> & -> & Hver & _).
    unfold needsMigration. cbn [get]. rewrite Hver. cbn [truthy strict_eq].
    rewrite String.eqb_refl. apply String.eqb_neq in Hs. now rewrite Hs.
  - unfold mret, M_ret. eexists. eexists. split; [reflexivity|]. apply Hsecond.
    apply filter_none. apply Nat.ltb_ge in Hc. fold count. lia.
Qed.


(** ** Saving a record that does not validate *)

Lemma truthy_before_roundtrip (v : option json) :
  truthy (JSON_roundtrip <$> v) = true → truthy v = true.
Proof.
  destruct v as [[| b | x | s | l | o]|]; try (intros H; exact H).
  cbn [fmap option_fmap option_map JSON_roundtrip].
  destruct (PrimFloat.is_nan x) eqn:Hn; cbn [orb]; [discriminate|].
  destruct (PrimFloat.is_infinity x); [discriminate|].
  destruct (PrimFloat.is_zero x) eqn:Hz; [discriminate|].
  cbn [truthy]. now rewrite Hn, Hz.
Qed.

Lemma typeof_roundtrip_string (v : option json) :
  jstype_eqb (typeof (JSON_roundtrip <$> v)) TString = jstype_eqb (typeof v) TString.
Proof.
  destruct v as [[| b | x | s | l | o]|]; try reflexivity.
  cbn [fmap option_fmap option_map JSON_roundtrip].
  destruct (PrimFloat.is_nan x || PrimFloat.is_infinity x); [reflexivity|].
  now destruct (PrimFloat.is_zero x).
Qed.

Lemma valid_before_roundtrip m :
  validateMapData (JSON_roundtrip m) = true → validateMapData m = true.
Proof.
  intros H. destruct (validateMapData_is_obj _ H) as [o' Ho'].
  destruct m as [| b | x | s | l | o]; try discriminate Ho'.
  - cbn [JSON_roundtrip] in Ho'.
    destruct (PrimFloat.is_nan x || PrimFloat.is_infinity x); [discriminate|].
    destruct (PrimFloat.is_zero x); discriminate.
  - cbn [JSON_roundtrip] in H. rewrite validateMapData_obj in *.
    rewrite !lookup_fmap, !typeof_roundtrip_string in H.
    repeat (apply andb_prop in H as [H ?]).
    repeat (apply andb_true_intro; split);
      auto using truthy_before_roundtrip.
Qed.

Lemma stamped_invalid m t :
  storable m = false → validateMapData (JObj (stamped m t)) = false.
Proof.
  intros Hs. rewrite validateMapData_obj.
  pose proof (stamped_id m t) as Hid. unfold get in Hid. rewrite Hid.
  rewrite !stamped_other by discriminate.
  unfold storable in Hs. unfold savedId. unfold needsId in *.
  destruct (truthy (m !! "title") && jstype_eqb (typeof (m !! "title")) TString
            && truthy (m !! "created")) eqn:Hrest.
  - apply andb_prop in Hrest as [Hrest Hc]. apply andb_prop in Hrest as [Ht1 Ht2].
    rewrite Ht1, Ht2, Hc, !andb_true_r in Hs.
    apply orb_false_elim in Hs as [Hn Hty]. apply negb_false_iff in Hn.
    rewrite Hn. cbn [negb].
    destruct (m !! "id") as [i|]; [|discriminate Hn].
    change (default JNull (Some i)) with i. now rewrite Hty, andb_false_r.
  - destruct (truthy (m !! "title")); cbn [andb] in *; [|now rewrite !andb_false_r].
    destruct (jstype_eqb (typeof (m !! "title")) TString); cbn [andb] in *;
      [|now rewrite !andb_false_r].
    rewrite Hrest. now rewrite !andb_false_r.
Qed.

Lemma findIndex_only p l i y :
  findIndex p l = Some i → length (List.filter p l) ≤ 1 →
  ∀ z, In z (<[i := y]> l) → z = y ∨ (In z l ∧ p z = false).
Proof.
  revert i. induction l as [|x l IH]; intros i; [discriminate|].
  cbn [findIndex List.filter]. destruct (p x) eqn:Hp.
  - intros [= <-] Hlen z [<-|Hz]; [now left|]. right.
    cbn [length] in Hlen. assert (H0 : length (List.filter p l) = 0) by lia.
    apply filter_none in H0. rewrite List.Forall_forall in H0.
    split; [now right|auto].
  - destruct (findIndex p l) as [j|] eqn:Hj; [|discriminate].
    intros [= <-] Hlen z [<-|Hz]; [right; split; [now left|exact Hp]|].
    destruct (IH j eq_refl Hlen z Hz) as [->|[Hin Hpz]]; [now left|].
    right. split; [now right|exact Hpz].
Qed.

(** X20. [saveMap] does not validate what it stores.  For a record that
    [validateMapData] will refuse once stamped (no title, a title or an id
    that is no text, no [created]), when the store accepts the write:
    [saveMap] returns the id as for any save, but every map read from the
    Collection afterwards was there before, and, when at most one stored
    map carried the id, [getMapById] on the id just returned answers
    [null]: a new record is never seen, and a map updated this way is
    lost. *)
Theorem saveMap_unvalidated (w : world) (mapData : gmap string json) :
  faults w = [] →
  storable mapData = false →
  let id := savedId mapData (ticks w) in
  ∃ w',
    saveMap mapData w = (w', inr id)
    ∧ (∀ x, In x (visibleMaps w') → ∃ y, In y (visibleMaps w) ∧ x = JSON_roundtrip y)
    ∧ (length (List.filter (has_id (Some id)) (visibleMaps w)) ≤ 1 →
       getMapById id w' = (w', inr None)).
Proof.
  intros Hf Hs id. rewrite saveMap_run. cbv zeta. rewrite Hf. cbn [head].
  eexists. split; [reflexivity|].
  set (bad := JObj (stamped mapData (ticks w))).
  assert (Hbad : validateMapData bad = false) by now apply stamped_invalid.
  assert (Hfrom : ∀ z, In z (savedCollection mapData (ticks w) (visibleMaps w)) →
                       z = bad ∨ In z (visibleMaps w)).
  { intros z Hz. unfold savedCollection in Hz. fold id bad in Hz.
    destruct (findIndex (has_id (Some id)) (visibleMaps w)) as [i|].
    - apply list_elem_of_In, list_elem_of_lookup in Hz as [j Hj].
      apply list_lookup_insert_Some in Hj as [(_ & -> & _)|(_ & Hj)]; [now left|].
      right. apply list_elem_of_lookup_2 in Hj. now apply list_elem_of_In.
    - apply enforceMapLimit_In, in_app_or in Hz as [Hz|[<-|[]]]; auto. }
  assert (Hvis : ∀ x, In x (visibleMaps (written
                   (savedCollection mapData (ticks w) (visibleMaps w))
                   (later (idTicks mapData + 1) w))) →
                 ∃ z, In z (savedCollection mapData (ticks w) (visibleMaps w))
                      ∧ In z (visibleMaps w) ∧ x = JSON_roundtrip z).
  { intros x Hx. rewrite visibleMaps_written in Hx. apply filter_In in Hx as [Hx Hv].
    apply list_elem_of_In, list_elem_of_fmap in Hx as (z & -> & Hz).
    apply list_elem_of_In in Hz. apply valid_before_roundtrip in Hv.
    exists z. split; [exact Hz|]. split; [|reflexivity].
    destruct (Hfrom z Hz) as [->|Hin]; [congruence|exact Hin]. }
  split.
  - intros x Hx. destruct (Hvis x Hx) as (z & _ & Hz & ->). eauto.
  - intros Hone. unfold getMapById, mbind, M_bind, mret, M_ret.
    rewrite getAllMaps_run. do 2 f_equal. apply find_absent.
    intros x Hx. destruct (Hvis x Hx) as (z & Hzc & Hz & ->).
    rewrite has_id_roundtrip by now apply (visibleMaps_valid w).
    unfold savedCollection in Hzc. fold id bad in Hzc.
    destruct (findIndex (has_id (Some id)) (visibleMaps w)) as [i|] eqn:Hi.
    + destruct (findIndex_only _ _ _ bad Hi Hone z Hzc) as [->|[_ Hp]]; [|exact Hp].
      apply (visibleMaps_valid w) in Hz. congruence.
    + apply findIndex_None in Hi. rewrite List.Forall_forall in Hi. now apply Hi.
Qed.


(** ** Saving an old map into a full store *)

Lemma sort_oldest_last new l :
  (∀ x, In x l → before new x) →
  sort byCreated (l ++ [new]) = new :: sort byCreated l.
Proof.
  unfold sort. rewrite foldr_app. cbn [foldr sort_insert].
  induction l as [|x l IH]; intros H; [reflexivity|].
  cbn [foldr]. rewrite IH by (intros y Hy; apply H; now right).
  cbn [sort_insert].
  destruct (H x) as (a & b & Ha & Hb & Hab); [now left|].
  unfold byCreated. fold (createdAt x). fold (createdAt new).
  rewrite Ha, Hb. cbn [positive_result].
  now replace (0 <? b - a)%Z with true by (symmetry; apply Z.ltb_lt; lia).
Qed.

(** X21. A save that returns normally may store nothing.  When the
    Collection holds [MAX_MAPS] maps and a record with a new id is saved
    whose [created] date is earlier than that of every stored map, the cap
    removes the new record itself: [saveMap] returns its id, [getMapById]
    on that id answers [null], and the Collection holds the maps it held
    before, now ordered by creation date. *)
Theorem saveMap_full_store_drops_older (w : world) (mapData : gmap string json) :
  faults w = [] →
  Forall JSON_stable (visibleMaps w) →
  storable mapData = true → JSON_stable (JObj mapData) →
  length (visibleMaps w) = MAX_MAPS →
  let id := savedId mapData (ticks w) in
  (∀ x, In x (visibleMaps w) → has_id (Some id) x = false) →
  (∀ x, In x (visibleMaps w) → before (JObj mapData) x) →
  ∃ w',
    saveMap mapData w = (w', inr id)
    ∧ visibleMaps w' = sort byCreated (visibleMaps w)
    ∧ getMapById id w' = (w', inr None).
Proof.
  intros Hf Hst Hs Hm Hfull id Hnew Hold.
  destruct (save_insert w mapData Hf Hst Hs Hm) as (Hrun & Hvis & _).
  { now apply findIndex_absent. }
  assert (Hcut : enforceMapLimit (visibleMaps w ++ [JObj (stamped mapData (ticks w))])
                 = sort byCreated (visibleMaps w)).
  { unfold enforceMapLimit. rewrite length_app, Hfull. cbn [length].
    replace (MAX_MAPS <? MAX_MAPS + 1) with true by (symmetry; apply Nat.ltb_lt; lia).
    replace (MAX_MAPS + 1 - MAX_MAPS) with 1 by lia.
    rewrite sort_oldest_last; [reflexivity|].
    intros x Hx. destruct (Hold x Hx) as (a & b & Ha & Hb & Hab).
    exists a, b. now rewrite createdAt_stamped. }
  rewrite Hrun in Hvis. cbn [fst] in Hvis. rewrite Hcut in Hvis, Hrun.
  eexists. split; [exact Hrun|]. split; [exact Hvis|].
  unfold getMapById, mbind, M_bind, mret, M_ret.
  rewrite getAllMaps_run, Hvis. do 2 f_equal. apply find_absent.
  intros x Hx. apply Hnew. now apply sort_In in Hx.
Qed.


(** ** Saving a new map, reading it, deleting it *)

Lemma find_app_absent {A} (p : A → bool) (l : list A) x :
  (∀ y, In y l → p y = false) → p x = true → List.find p (l ++ [x]) = Some x.
Proof.
  induction l as [|y l IH]; intros Hl Hx; cbn [app List.find].
  - now rewrite Hx.
  - rewrite (Hl y) by now left. apply IH; [|exact Hx]. intros z Hz. apply Hl. now right.
Qed.

Lemma filter_app_last {A} (p : A → bool) (l : list A) x :
  (∀ y, In y l → p y = true) → p x = false → List.filter p (l ++ [x]) = l.
Proof.
  intros Hl Hx. rewrite filter_app_list. cbn [List.filter]. rewrite Hx, app_nil_r.
  apply filter_all, List.Forall_forall, Hl.
Qed.

Lemma save_new (w : world) (m : gmap string json) :
  faults w = [] →
  Forall JSON_stable (visibleMaps w) →
  storable m = true → JSON_stable (JObj m) →
  length (visibleMaps w) < MAX_MAPS →
  (∀ x, In x (visibleMaps w) → has_id (Some (savedId m (ticks w))) x = false) →
  ∃ w',
    saveMap m w = (w', inr (savedId m (ticks w)))
    ∧ visibleMaps w' = visibleMaps w ++ [JObj (stamped m (ticks w))]
    ∧ faults w' = []
    ∧ localStorage w' !! SETTINGS_KEY = localStorage w !! SETTINGS_KEY.
Proof.
  intros Hf Hst Hs Hm Hroom Hnew.
  destruct (save_insert w m Hf Hst Hs Hm) as (Hrun & Hvis & _ & Hf' & _).
  { now apply findIndex_absent. }
  assert (Hcap : enforceMapLimit (visibleMaps w ++ [JObj (stamped m (ticks w))])
                 = visibleMaps w ++ [JObj (stamped m (ticks w))]).
  { unfold enforceMapLimit. rewrite length_app. cbn [length].
    now replace (MAX_MAPS <? length (visibleMaps w) + 1) with false
      by (symmetry; apply Nat.ltb_ge; lia). }
  rewrite Hrun in Hvis, Hf'. cbn [fst] in Hvis, Hf'. rewrite Hcap in Hvis, Hrun, Hf'.
  eexists. split; [exact Hrun|]. split; [exact Hvis|]. split; [exact Hf'|].
  unfold written, later. cbn [localStorage]. now rewrite lookup_insert_ne by discriminate.
Qed.

(** X22. Saving a new map below the cap and reading it back: when the
    store accepts the write of a storable record whose id (its own, or the
    one generated when it has none) is not in the Collection, [saveMap]
    returns that id, the Collection is the one from before followed by the
    record, and [getMapById] on the id returns the record with its
    [version] and [modified] stamps; a record without id carries the
    generated one. *)
Theorem saveMap_new_then_get (w : world) (mapData : gmap string json) :
  faults w = [] →
  Forall JSON_stable (visibleMaps w) →
  storable mapData = true → JSON_stable (JObj mapData) →
  length (visibleMaps w) < MAX_MAPS →
  let id := savedId mapData (ticks w) in
  (∀ x, In x (visibleMaps w) → has_id (Some id) x = false) →
  ∃ w' saved,
    saveMap mapData w = (w', inr id)
    ∧ getAllMaps w' = (w', inr (visibleMaps w ++ [saved]))
    ∧ getMapById id w' = (w', inr (Some saved))
    ∧ get "id" saved = Some id
    ∧ get "version" saved = Some (JStr VERSION)
    ∧ get "modified" saved = Some (JStr (toISOString (ticks w + idTicks mapData)))
    ∧ (∀ k, k ≠ "id" → k ≠ "version" → k ≠ "modified" → get k saved = mapData !! k)
    ∧ (truthy (mapData !! "id") = false → id = JStr (generatedId (ticks w))).
Proof.
  intros Hf Hst Hs Hm Hroom id Hnew.
  destruct (save_new w mapData Hf Hst Hs Hm Hroom Hnew) as (w' & Hrun & Hvis & _).
  exists w', (JObj (stamped mapData (ticks w))).
  split; [exact Hrun|]. split; [now rewrite getAllMaps_run, Hvis|].
  split; [|split; [apply stamped_id|split; [|split; [|split]]]].
  - unfold getMapById, mbind, M_bind, mret, M_ret. rewrite getAllMaps_run, Hvis.
    do 3 f_equal. apply find_app_absent; [exact Hnew|now apply stamped_has_id].
  - unfold stamped, get. rewrite lookup_insert_ne by discriminate. apply lookup_insert_eq.
  - unfold stamped, get. apply lookup_insert_eq.
  - intros k H1 H2 H3. cbn [get]. now apply stamped_other.
  - intros Hno. unfold id, savedId, needsId. now rewrite Hno.
Qed.

(** X23. Saving a new map and deleting it again: under the conditions of
    a save of a new map below the cap, [deleteMap] on the id [saveMap]
    returned answers [true], the Collection is the one from before the
    save, and the id is not found any more. *)
Theorem saveMap_then_deleteMap (w : world) (mapData : gmap string json) :
  faults w = [] →
  Forall JSON_stable (visibleMaps w) →
  storable mapData = true → JSON_stable (JObj mapData) →
  length (visibleMaps w) < MAX_MAPS →
  let id := savedId mapData (ticks w) in
  (∀ x, In x (visibleMaps w) → has_id (Some id) x = false) →
  ∃ w1 w2,
    saveMap mapData w = (w1, inr id)
    ∧ deleteMap id w1 = (w2, inr true)
    ∧ getAllMaps w2 = (w2, inr (visibleMaps w))
    ∧ getMapById id w2 = (w2, inr None).
Proof.
  intros Hf Hst Hs Hm Hroom id Hnew.
  destruct (save_new w mapData Hf Hst Hs Hm Hroom Hnew) as (w1 & Hrun & Hvis & Hf1 & _).
  assert (Hfil : List.filter (λ m, negb (has_id (Some id) m)) (visibleMaps w1)
                 = visibleMaps w).
  { rewrite Hvis. apply filter_app_last.
    - intros y Hy. now rewrite (Hnew y Hy).
    - unfold id. now rewrite stamped_has_id. }
  exists w1, (written (visibleMaps w) w1).
  assert (Hvis2 : visibleMaps (written (visibleMaps w) w1) = visibleMaps w)
    by (apply visibleMaps_written_clean; [exact Hst|apply visibleMaps_all_valid]).
  split; [exact Hrun|]. split; [|split].
  - rewrite deleteMap_run. cbv zeta. rewrite Hfil, Hf1. cbn [head].
    rewrite Hvis, length_app. cbn [length].
    now replace (length (visibleMaps w) =? length (visibleMaps w) + 1) with false
      by (symmetry; apply Nat.eqb_neq; lia).
  - now rewrite getAllMaps_run, Hvis2.
  - unfold getMapById, mbind, M_bind, mret, M_ret. rewrite getAllMaps_run, Hvis2.
    do 2 f_equal. now apply find_absent.
Qed.


(** ** Queries on the Collection *)

Lemma groupMapsByMonth_fold (getFullYear getMonth : Z → Z) (maps : list json) :
  ∀ (seen : list json) (grouped : gmap string (list json)),
  (∀ key, grouped !! key
          = match List.filter (λ m, String.eqb (monthKey getFullYear getMonth m) key) seen with
            | [] => None
            | group => Some group
            end) →
  ∀ key,
    foldl (λ (grouped : gmap string (list json)) map,
             let key := monthKey getFullYear getMonth map in
             match grouped !! key with
             | Some group => <[key := group ++ [map]]> grouped
             | None => <[key := [map]]> grouped
             end) grouped maps !! key
    = match List.filter (λ m, String.eqb (monthKey getFullYear getMonth m) key)
              (seen ++ maps) with
      | [] => None
      | group => Some group
      end.
Proof.
  induction maps as [|m maps IH]; intros seen grouped Hinv key.
  - rewrite app_nil_r. apply Hinv.
  - cbn [foldl]. replace (seen ++ m :: maps) with ((seen ++ [m]) ++ maps)
      by (rewrite <- app_assoc; reflexivity).
    apply IH. clear key. intros key. cbv zeta.
    rewrite filter_app_list. cbn [List.filter].
    destruct (String.eqb (monthKey getFullYear getMonth m) key) eqn:Hk.
    + apply String.eqb_eq in Hk. subst key. rewrite (Hinv (monthKey getFullYear getMonth m)).
      destruct (List.filter _ seen) as [|x group]; rewrite lookup_insert_eq; reflexivity.
    + apply String.eqb_neq in Hk. rewrite app_nil_r, <- Hinv.
      destruct (grouped !! monthKey getFullYear getMonth m);
        now rewrite lookup_insert_ne.
Qed.

(** X24. [groupMapsByMonth] reads only, and splits the Collection: the
    group under a key holds exactly the maps whose month key it is, in the
    order of the Collection; a key that no map has is absent, so no group
    is empty.  Maps whose [created] does not parse are all under
    ["NaN-NaN"]. *)
Theorem groupMapsByMonth_partition (getFullYear getMonth : Z → Z) (w : world) :
  ∃ grouped,
    groupMapsByMonth getFullYear getMonth w = (w, inr grouped)
    ∧ (∀ key,
         grouped !! key
         = match List.filter (λ m, String.eqb (monthKey getFullYear getMonth m) key)
                   (visibleMaps w) with
           | [] => None
           | group => Some group
           end)
    ∧ (∀ m, In m (visibleMaps w) → createdAt m = None →
         ∃ group, grouped !! "NaN-NaN" = Some group ∧ In m group).
Proof.
  unfold groupMapsByMonth, mbind, M_bind, mret, M_ret. rewrite getAllMaps_run.
  eexists. split; [reflexivity|].
  assert (Hall : ∀ key, _ !! key = _) by
    (exact (groupMapsByMonth_fold getFullYear getMonth (visibleMaps w) [] ∅
              (λ key, lookup_empty key))).
  cbn [app] in Hall. split; [exact Hall|].
  intros m Hm Hc. rewrite Hall.
  assert (Hin : In m (List.filter (λ m, String.eqb (monthKey getFullYear getMonth m) "NaN-NaN")
                        (visibleMaps w))).
  { apply filter_In. split; [exact Hm|]. unfold monthKey. unfold createdAt in Hc.
    now rewrite Hc. }
  destruct (List.filter _ (visibleMaps w)) as [|x group]; [destruct Hin|eauto].
Qed.


Lemma filter_sublist {A} (p : A → bool) (l : list A) : sublist (List.filter p l) l.
Proof.
  induction l as [|x l IH]; [constructor|]. cbn [List.filter].
  destruct (p x); [now apply sublist_skip|now apply sublist_cons].
Qed.

(** X25. [filterMapsByDate] reads only and keeps the order of the
    Collection; it returns exactly the maps whose [created] parses to a
    date within the two bounds, both included.  A map whose [created] does
    not parse is never returned, and a bound that is an invalid date, or a
    lower bound after the upper one, gives the empty list. *)
Theorem filterMapsByDate_range (fromDate toDate : option Z) (w : world) :
  ∃ found,
    filterMapsByDate fromDate toDate w = (w, inr found)
    ∧ sublist found (visibleMaps w)
    ∧ (∀ m, In m found ↔
            In m (visibleMaps w)
            ∧ ∃ c f t, createdAt m = Some c ∧ fromDate = Some f ∧ toDate = Some t
                       ∧ (f ≤ c ≤ t)%Z)
    ∧ (fromDate = None ∨ toDate = None → found = [])
    ∧ (∀ f t, fromDate = Some f → toDate = Some t → (t < f)%Z → found = []).
Proof.
  unfold filterMapsByDate, mbind, M_bind, mret, M_ret. rewrite getAllMaps_run.
  eexists. split; [reflexivity|]. split; [apply filter_sublist|].
  assert (Hiff : ∀ m, In m (List.filter
             (λ map, match Date_value (get "created" map), fromDate, toDate with
                     | Some createdDate, Some from, Some to =>
                         (from <=? createdDate)%Z && (createdDate <=? to)%Z
                     | _, _, _ => false
                     end) (visibleMaps w)) ↔
           In m (visibleMaps w)
           ∧ ∃ c f t, createdAt m = Some c ∧ fromDate = Some f ∧ toDate = Some t
                      ∧ (f ≤ c ≤ t)%Z).
  { intros m. rewrite filter_In. unfold createdAt. split.
    - intros [Hm Hr]. split; [exact Hm|].
      destruct (Date_value (get "created" m)) as [c|]; [|discriminate].
      destruct fromDate as [f|]; [|discriminate]. destruct toDate as [t|]; [|discriminate].
      apply andb_prop in Hr as [H1 H2]. apply Z.leb_le in H1, H2.
      exists c, f, t. auto.
    - intros [Hm (c & f & t & -> & -> & -> & H1 & H2)]. split; [exact Hm|].
      apply andb_true_intro. split; now apply Z.leb_le. }
  split; [exact Hiff|]. split.
  - intros Hnone.
    destruct (List.filter _ (visibleMaps w)) as [|m l] eqn:Hl; [reflexivity|]. exfalso.
    destruct (proj1 (Hiff m) (or_introl eq_refl)) as (_ & c & f & t & _ & Hf & Ht & _).
    destruct Hnone; congruence.
  - intros f t Hf Ht Hlt.
    destruct (List.filter _ (visibleMaps w)) as [|m l] eqn:Hl; [reflexivity|]. exfalso.
    destruct (proj1 (Hiff m) (or_introl eq_refl)) as (_ & c & f' & t' & _ & Hf' & Ht' & Hr).
    rewrite Hf in Hf'. rewrite Ht in Ht'. injection Hf' as <-. injection Ht' as <-. lia.
Qed.

(** X26. [isStorageAvailable] never throws and touches no entry but its
    own test key.  It answers [true] exactly when the store accepts both
    its write and its removal, and then the test key is absent; when the
    write is accepted and the removal refused it answers [false] and
    leaves the test entry in the store. *)
Theorem isStorageAvailable_outcome (w : world) :
  ∃ w' available,
    isStorageAvailable w = (w', inr available)
    ∧ (∀ key, key ≠ "__storage_test__" → localStorage w' !! key = localStorage w !! key)
    ∧ available
      = match faults w with
        | Some _ :: _ | _ :: Some _ :: _ => false
        | _ => true
        end
    ∧ (available = true → localStorage w' !! "__storage_test__" = None)
    ∧ (available = false → head (faults w) = Some None →
       localStorage w' !! "__storage_test__" = Some Garbled).
Proof.
  unfold isStorageAvailable, try_catch, mbind, M_bind, mret, M_ret,
    setItem, removeItem, write_outcome.
  destruct w as [ls fs t]. cbn [faults localStorage ticks].
  destruct fs as [|[e|] [|[e'|] rest]]; cbn [faults localStorage ticks head tail];
    eexists; eexists; (split; [reflexivity|]); cbn [localStorage faults head];
    repeat split; try discriminate; try reflexivity;
    try (intros key Hk; rewrite ?lookup_delete_ne, ?lookup_insert_ne by congruence;
         reflexivity);
    try (intros; apply lookup_delete_eq);
    try (intros; apply lookup_insert_eq).
Qed.


(** ** Searching *)

Section Searching.

Variable String_toLowerCase : string → string.
Variable String_trim : string → string.
Variable String_includes : string → string → bool.

Lemma lowerIncludes_error v term e :
  lowerIncludes String_toLowerCase String_includes v term = inl e → e = TypeError.
Proof.
  unfold lowerIncludes. destruct (truthy v); [|discriminate].
  destruct v as [[| b | x | s | l | o]|]; congruence.
Qed.

Lemma markerMatches_error term marker e :
  markerMatches String_toLowerCase String_includes term marker = inl e → e = TypeError.
Proof.
  unfold markerMatches.
  destruct marker as [| b | x | s | l | o]; try congruence;
    (destruct (lowerIncludes _ _ (get "titre" _) term) as [e'|[]] eqn:H1;
     [apply lowerIncludes_error in H1; congruence|discriminate|apply lowerIncludes_error]).
Qed.

Lemma someMarker_error term markers e :
  someMarker String_toLowerCase String_includes term markers = inl e → e = TypeError.
Proof.
  induction markers as [|marker rest IH]; [discriminate|]. cbn [someMarker].
  destruct (markerMatches _ _ term marker) as [e'|[]] eqn:H1;
    [apply markerMatches_error in H1; congruence|discriminate|exact IH].
Qed.

Lemma mapMatches_error term map e :
  mapMatches String_toLowerCase String_includes term map = inl e → e = TypeError.
Proof.
  unfold mapMatches.
  destruct (get "title" map) as [[| b | x | title | l | o]|]; try congruence.
  destruct (String_includes _ term); [discriminate|].
  destruct (get "markers" map) as [[| b | x | s | l | o]|]; try discriminate.
  apply someMarker_error.
Qed.

Lemma filterMatches_outcome term maps :
  match filterMatches String_toLowerCase String_includes term maps with
  | inl e => e = TypeError
  | inr found =>
      sublist found maps
      ∧ (∀ m title, In m maps → get "title" m = Some (JStr title) →
           String_includes (String_toLowerCase title) term = true → In m found)
  end.
Proof.
  induction maps as [|map rest IH]; cbn [filterMatches].
  - split; [constructor|]. intros m title [].
  - destruct (mapMatches _ _ term map) as [e|keep] eqn:Hm;
      [now apply mapMatches_error in Hm|].
    destruct (filterMatches _ _ term rest) as [e|found]; [exact IH|].
    destruct IH as [Hsub Hall]. split.
    + destruct keep; [now apply sublist_skip|now apply sublist_cons].
    + intros m title [<-|Hin] Ht Hi.
      * unfold mapMatches in Hm. rewrite Ht, Hi in Hm. injection Hm as <-. now left.
      * specialize (Hall m title Hin Ht Hi). destruct keep; [now right|exact Hall].
Qed.

Lemma filterMatches_throws term maps m e :
  In m maps → mapMatches String_toLowerCase String_includes term m = inl e →
  filterMatches String_toLowerCase String_includes term maps = inl TypeError.
Proof.
  intros Hin Hm.
  pose proof (filterMatches_outcome term maps) as Hout.
  destruct (filterMatches _ _ term maps) as [e'|found] eqn:Hf; [now subst e'|].
  exfalso. clear Hout. revert found Hf.
  induction maps as [|map rest IH]; [destruct Hin|]. cbn [filterMatches]. intros found.
  destruct Hin as [->|Hin]; [now rewrite Hm|].
  destruct (mapMatches _ _ term map); [discriminate|].
  destruct (filterMatches _ _ term rest) as [|found']; [discriminate|].
  intros _. now apply (IH Hin found').
Qed.

(** X27. [searchMaps] never writes, and the only error it lets out is a
    [TypeError], never on a blank term.  When it returns, the maps it
    returns are maps of the Collection in their order; all of them for a
    term that is empty or blank; and otherwise at least every map whose
    lower-cased title includes the trimmed, lower-cased term. *)
Theorem searchMaps_outcome (searchTerm : string) (w : world) :
  let blank := String.eqb searchTerm "" || (String.length (String_trim searchTerm) =? 0) in
  let term := String_trim (String_toLowerCase searchTerm) in
  ∃ r,
    searchMaps String_toLowerCase String_trim String_includes searchTerm w = (w, r)
    ∧ match r with
      | inl e => e = TypeError ∧ blank = false
      | inr found =>
          sublist found (visibleMaps w)
          ∧ (blank = true → found = visibleMaps w)
          ∧ (∀ m title, In m (visibleMaps w) → get "title" m = Some (JStr title) →
               String_includes (String_toLowerCase title) term = true → In m found)
      end.
Proof.
  intros blank term. unfold searchMaps. fold blank. destruct blank eqn:Hb.
  - exists (inr (visibleMaps w)). split; [apply getAllMaps_run|].
    split; [reflexivity|]. split; [reflexivity|]. intros m title Hm _ _. exact Hm.
  - unfold mbind, M_bind, mret, M_ret, throw. rewrite getAllMaps_run. fold term.
    pose proof (filterMatches_outcome term (visibleMaps w)) as Hout.
    destruct (filterMatches _ _ term (visibleMaps w)) as [e|found];
      eexists; (split; [reflexivity|]).
    + split; [exact Hout|reflexivity].
    + destruct Hout as [Hsub Hall]. split; [exact Hsub|]. split; [discriminate|exact Hall].
Qed.

(** X28. One [null] among the markers stops a whole search: for a term
    that is not blank, when a map of the Collection does not match by its
    title and the first of its markers is [null], [searchMaps] throws a
    [TypeError] instead of returning the other maps that match. *)
Theorem searchMaps_null_marker
    (searchTerm : string) (w : world) (m : json) (title : string) (rest : list json) :
  searchTerm ≠ "" → String.length (String_trim searchTerm) ≠ 0 →
  In m (visibleMaps w) →
  get "title" m = Some (JStr title) →
  String_includes (String_toLowerCase title) (String_trim (String_toLowerCase searchTerm))
  = false →
  get "markers" m = Some (JArr (JNull :: rest)) →
  searchMaps String_toLowerCase String_trim String_includes searchTerm w
  = (w, inl TypeError).
Proof.
  intros Hne Htrim Hin Ht Hno Hmk. unfold searchMaps.
  apply String.eqb_neq in Hne. apply Nat.eqb_neq in Htrim. rewrite Hne, Htrim.
  cbn [orb]. unfold mbind, M_bind, mret, M_ret, throw. rewrite getAllMaps_run.
  rewrite (filterMatches_throws _ _ m TypeError Hin); [reflexivity|].
  unfold mapMatches. now rewrite Ht, Hno, Hmk.
Qed.

Lemma lowerIncludes_text v term :
  textOrFalsy v = true →
  ∃ hit, lowerIncludes String_toLowerCase String_includes v term = inr hit
         ∧ (hit = true → ∃ s, v = Some (JStr s)
                              ∧ String_includes (String_toLowerCase s) term = true).
Proof.
  unfold textOrFalsy, lowerIncludes. intros H.
  destruct (truthy v) eqn:Hv; [|exists false; split; [reflexivity|discriminate]].
  cbn [negb orb] in H.
  destruct v as [[| b | x | s | l | o]|]; try discriminate H.
  eexists. split; [reflexivity|]. eauto.
Qed.

Lemma someMarker_searchable term markers :
  forallb searchable markers = true →
  ∃ hit, someMarker String_toLowerCase String_includes term markers = inr hit
    ∧ (hit = true →
       ∃ marker s, In marker markers
         ∧ (get "titre" marker = Some (JStr s) ∨ get "description" marker = Some (JStr s))
         ∧ String_includes (String_toLowerCase s) term = true).
Proof.
  induction markers as [|marker rest IH]; intros Hall.
  - exists false. split; [reflexivity|discriminate].
  - cbn [forallb] in Hall. apply andb_prop in Hall as [Hm Hrest].
    destruct (IH Hrest) as (hr & Hrun & Hhit). cbn [someMarker].
    assert (Hmk : ∃ hit, markerMatches String_toLowerCase String_includes term marker = inr hit
      ∧ (hit = true → ∃ s,
           (get "titre" marker = Some (JStr s) ∨ get "description" marker = Some (JStr s))
           ∧ String_includes (String_toLowerCase s) term = true)).
    { unfold searchable in Hm. unfold markerMatches.
      destruct marker as [| b | x | s | l | o]; try discriminate Hm;
        apply andb_prop in Hm as [H1 H2];
        destruct (lowerIncludes_text _ term H1) as (h1 & -> & Hh1);
        destruct (lowerIncludes_text _ term H2) as (h2 & Hr2 & Hh2);
        (destruct h1;
         [exists true; split; [reflexivity|];
          intros _; destruct (Hh1 eq_refl) as (s' & ? & ?); eauto
         |rewrite Hr2; exists h2; split; [reflexivity|];
          intros ->; destruct (Hh2 eq_refl) as (s' & ? & ?); eauto]). }
    destruct Hmk as (hm & -> & Hhm). destruct hm.
    + exists true. split; [reflexivity|]. intros _.
      destruct (Hhm eq_refl) as (s & Hs & Hi). exists marker, s. split; [now left|auto].
    + rewrite Hrun. exists hr. split; [reflexivity|]. intros H.
      destruct (Hhit H) as (mk & s & Hin & Hs & Hi). exists mk, s. split; [now right|auto].
Qed.

(** X29. When no marker of the Collection is [null] and every [titre]
    and [description] of a marker is absent, falsy or a text, [searchMaps]
    returns normally, and each map it returns for a term that is not blank
    is a map of the Collection that matches by its title, or by the
    [titre] or the [description] of one of its markers. *)
Theorem searchMaps_returns (searchTerm : string) (w : world) :
  Forall (λ m, forallb searchable (markersOf m) = true) (visibleMaps w) →
  let term := String_trim (String_toLowerCase searchTerm) in
  ∃ found,
    searchMaps String_toLowerCase String_trim String_includes searchTerm w = (w, inr found)
    ∧ (searchTerm ≠ "" → String.length (String_trim searchTerm) ≠ 0 →
       ∀ m, In m found →
         In m (visibleMaps w)
         ∧ ∃ s, String_includes (String_toLowerCase s) term = true
                ∧ (get "title" m = Some (JStr s)
                   ∨ ∃ marker, In marker (markersOf m)
                       ∧ (get "titre" marker = Some (JStr s)
                          ∨ get "description" marker = Some (JStr s)))).
Proof.
  intros Hok term.
  assert (Hrun : ∃ found,
    filterMatches String_toLowerCase String_includes term (visibleMaps w) = inr found
    ∧ ∀ m, In m found →
        In m (visibleMaps w)
        ∧ ∃ s, String_includes (String_toLowerCase s) term = true
               ∧ (get "title" m = Some (JStr s)
                  ∨ ∃ marker, In marker (markersOf m)
                      ∧ (get "titre" marker = Some (JStr s)
                         ∨ get "description" marker = Some (JStr s)))).
  { pose proof (visibleMaps_all_valid w) as Hv.
    induction (visibleMaps w) as [|map rest IH].
    - exists []. split; [reflexivity|]. intros m [].
    - apply Forall_cons in Hok as [Hmap Hok]. apply Forall_cons in Hv as [Hvm Hv].
      destruct (IH Hok Hv) as (found & Hf & Hall). cbn [filterMatches]. rewrite Hf.
      assert (Hmm : ∃ keep, mapMatches String_toLowerCase String_includes term map = inr keep
        ∧ (keep = true →
           ∃ s, String_includes (String_toLowerCase s) term = true
                ∧ (get "title" map = Some (JStr s)
                   ∨ ∃ marker, In marker (markersOf map)
                       ∧ (get "titre" marker = Some (JStr s)
                          ∨ get "description" marker = Some (JStr s))))).
      { destruct (validateMapData_is_obj map Hvm) as [o ->].
        rewrite validateMapData_obj in Hvm. repeat (apply andb_prop in Hvm as [Hvm ?]).
        unfold mapMatches. cbn [get].
        destruct (o !! "title") as [[| b | x | title | l | o']|] eqn:Ht; try discriminate.
        destruct (String_includes (String_toLowerCase title) term) eqn:Hi.
        - exists true. split; [reflexivity|]. intros _. exists title. auto.
        - unfold markersOf in Hmap. cbn [get] in Hmap.
          destruct (o !! "markers") as [[| b | x | s | markers | o']|] eqn:Hmk;
            try (exists false; split; [reflexivity|discriminate]).
          destruct (someMarker_searchable term markers Hmap) as (hit & -> & Hhit).
          exists hit. split; [reflexivity|]. intros Hh.
          destruct (Hhit Hh) as (marker & s & Hin & Hs & Hinc).
          exists s. split; [exact Hinc|]. right. exists marker.
          unfold markersOf. cbn [get]. rewrite Hmk. auto. }
      destruct Hmm as (keep & -> & Hkeep).
      eexists. split; [reflexivity|]. intros m Hm.
      destruct keep.
      + destruct Hm as [<-|Hm].
        * split; [now left|now apply Hkeep].
        * destruct (Hall m Hm) as [Hin Hs]. split; [now right|exact Hs].
      + destruct (Hall m Hm) as [Hin Hs]. split; [now right|exact Hs]. }
  destruct Hrun as (found & Hf & Hall).
  unfold searchMaps.
  destruct (String.eqb searchTerm "" || (String.length (String_trim searchTerm) =? 0)) eqn:Hb.
  - exists (visibleMaps w). split; [apply getAllMaps_run|].
    intros Hne Htrim. exfalso.
    apply String.eqb_neq in Hne. apply Nat.eqb_neq in Htrim.
    rewrite Hne, Htrim in Hb. discriminate.
  - unfold mbind, M_bind, mret, M_ret. rewrite getAllMaps_run. fold term. rewrite Hf.
    exists found. split; [reflexivity|]. intros _ _. exact Hall.
Qed.

End Searching.

End MapStorage.

(** ** Concrete stores *)

Lemma sample_clock_nonempty : ∀ n, sample_toISOString n ≠ "".
Proof. intros n. unfold sample_toISOString. discriminate. Qed.

(** C1 (code defect). [validateMarkerData] accepts the marker
    [{titre:"x", lat:100, lon:0, couleur:"red", icone:"🍴", id:1}] although
    its latitude is outside [-90, 90]: it only checks that [lat] and [lon]
    are numbers other than NaN.  The same marker at (10, 10) is accepted
    too. *)
Theorem validateMarkerData_ignores_range :
  validateMarkerData (sample_marker 100 0) = true
  ∧ finite_in_range (-90) 90 (get "lat" (sample_marker 100 0)) = false
  ∧ validateMarkerData (sample_marker 10 10) = true
  ∧ finite_in_range (-90) 90 (get "lat" (sample_marker 10 10)) = true
  ∧ finite_in_range (-180) 180 (get "lon" (sample_marker 10 10)) = true.
Proof. repeat split; vm_compute; reflexivity. Qed.

(** C3, on a store that holds one map and refuses the coming write:
    deleting that map attempts the write, which fails, and nothing is
    thrown: the answer is [false], the map is still stored; and so it is
    with [deleteAllMaps]. *)
Lemma delete_swallows_write_failure :
  let w := sample_world [JObj (sample_map "a" "Paris" "2020")] [Some QuotaExceededError] in
  head (faults w) = Some (Some QuotaExceededError)
  ∧ visibleMaps w = [JObj (sample_map "a" "Paris" "2020")]
  ∧ deleteMap (JStr "a") w = (refused w, inr false)
  ∧ deleteAllMaps w = (refused w, inr false)
  ∧ storedMaps (refused w) = storedMaps w
  ∧ ¬ (∃ w' e, deleteMap (JStr "a") w = (w', inl e))
  ∧ ¬ (∃ w' e, deleteAllMaps w = (w', inl e)).
Proof.
  cbv zeta.
  assert (Hd : deleteMap (JStr "a")
                 (sample_world [JObj (sample_map "a" "Paris" "2020")] [Some QuotaExceededError])
               = (refused (sample_world [JObj (sample_map "a" "Paris" "2020")]
                             [Some QuotaExceededError]), inr false))
    by (vm_compute; reflexivity).
  assert (Ha : deleteAllMaps
                 (sample_world [JObj (sample_map "a" "Paris" "2020")] [Some QuotaExceededError])
               = (refused (sample_world [JObj (sample_map "a" "Paris" "2020")]
                             [Some QuotaExceededError]), inr false))
    by (vm_compute; reflexivity).
  repeat split; try assumption; try (vm_compute; reflexivity).
  - intros (w' & e & H). rewrite Hd in H. discriminate H.
  - intros (w' & e & H). rewrite Ha in H. discriminate H.
Qed.

(** C5, on a store of 8 maps that refuses the write of a ninth: the
    capacity error is thrown and nothing is evicted; the 8 maps are all
    there, not the 6 that evicting the oldest quarter would leave. *)
Lemma quota_cleanup_skipped_on_small_store :
  let w := sample_world (JObj <$> sample_maps 8 2000) [Some QuotaExceededError] in
  let r := saveMap sample_toISOString sample_Date_now sample_Math_random
             sample_Date_value (sample_map "m2024" "Carte 2024" "2024") w in
  head (faults w) = Some (Some QuotaExceededError)
  ∧ r.2 = inl (Error capacity_message)
  ∧ visibleMaps r.1 = visibleMaps w
  ∧ length (visibleMaps r.1) = 8
  ∧ length (visibleMaps r.1) ≠ 8 - 8 / 4.
Proof. vm_compute. repeat split; try reflexivity. discriminate. Qed.

(** C5, the example of the specification: 20 maps, the write of a new one
    refused; the 5 oldest are evicted and 15 remain, the new map not among
    them. *)
Example quota_cleanup_twenty_maps :
  let w := sample_world (JObj <$> sample_maps 20 2000) [Some QuotaExceededError] in
  let r := saveMap sample_toISOString sample_Date_now sample_Math_random
             sample_Date_value (sample_map "m2024" "Carte 2024" "2024") w in
  r.2 = inl (Error capacity_message)
  ∧ visibleMaps r.1 = JObj <$> sample_maps 15 2005.
Proof. vm_compute. split; reflexivity. Qed.

(** C3, on the same store: the three operations on a refused write. *)
Lemma store_write_failure_witness :
  let w := sample_world [JObj (sample_map "a" "Paris" "2020")] [Some QuotaExceededError] in
  head (faults w) = Some (Some QuotaExceededError)
  ∧ ((∀ mapData, ∃ w',
        saveMap sample_toISOString sample_Date_now sample_Math_random sample_Date_value
          mapData w
        = (w', inl (Error capacity_message)))
     ∧ (∀ mapId, ∃ w',
          deleteMap mapId w = (w', inr false) ∧ localStorage w' = localStorage w)
     ∧ deleteAllMaps w = (refused w, inr false)).
Proof.
  split; [reflexivity|].
  apply (store_write_failure sample_toISOString sample_Date_now sample_Math_random
           sample_Date_value _ QuotaExceededError).
  reflexivity.
Defined.

(** C5, on the store of 20 maps. *)
Lemma save_on_full_store_witness :
  let w := sample_world (JObj <$> sample_maps 20 2000) [Some QuotaExceededError] in
  head (faults w) = Some (Some QuotaExceededError)
  ∧ ∃ w', saveMap sample_toISOString sample_Date_now sample_Math_random sample_Date_value
            (sample_map "m2024" "Carte 2024" "2024") w
          = (w', inl (Error capacity_message))
    ∧ (length (visibleMaps w) ≤ 10 →
         localStorage w' = localStorage w ∧ faults w' = tail (faults w))
    ∧ (10 < length (visibleMaps w) →
         match head (tail (faults w)) with
         | Some (Some _) => localStorage w' = localStorage w
         | _ =>
             ∃ evicted survivors,
               Permutation (evicted ++ survivors) (visibleMaps w)
               ∧ length evicted = length (visibleMaps w) / 4
               ∧ localStorage w'
                 = <[STORAGE_KEY := JSON_stringify (JArr survivors)]> (localStorage w)
               ∧ (Forall (dated sample_Date_value) (visibleMaps w) →
                    ∀ a b, In a evicted → In b survivors →
                           not_after sample_Date_value a b)
         end
         ∧ faults w' = tail (tail (faults w))).
Proof.
  split; [reflexivity|].
  apply (save_on_full_store sample_toISOString sample_Date_now sample_Math_random
           sample_Date_value).
  reflexivity.
Defined.

(** C7, on an envelope whose [maps] field is a text. *)
Lemma importMaps_malformed_witness :
  let w := sample_world [JObj (sample_map "a" "Paris" "2020")] [] in
  let jsonData := Doc (JObj (<["maps" := JStr "aucune"]> ∅)) in
  malformed jsonData = true
  ∧ ∃ e, importMaps sample_toISOString sample_Date_now sample_Math_random
           sample_Date_value jsonData false w = (w, inl e)
         ∧ (e = SyntaxError ∨ e = TypeError ∨ e = Error "Format de fichier invalide").
Proof.
  split; [reflexivity|].
  apply (importMaps_malformed sample_toISOString sample_Date_now sample_Math_random
           sample_Date_value).
  reflexivity.
Defined.

(** C8 (code defect).  On a store that holds a record saved before the
    [created] field existed (no [created], no [version]) next to a record
    of an earlier version: [applyMigrations], given the first record,
    would give it a [created] date; [migrateMaps] never hands it that
    record, because it goes through [getAllMaps], which has dropped it.
    The record is not counted, not backfilled and not stamped; and since
    the other record is migrated, the Collection is written back without
    it: the record is gone from the store.  Alone in the store, the record
    stays as it is, with no [created] and no [version]. *)
Theorem migrateMaps_never_backfills_created :
  let w := sample_world [JObj sample_old_map; JObj sample_legacy_map] [] in
  let r := migrateMaps sample_toISOString (JStr "0.9.0") (JStr VERSION) w in
  let alone := sample_world [JObj sample_old_map] [] in
  (get "version" (JObj sample_old_map) = None
   ∧ get "created" (JObj sample_old_map) = None)
  ∧ (∃ migrated, (applyMigrations sample_toISOString sample_old_map w).2 = inr migrated
                 ∧ migrated !! "created" = Some (JStr (sample_toISOString 0)))
  ∧ (get "id" <$> storedMaps w) = [Some (JStr "a"); Some (JStr "b")]
  ∧ r.2 = inr (MigrateResult 1 1)
  ∧ (get "id" <$> storedMaps r.1) = [Some (JStr "b")]
  ∧ (get "version" <$> storedMaps r.1) = [Some (JStr VERSION)]
  ∧ migrateMaps sample_toISOString (JStr "0.9.0") (JStr VERSION) alone
    = (alone, inr (MigrateResult 0 0)).
Proof.
  split; [split; vm_compute; reflexivity|].
  split; [eexists; split; vm_compute; reflexivity|].
  repeat split; vm_compute; reflexivity.
Qed.

(** C8, on a store that holds a record without [created] and without
    [version]: [migrateMaps] does not see it.  Nothing is migrated: the
    record stays in the store as it was, with no [created] and no
    [version]. *)
Lemma migrateMaps_skips_invalid_records :
  let w := sample_world [JObj sample_old_map] [] in
  let r := migrateMaps sample_toISOString (JStr "0.9.0") (JStr VERSION) w in
  storedMaps w = [JObj sample_old_map]
  ∧ get "version" (JObj sample_old_map) = None
  ∧ get "created" (JObj sample_old_map) = None
  ∧ r = (w, inr (MigrateResult 0 0))
  ∧ (get "version" <$> storedMaps r.1) = [None]
  ∧ (get "created" <$> storedMaps r.1) = [None]
  ∧ (get "version" <$> storedMaps r.1) ≠ [Some (JStr VERSION)].
Proof. vm_compute. repeat split; try reflexivity. discriminate. Qed.


(** X30, what the migration of that store gives: the earlier record
    gets the default centre and zoom and the current version. *)
Example migrateMaps_legacy_record :
  let w := sample_world [JObj sample_legacy_map; JObj sample_current_map] [] in
  let r := migrateMaps sample_toISOString (JStr "0.9.0") (JStr VERSION) w in
  r.2 = inr (MigrateResult 1 2)
  ∧ (get "version" <$> visibleMaps r.1) = [Some (JStr VERSION); Some (JStr VERSION)]
  ∧ (get "zoom" <$> visibleMaps r.1) = [Some (JNum 6); Some (JNum 0)]
  ∧ (get "center" <$> visibleMaps r.1)
    = [Some default_center; Some (JArr [JNum 48.5; JNum 2.5])].
Proof. vm_compute. repeat split; reflexivity. Qed.

(** X30, a map at zoom level 0 that is migrated to a later version: its
    zoom is read as missing and replaced by the default. *)
Example migrateMaps_zoom_zero :
  let w := sample_world [JObj sample_current_map] [] in
  let r := migrateMaps sample_toISOString (JStr VERSION) (JStr "1.1.0") w in
  (get "zoom" <$> visibleMaps w) = [Some (JNum 0)]
  ∧ r.2 = inr (MigrateResult 1 1)
  ∧ (get "zoom" <$> visibleMaps r.1) = [Some (JNum 6)]
  ∧ (get "center" <$> visibleMaps r.1) = [Some (JArr [JNum 48.5; JNum 2.5])].
Proof. vm_compute. repeat split; reflexivity. Qed.

(** C9, on a store of two maps: the first is saved twice under its id
    with a new title each time. *)
Lemma save_twice_witness :
  let w := sample_world [JObj (sample_map "a" "Paris" "2020");
                         JObj (sample_map "b" "Lyon" "2021")] [] in
  let m1 := sample_map "a" "Paris, rive gauche" "2020" in
  let m2 := sample_map "a" "Paris, rive droite" "2020" in
  let save := saveMap sample_toISOString sample_Date_now sample_Math_random
                sample_Date_value in
  (faults w = []
   ∧ Forall JSON_stable (visibleMaps w)
   ∧ validateMapData (JObj m1) = true ∧ JSON_stable (JObj m1)
   ∧ validateMapData (JObj m2) = true ∧ JSON_stable (JObj m2)
   ∧ m2 !! "id" = m1 !! "id"
   ∧ (∃ x, In x (visibleMaps w) ∧ has_id (m1 !! "id") x = true))
  ∧ ∃ id w1 w2,
      m1 !! "id" = Some id
      ∧ save m1 w = (w1, inr id)
      ∧ save m2 w1 = (w2, inr id)
      ∧ length (visibleMaps w1) = length (visibleMaps w)
      ∧ length (visibleMaps w2) = length (visibleMaps w)
      ∧ storedMaps w1 = visibleMaps w1
      ∧ storedMaps w2 = visibleMaps w2
      ∧ getMapById id w1
        = (w1, inr (Some (JObj (<["modified" := JStr (sample_toISOString (ticks w))]>
                                  (<["version" := JStr VERSION]> m1)))))
      ∧ getMapById id w2
        = (w2, inr (Some (JObj (<["modified" := JStr (sample_toISOString (ticks w1))]>
                                  (<["version" := JStr VERSION]> m2))))).
Proof.
  assert (Hst : Forall JSON_stable
                  (visibleMaps (sample_world [JObj (sample_map "a" "Paris" "2020");
                                              JObj (sample_map "b" "Lyon" "2021")] []))).
  { repeat constructor; vm_compute; reflexivity. }
  assert (Hx : ∃ x, In x (visibleMaps (sample_world [JObj (sample_map "a" "Paris" "2020");
                                              JObj (sample_map "b" "Lyon" "2021")] []))
                    ∧ has_id (sample_map "a" "Paris, rive gauche" "2020" !! "id") x = true).
  { exists (JObj (sample_map "a" "Paris" "2020")). split; [left|]; vm_compute; reflexivity. }
  split.
  - repeat split; try exact Hst; try exact Hx; vm_compute; reflexivity.
  - apply (save_twice sample_toISOString sample_Date_now sample_Math_random
             sample_Date_value sample_clock_nonempty);
      try exact Hst; try exact Hx; vm_compute; reflexivity.
Defined.

(** C2, on a store of two maps: renaming an id that is not there, and
    renaming the second map. *)
Lemma rename_contract_witness :
  let w := sample_world [JObj (sample_map "a" "Paris" "2020");
                         JObj (sample_map "b" "Lyon" "2021")] [] in
  let rename := renameMap sample_toISOString in
  ((∀ n, sample_toISOString n ≠ "")
   ∧ (∀ m, In m (visibleMaps w) → has_id (Some (JStr "no-such-id")) m = false)
   ∧ In (JObj (sample_map "b" "Lyon" "2021")) (visibleMaps w)
   ∧ has_id (Some (JStr "b")) (JObj (sample_map "b" "Lyon" "2021")) = true
   ∧ faults w = [] ∧ Forall JSON_stable (visibleMaps w) ∧ "Lyon, Croix-Rousse" ≠ "")
  ∧ rename (JStr "no-such-id") "X" w = (w, inr tt)
  ∧ ∃ i o w',
      findIndex (has_id (Some (JStr "b"))) (visibleMaps w) = Some i
      ∧ visibleMaps w !! i = Some (JObj o)
      ∧ rename (JStr "b") "Lyon, Croix-Rousse" w = (w', inr tt)
      ∧ visibleMaps w'
        = <[i := JObj (<["modified" := JStr (sample_toISOString (ticks w))]>
                         (<["title" := JStr "Lyon, Croix-Rousse"]> o))]> (visibleMaps w).
Proof.
  assert (Hnone : ∀ m, In m (visibleMaps (sample_world [JObj (sample_map "a" "Paris" "2020");
                         JObj (sample_map "b" "Lyon" "2021")] [])) →
                       has_id (Some (JStr "no-such-id")) m = false).
  { intros m [<-|[<-|[]]]; vm_compute; reflexivity. }
  assert (Hin : In (JObj (sample_map "b" "Lyon" "2021"))
                  (visibleMaps (sample_world [JObj (sample_map "a" "Paris" "2020");
                         JObj (sample_map "b" "Lyon" "2021")] []))).
  { right. left. vm_compute. reflexivity. }
  assert (Hst : Forall JSON_stable
                  (visibleMaps (sample_world [JObj (sample_map "a" "Paris" "2020");
                                              JObj (sample_map "b" "Lyon" "2021")] []))).
  { repeat constructor; vm_compute; reflexivity. }
  split; [|split].
  - repeat split; try assumption; try exact sample_clock_nonempty; discriminate.
  - apply (rename_contract sample_toISOString sample_clock_nonempty _ _ "X" []), Hnone.
  - eapply (rename_contract sample_toISOString sample_clock_nonempty _ _ _ []);
      [exact Hin|reflexivity|reflexivity|exact Hst|discriminate].
Defined.


(** C6, what that import gives: one record imported under a generated
    id, one entry skipped, two maps in the Collection. *)
Example importMaps_sample_run :
  let w := sample_world [JObj (sample_map "a" "Paris" "2020")] [] in
  let r := importMaps sample_toISOString sample_Date_now sample_Math_random
             sample_Date_value (Doc sample_envelope) false w in
  r.2 = inr (ImportResult 1 1 2)
  ∧ (get "id" <$> visibleMaps r.1)
    = [Some (JStr "a"); Some (JStr "map_1704067200000_k3v9x1")]
  ∧ (get "title" <$> visibleMaps r.1) = [Some (JStr "Paris"); Some (JStr "Importee")].
Proof. vm_compute. repeat split; reflexivity. Qed.

(** C4, on an empty store: 51 maps created in the years 1970 to 2020 are
    inserted one after the other.  First, what the run satisfies. *)
Lemma sample_run_storable :
  Forall (λ r, storable r = true ∧ JSON_stable (JObj r)) (sample_maps 51 1970).
Proof. repeat (constructor; [split; vm_compute; reflexivity|]). constructor. Qed.

Lemma sample_run_inserts :
  inserts sample_toISOString sample_Date_now sample_Math_random sample_Date_value
    (sample_maps 51 1970) (sample_world [] []).
Proof. vm_compute. repeat split. Qed.

Lemma sample_run_dated :
  Forall (dated sample_Date_value)
    (visibleMaps (sample_world [] []) ++ (JObj <$> sample_maps 51 1970)).
Proof. repeat (constructor; [eexists; vm_compute; reflexivity|]). constructor. Qed.

Lemma sample_run_distinct :
  NoDup (createdAt sample_Date_value
           <$> (visibleMaps (sample_world [] []) ++ (JObj <$> sample_maps 51 1970))).
Proof. apply (bool_decide_unpack _). vm_compute. exact I. Qed.

(** C4, on that run. *)
Lemma cap_enforcement_witness :
  let w := sample_world [] [] in
  let news := sample_maps 51 1970 in
  let run := saveAll sample_toISOString sample_Date_now sample_Math_random
               sample_Date_value news w in
  (faults w = []
   ∧ Forall JSON_stable (visibleMaps w)
   ∧ Forall (λ r, storable r = true ∧ JSON_stable (JObj r)) news
   ∧ inserts sample_toISOString sample_Date_now sample_Math_random sample_Date_value news w
   ∧ length news = MAX_MAPS + 1
   ∧ Forall (dated sample_Date_value) (visibleMaps w ++ (JObj <$> news))
   ∧ NoDup (createdAt sample_Date_value <$> (visibleMaps w ++ (JObj <$> news))))
  ∧ ∃ evicted,
      Forall (λ out, ∃ id, out = inr id) run.2
      ∧ Permutation (evicted ++ visibleMaps run.1)
          (visibleMaps w ++ stampedAll sample_toISOString sample_Date_now
                              sample_Math_random news (ticks w))
      ∧ length (visibleMaps run.1) = MAX_MAPS
      ∧ storedMaps run.1 = visibleMaps run.1
      ∧ length evicted = length (visibleMaps w) + 1
      ∧ (∀ a b, In a evicted → In b (visibleMaps run.1) → before sample_Date_value a b).
Proof.
  split.
  - exact (conj eq_refl (conj (Forall_nil_2 _) (conj sample_run_storable
      (conj sample_run_inserts (conj eq_refl (conj sample_run_dated sample_run_distinct)))))).
  - exact (cap_enforcement sample_toISOString sample_Date_now sample_Math_random
             sample_Date_value sample_clock_nonempty (sample_world [] []) (sample_maps 51 1970) 1
             eq_refl (Forall_nil_2 _) sample_run_storable sample_run_inserts eq_refl
             sample_run_dated sample_run_distinct).
Defined.

(** C4, what that run leaves: the map of 1970 is gone, the 50 maps of
    1971 to 2020 are the Collection. *)
Example cap_enforcement_sample_run :
  let run := saveAll sample_toISOString sample_Date_now sample_Math_random
               sample_Date_value (sample_maps 51 1970) (sample_world [] []) in
  length (visibleMaps run.1) = 50
  ∧ head (get "created" <$> visibleMaps run.1) = Some (Some (JStr "1971"))
  ∧ last (get "created" <$> visibleMaps run.1) = Some (Some (JStr "2020")).
Proof. vm_compute. repeat split; reflexivity. Qed.

(** * The further properties on concrete stores *)

Lemma sample_store_stable fs : Forall JSON_stable (visibleMaps (sample_store fs)).
Proof. repeat constructor; vm_compute; reflexivity. Qed.

(** X1, on the store of two maps: deleting an id that is not there. *)
Lemma deleteMap_absent_witness :
  let w := sample_store [] in
  (∀ m, In m (visibleMaps w) → has_id (Some (JStr "zz")) m = false)
  ∧ deleteMap (JStr "zz") w = (w, inr false).
Proof.
  assert (H : ∀ m, In m (visibleMaps (sample_store [])) →
                   has_id (Some (JStr "zz")) m = false).
  { intros m [<-|[<-|[]]]; vm_compute; reflexivity. }
  split; [exact H|]. exact (deleteMap_absent (sample_store []) (JStr "zz") H).
Defined.

(** X2, on the same store: deleting the second map. *)
Lemma deleteMap_present_witness :
  let w := sample_store [] in
  ((∃ m, In m (visibleMaps w) ∧ has_id (Some (JStr "b")) m = true) ∧ faults w = [])
  ∧ ∃ w', deleteMap (JStr "b") w = (w', inr true)
          ∧ getMapById (JStr "b") w' = (w', inr None)
          ∧ (get "id" <$> visibleMaps w') = [Some (JStr "a")].
Proof.
  assert (H : ∃ m, In m (visibleMaps (sample_store [])) ∧ has_id (Some (JStr "b")) m = true).
  { eexists. split; [right; left; reflexivity|vm_compute; reflexivity]. }
  split; [split; [exact H|reflexivity]|].
  destruct (deleteMap_present (sample_store []) (JStr "b") H eq_refl)
    as (w' & Hrun & Hget & _ & _ & Hvis).
  exists w'. split; [exact Hrun|]. split; [exact Hget|].
  rewrite (Hvis (sample_store_stable [])). vm_compute. reflexivity.
Defined.

(** X3, on the same store. *)
Lemma deleteAllMaps_clears_witness :
  let w := sample_store [] in
  faults w = []
  ∧ ∃ w', deleteAllMaps w = (w', inr true)
          ∧ getAllMaps w' = (w', inr [])
          ∧ (∀ mapId, getMapById mapId w' = (w', inr None))
          ∧ localStorage w' !! SETTINGS_KEY = localStorage w !! SETTINGS_KEY.
Proof.
  split; [reflexivity|]. exact (deleteAllMaps_clears (sample_store []) eq_refl).
Defined.

(** X5, on the same store, which holds no settings: saving a theme. *)
Lemma saveSettings_getSettings_witness :
  let w := sample_store [] in
  let settings := JObj {[ "theme" := JStr "dark" ]} in
  (faults w = [] ∧ getSettings w = (w, inr getDefaultSettings))
  ∧ ∃ w', saveSettings settings w = (w', inr tt)
          ∧ getSettings w'
            = (w', inr (JSON_roundtrip <$> (spread (Some settings) ∪ getDefaultSettings)))
          ∧ localStorage w' !! STORAGE_KEY = localStorage w !! STORAGE_KEY.
Proof.
  split; [split; reflexivity|].
  exact (saveSettings_getSettings (sample_store []) _ getDefaultSettings eq_refl eq_refl).
Defined.

(** X6, on the same store when it refuses the next write. *)
Lemma saveSettings_swallows_witness :
  let w := sample_store [Some QuotaExceededError] in
  head (faults w) = Some (Some QuotaExceededError)
  ∧ saveSettings (JObj {[ "theme" := JStr "dark" ]}) w = (refused w, inr tt).
Proof.
  split; [reflexivity|].
  exact (saveSettings_swallows (sample_store [Some QuotaExceededError]) _ _ eq_refl).
Defined.

(** X7, on the same store: the most recent map. *)
Lemma getRecentMaps_newest_witness :
  let w := sample_store [] in
  Forall (λ m, is_Some (modifiedAt sample_Date_value m)) (visibleMaps w)
  ∧ ∃ recent rest,
      getRecentMaps sample_Date_value 1 w = (w, inr recent)
      ∧ length recent = 1 `min` length (visibleMaps w)
      ∧ Permutation (visibleMaps w) (recent ++ rest)
      ∧ StronglySorted (newer_or_same sample_Date_value) recent
      ∧ (∀ a b, In a recent → In b rest → newer_or_same sample_Date_value a b).
Proof.
  assert (H : Forall (λ m, is_Some (modifiedAt sample_Date_value m))
                (visibleMaps (sample_store []))).
  { repeat constructor; eexists; vm_compute; reflexivity. }
  split; [exact H|]. exact (getRecentMaps_newest sample_Date_value (sample_store []) 1 H).
Defined.

(** X8, on the same store: the marker without position is removed. *)
Lemma cleanupStorage_cleans_witness :
  let w := sample_store [] in
  (faults w = [] ∧ Forall JSON_stable (visibleMaps w))
  ∧ ∃ w', cleanupStorage w = (w', inr (Cleanup.Result 2 2 0 1))
          ∧ (length ∘ markersOf <$> visibleMaps w) = [0; 2]
          ∧ (length ∘ markersOf <$> visibleMaps w') = [0; 1].
Proof.
  split; [split; [reflexivity|apply sample_store_stable]|].
  destruct (cleanupStorage_cleans (sample_store []) eq_refl (sample_store_stable []))
    as (w' & Hrun & _).
  exists w'. split; [exact Hrun|]. split; [vm_compute; reflexivity|].
  apply (f_equal fst) in Hrun. cbn [fst] in Hrun. subst w'. vm_compute. reflexivity.
Defined.

(** X9, on the same store. *)
Lemma cleanupStorage_twice_witness :
  let w := sample_store [] in
  (faults w = [] ∧ Forall JSON_stable (visibleMaps w))
  ∧ ∃ w' result,
      cleanupStorage w = (w', inr result)
      ∧ cleanupStorage w' = (w', inr (Cleanup.Result 2 2 0 0)).
Proof.
  split; [split; [reflexivity|apply sample_store_stable]|].
  exact (cleanupStorage_twice (sample_store []) eq_refl (sample_store_stable [])).
Defined.

(** X10, on the same store when it refuses the next write. *)
Lemma cleanupStorage_rethrows_witness :
  let w := sample_store [Some QuotaExceededError] in
  head (faults w) = Some (Some QuotaExceededError)
  ∧ cleanupStorage w = (refused w, inl QuotaExceededError).
Proof.
  split; [reflexivity|].
  exact (cleanupStorage_rethrows (sample_store [Some QuotaExceededError]) _ eq_refl).
Defined.

(** X12, on the same store, with a formatting of percentages. *)
Lemma cleanupStorage_then_check_witness :
  let w := sample_store [] in
  let toFixed := λ (_ : float) (_ : nat), "100.0" in
  let before := Integrity.Report 2 2 0 2 1 (JStr "100.0") in
  (faults w = [] ∧ Forall JSON_stable (visibleMaps w)
   ∧ checkDataIntegrity toFixed w = (w, inr before))
  ∧ ∃ w' result after,
      cleanupStorage w = (w', inr result)
      ∧ checkDataIntegrity toFixed w' = (w', inr after)
      ∧ Integrity.invalidMarkers after = 0
      ∧ Integrity.totalMarkers after = 1
      ∧ Integrity.totalMaps after = 2
      ∧ Cleanup.fixedMaps result ≤ 1.
Proof.
  assert (Hb : checkDataIntegrity (λ _ _, "100.0") (sample_store [])
               = (sample_store [], inr (Integrity.Report 2 2 0 2 1 (JStr "100.0")))).
  { vm_compute. reflexivity. }
  split; [split; [reflexivity|split; [apply sample_store_stable|exact Hb]]|].
  exact (cleanupStorage_then_check (λ _ _, "100.0") (sample_store []) _ eq_refl
           (sample_store_stable []) Hb).
Defined.

(** X13, on the same store when it refuses the next write. *)
Lemma importMaps_rethrows_witness :
  let w := sample_store [Some QuotaExceededError] in
  (get "maps" sample_envelope = Some (JArr sample_incoming)
   ∧ head (faults w) = Some (Some QuotaExceededError))
  ∧ ∃ w', importMaps sample_toISOString sample_Date_now sample_Math_random
            sample_Date_value (Doc sample_envelope) false w
          = (w', inl QuotaExceededError)
          ∧ localStorage w' = localStorage w.
Proof.
  split; [split; reflexivity|].
  exact (importMaps_rethrows sample_toISOString sample_Date_now sample_Math_random
           sample_Date_value (sample_store [Some QuotaExceededError]) sample_envelope
           sample_incoming false QuotaExceededError eq_refl eq_refl).
Defined.

(** X14, on the same store and the envelope that carries settings. *)
Lemma importMaps_replace_keeps_settings_witness :
  let w := sample_store [] in
  (get "maps" sample_envelope_settings = Some (JArr sample_incoming)
   ∧ (head (faults w) = None ∨ head (faults w) = Some None))
  ∧ ∃ w' result,
      importMaps sample_toISOString sample_Date_now sample_Math_random
        sample_Date_value (Doc sample_envelope_settings) true w
      = (w', inr result)
      ∧ (∀ key, key ≠ STORAGE_KEY → localStorage w' !! key = localStorage w !! key)
      ∧ total result = Nat.min MAX_MAPS (imported result)
      ∧ length (storedMaps w') = total result
      ∧ faults w' = tail (faults w).
Proof.
  split; [split; [reflexivity|left; reflexivity]|].
  exact (importMaps_replace_keeps_settings sample_toISOString sample_Date_now
           sample_Math_random sample_Date_value (sample_store [])
           sample_envelope_settings sample_incoming eq_refl (or_introl eq_refl)).
Defined.

(** X15, on the same store and envelope: the theme of the envelope is the
    one in force afterwards. *)
Lemma importMaps_merges_settings_witness :
  let w := sample_store [] in
  (get "maps" sample_envelope_settings = Some (JArr sample_incoming)
   ∧ truthy (get "settings" sample_envelope_settings) = true
   ∧ faults w = []
   ∧ getSettings w = (w, inr getDefaultSettings))
  ∧ ∃ w' result settings,
      importMaps sample_toISOString sample_Date_now sample_Math_random
        sample_Date_value (Doc sample_envelope_settings) false w
      = (w', inr result)
      ∧ getSettings w' = (w', inr settings)
      ∧ settings !! "theme" = Some (JStr "dark")
      ∧ settings !! "language" = Some (JStr "fr").
Proof.
  split; [repeat split|].
  destruct (importMaps_merges_settings sample_toISOString sample_Date_now
              sample_Math_random sample_Date_value (sample_store [])
              sample_envelope_settings sample_incoming getDefaultSettings
              eq_refl eq_refl eq_refl eq_refl) as (w' & result & Hrun & Hget).
  exists w', result. eexists. split; [exact Hrun|]. split; [exact Hget|].
  split; vm_compute; reflexivity.
Defined.

(** X16, on the same store when it accepts one write and refuses the
    next. *)
Lemma importMaps_settings_refused_witness :
  let w := sample_store [None; Some QuotaExceededError] in
  (get "maps" sample_envelope_settings = Some (JArr sample_incoming)
   ∧ faults w = None :: Some QuotaExceededError :: [])
  ∧ ∃ w' result,
      importMaps sample_toISOString sample_Date_now sample_Math_random
        sample_Date_value (Doc sample_envelope_settings) false w
      = (w', inr result)
      ∧ localStorage w' !! SETTINGS_KEY = localStorage w !! SETTINGS_KEY.
Proof.
  split; [split; reflexivity|].
  exact (importMaps_settings_refused sample_toISOString sample_Date_now
           sample_Math_random sample_Date_value
           (sample_store [None; Some QuotaExceededError])
           sample_envelope_settings sample_incoming false QuotaExceededError []
           eq_refl eq_refl).
Defined.

(** X17, on the store of two maps, imported into an empty store. *)
Lemma export_then_import_witness :
  let w := sample_store [] in
  let w0 := World ∅ [] 0 in
  (Forall JSON_stable (visibleMaps w) ∧ length (visibleMaps w) ≤ MAX_MAPS ∧ faults w0 = [])
  ∧ ∃ w1 text w2,
      exportAllMaps sample_toISOString w = (w1, inr text)
      ∧ localStorage w1 = localStorage w
      ∧ importMaps sample_toISOString sample_Date_now sample_Math_random
          sample_Date_value text true w0
        = (w2, inr (ImportResult 2 0 2))
      ∧ length (visibleMaps w2) = 2.
Proof.
  assert (Hcap : length (visibleMaps (sample_store [])) ≤ MAX_MAPS)
    by (vm_compute; lia).
  split; [split; [apply sample_store_stable|split; [exact Hcap|reflexivity]]|].
  destruct (export_then_import sample_toISOString sample_Date_now sample_Math_random
              sample_Date_value sample_clock_nonempty (sample_store []) (World ∅ [] 0)
              (sample_store_stable []) Hcap eq_refl)
    as (w1 & text & w2 & H1 & H2 & H3 & H4 & _).
  exists w1, text, w2. auto.
Defined.

(** X18, on the store whose map has [null] among its markers and no
    version. *)
Lemma migrateMaps_marker_not_object_witness :
  let w := sample_null_marker_store in
  (∃ m, In m (visibleMaps w)
        ∧ needsMigration (JStr VERSION) m = true ∧ migratable m = false)
  ∧ migrateMaps sample_toISOString (JStr "0.9.0") (JStr VERSION) w = (w, inl TypeError).
Proof.
  assert (H : ∃ m, In m (visibleMaps sample_null_marker_store)
                   ∧ needsMigration (JStr VERSION) m = true ∧ migratable m = false).
  { eexists. split; [left; reflexivity|]. split; vm_compute; reflexivity. }
  split; [exact H|].
  exact (migrateMaps_marker_not_object sample_toISOString sample_null_marker_store
           (JStr "0.9.0") (JStr VERSION) H).
Defined.

(** X19, on a store of one earlier record and one current record. *)
Lemma migrateMaps_twice_witness :
  let w := sample_world [JObj sample_legacy_map; JObj sample_current_map] [] in
  ("1.1.0" ≠ "" ∧ faults w = []
   ∧ Forall (λ m, migratable m = true) (visibleMaps w))
  ∧ ∃ w' result,
      migrateMaps sample_toISOString (JStr "1.0.0") (JStr "1.1.0") w = (w', inr result)
      ∧ migrateMaps sample_toISOString (JStr "1.0.0") (JStr "1.1.0") w'
        = (w', inr (MigrateResult 0 (length (visibleMaps w')))).
Proof.
  assert (Hm : Forall (λ m, migratable m = true)
                 (visibleMaps (sample_world [JObj sample_legacy_map;
                                             JObj sample_current_map] []))).
  { repeat constructor. }
  assert (Hs : "1.1.0" ≠ "") by discriminate.
  split; [split; [exact Hs|split; [reflexivity|exact Hm]]|].
  exact (migrateMaps_twice sample_toISOString
           (sample_world [JObj sample_legacy_map; JObj sample_current_map] [])
           (JStr "1.0.0") (JStr "1.0.0") "1.1.0" Hs eq_refl Hm).
Defined.

(** X20, on the store of two maps: a record without title. *)
Lemma saveMap_unvalidated_witness :
  let w := sample_store [] in
  let mapData : gmap string json := <["id" := JStr "z"]> {[ "created" := JStr "2023" ]} in
  (faults w = [] ∧ storable mapData = false)
  ∧ ∃ w',
      saveMap sample_toISOString sample_Date_now sample_Math_random sample_Date_value
        mapData w = (w', inr (JStr "z"))
      ∧ getMapById (JStr "z") w' = (w', inr None).
Proof.
  assert (Hs : storable (<["id" := JStr "z"]> {[ "created" := JStr "2023" ]}) = false)
    by (vm_compute; reflexivity).
  split; [split; [reflexivity|exact Hs]|].
  destruct (saveMap_unvalidated sample_toISOString sample_Date_now sample_Math_random
              sample_Date_value (sample_store [])
              (<["id" := JStr "z"]> {[ "created" := JStr "2023" ]}) eq_refl Hs)
    as (w' & Hrun & _ & Hget).
  exists w'. split; [exact Hrun|]. apply Hget. vm_compute. lia.
Defined.

(** X21, on the full store of the maps of 2000 to 2049: a map of 1999
    is saved. *)
Lemma sample_full_store_stable : Forall JSON_stable (visibleMaps sample_full_store).
Proof. apply JSON_stable_arr. vm_compute. reflexivity. Qed.

Lemma sample_full_store_new_id :
  ∀ x, In x (visibleMaps sample_full_store) → has_id (Some (JStr "old")) x = false.
Proof.
  assert (H : forallb (λ x, negb (has_id (Some (JStr "old")) x))
                (visibleMaps sample_full_store) = true) by (vm_compute; reflexivity).
  intros x Hx. rewrite forallb_forall in H. now apply negb_true_iff, H.
Qed.

Lemma sample_full_store_later :
  ∀ x, In x (visibleMaps sample_full_store) →
       before sample_Date_value (JObj (sample_map "old" "Vieille carte" "1999")) x.
Proof.
  assert (H : forallb (λ x, match createdAt sample_Date_value x with
                            | Some y => (year_start 1999 <? y)%Z
                            | None => false
                            end)
                (visibleMaps sample_full_store) = true) by (vm_compute; reflexivity).
  intros x Hx. rewrite forallb_forall in H. specialize (H x Hx).
  destruct (createdAt sample_Date_value x) as [y|] eqn:Hy; [|discriminate].
  exists (year_start 1999), y. split; [vm_compute; reflexivity|].
  split; [exact Hy|]. now apply Z.ltb_lt.
Qed.

Lemma saveMap_full_store_drops_older_witness :
  let w := sample_full_store in
  let mapData := sample_map "old" "Vieille carte" "1999" in
  (faults w = [] ∧ Forall JSON_stable (visibleMaps w)
   ∧ storable mapData = true ∧ JSON_stable (JObj mapData)
   ∧ length (visibleMaps w) = MAX_MAPS
   ∧ (∀ x, In x (visibleMaps w) → has_id (Some (JStr "old")) x = false)
   ∧ (∀ x, In x (visibleMaps w) → before sample_Date_value (JObj mapData) x))
  ∧ ∃ w',
      saveMap sample_toISOString sample_Date_now sample_Math_random sample_Date_value
        mapData w = (w', inr (JStr "old"))
      ∧ visibleMaps w' = sort (byCreated sample_Date_value) (visibleMaps w)
      ∧ getMapById (JStr "old") w' = (w', inr None).
Proof.
  assert (Hs : storable (sample_map "old" "Vieille carte" "1999") = true)
    by (vm_compute; reflexivity).
  assert (Hm : JSON_stable (JObj (sample_map "old" "Vieille carte" "1999")))
    by (vm_compute; reflexivity).
  assert (Hl : length (visibleMaps sample_full_store) = MAX_MAPS)
    by (vm_compute; reflexivity).
  split.
  - exact (conj eq_refl (conj sample_full_store_stable (conj Hs (conj Hm (conj Hl
             (conj sample_full_store_new_id sample_full_store_later)))))).
  - exact (saveMap_full_store_drops_older sample_toISOString sample_Date_now
             sample_Math_random sample_Date_value sample_clock_nonempty
             sample_full_store (sample_map "old" "Vieille carte" "1999")
             eq_refl sample_full_store_stable Hs Hm Hl
             sample_full_store_new_id sample_full_store_later).
Defined.

(** X22 and X23, on the store of two maps: a record without id is
    saved, read back and deleted. *)
Lemma sample_store_new_id :
  ∀ x, In x (visibleMaps (sample_store [])) →
       has_id (Some (JStr (generatedId sample_Date_now sample_Math_random 0))) x = false.
Proof. intros x [<-|[<-|[]]]; vm_compute; reflexivity. Qed.

Lemma saveMap_new_then_get_witness :
  let w := sample_store [] in
  let mapData := sample_map "" "Nice" "2022" in
  let id := JStr (generatedId sample_Date_now sample_Math_random 0) in
  (faults w = [] ∧ Forall JSON_stable (visibleMaps w)
   ∧ storable mapData = true ∧ JSON_stable (JObj mapData)
   ∧ length (visibleMaps w) < MAX_MAPS
   ∧ (∀ x, In x (visibleMaps w) → has_id (Some id) x = false))
  ∧ ∃ w' saved,
      saveMap sample_toISOString sample_Date_now sample_Math_random sample_Date_value
        mapData w = (w', inr id)
      ∧ getAllMaps w' = (w', inr (visibleMaps w ++ [saved]))
      ∧ getMapById id w' = (w', inr (Some saved))
      ∧ get "id" saved = Some id
      ∧ get "title" saved = Some (JStr "Nice").
Proof.
  assert (Hs : storable (sample_map "" "Nice" "2022") = true) by (vm_compute; reflexivity).
  assert (Hm : JSON_stable (JObj (sample_map "" "Nice" "2022")))
    by (vm_compute; reflexivity).
  assert (Hl : length (visibleMaps (sample_store [])) < MAX_MAPS) by (vm_compute; lia).
  split.
  - exact (conj eq_refl (conj (sample_store_stable []) (conj Hs (conj Hm (conj Hl
             sample_store_new_id))))).
  - destruct (saveMap_new_then_get sample_toISOString sample_Date_now sample_Math_random
                sample_Date_value sample_clock_nonempty (sample_store [])
                (sample_map "" "Nice" "2022") eq_refl (sample_store_stable []) Hs Hm Hl
                sample_store_new_id)
      as (w' & saved & H1 & H2 & H3 & H4 & _ & _ & H7 & _).
    exists w', saved. split; [exact H1|]. split; [exact H2|]. split; [exact H3|].
    split; [exact H4|]. rewrite H7 by discriminate. vm_compute. reflexivity.
Defined.

Lemma saveMap_then_deleteMap_witness :
  let w := sample_store [] in
  let mapData := sample_map "" "Nice" "2022" in
  let id := JStr (generatedId sample_Date_now sample_Math_random 0) in
  (faults w = [] ∧ Forall JSON_stable (visibleMaps w)
   ∧ storable mapData = true ∧ JSON_stable (JObj mapData)
   ∧ length (visibleMaps w) < MAX_MAPS
   ∧ (∀ x, In x (visibleMaps w) → has_id (Some id) x = false))
  ∧ ∃ w1 w2,
      saveMap sample_toISOString sample_Date_now sample_Math_random sample_Date_value
        mapData w = (w1, inr id)
      ∧ deleteMap id w1 = (w2, inr true)
      ∧ getAllMaps w2 = (w2, inr (visibleMaps w))
      ∧ getMapById id w2 = (w2, inr None).
Proof.
  assert (Hs : storable (sample_map "" "Nice" "2022") = true) by (vm_compute; reflexivity).
  assert (Hm : JSON_stable (JObj (sample_map "" "Nice" "2022")))
    by (vm_compute; reflexivity).
  assert (Hl : length (visibleMaps (sample_store [])) < MAX_MAPS) by (vm_compute; lia).
  split.
  - exact (conj eq_refl (conj (sample_store_stable []) (conj Hs (conj Hm (conj Hl
             sample_store_new_id))))).
  - exact (saveMap_then_deleteMap sample_toISOString sample_Date_now sample_Math_random
             sample_Date_value sample_clock_nonempty (sample_store [])
             (sample_map "" "Nice" "2022") eq_refl (sample_store_stable []) Hs Hm Hl
             sample_store_new_id).
Defined.

(** X28, on the store whose map has [null] among its markers: a search
    for a town that is not in its title. *)
Lemma searchMaps_null_marker_witness :
  let w := sample_null_marker_store in
  let m := JObj (<["markers" := JArr [JNull]]> (sample_map "a" "Paris" "2020")) in
  ("Lyon" ≠ "" ∧ String.length (sample_trim "Lyon") ≠ 0
   ∧ In m (visibleMaps w)
   ∧ get "title" m = Some (JStr "Paris")
   ∧ sample_includes (sample_toLowerCase "Paris") (sample_trim (sample_toLowerCase "Lyon"))
     = false
   ∧ get "markers" m = Some (JArr [JNull]))
  ∧ searchMaps sample_toLowerCase sample_trim sample_includes "Lyon" w
    = (w, inl TypeError).
Proof.
  assert (H1 : "Lyon" ≠ "") by discriminate.
  assert (H2 : String.length (sample_trim "Lyon") ≠ 0) by (vm_compute; lia).
  assert (H3 : In (JObj (<["markers" := JArr [JNull]]> (sample_map "a" "Paris" "2020")))
                 (visibleMaps sample_null_marker_store)) by (left; reflexivity).
  assert (H4 : get "title" (JObj (<["markers" := JArr [JNull]]>
                                    (sample_map "a" "Paris" "2020")))
               = Some (JStr "Paris")) by (vm_compute; reflexivity).
  assert (H5 : sample_includes (sample_toLowerCase "Paris")
                 (sample_trim (sample_toLowerCase "Lyon")) = false)
    by (vm_compute; reflexivity).
  assert (H6 : get "markers" (JObj (<["markers" := JArr [JNull]]>
                                      (sample_map "a" "Paris" "2020")))
               = Some (JArr [JNull])) by (vm_compute; reflexivity).
  split; [exact (conj H1 (conj H2 (conj H3 (conj H4 (conj H5 H6)))))|].
  exact (searchMaps_null_marker sample_toLowerCase sample_trim sample_includes
           "Lyon" sample_null_marker_store _ "Paris" [] H1 H2 H3 H4 H5 H6).
Defined.

(** X29, on the store of two maps: a search for a marker title. *)
Lemma searchMaps_returns_witness :
  let w := sample_store [] in
  Forall (λ m, forallb searchable (markersOf m) = true) (visibleMaps w)
  ∧ ∃ found,
      searchMaps sample_toLowerCase sample_trim sample_includes " Position " w
      = (w, inr found)
      ∧ (get "id" <$> found) = [Some (JStr "b")].
Proof.
  assert (H : Forall (λ m, forallb searchable (markersOf m) = true)
                (visibleMaps (sample_store []))).
  { repeat constructor. }
  split; [exact H|].
  destruct (searchMaps_returns sample_toLowerCase sample_trim sample_includes
              " Position " (sample_store []) H) as (found & Hrun & _).
  exists found. split; [exact Hrun|].
  apply (f_equal snd) in Hrun. cbn [snd] in Hrun.
  assert (Hc : (searchMaps sample_toLowerCase sample_trim sample_includes " Position "
                  (sample_store [])).2
               = inr (List.filter (has_id (Some (JStr "b"))) (visibleMaps (sample_store []))))
    by (vm_compute; reflexivity).
  rewrite Hc in Hrun. injection Hrun as <-. vm_compute. reflexivity.
Defined.

(** X11, on the store of two maps: the number handed to [toFixed] is
    100. *)
Example checkDataIntegrity_sample_run :
  let toFixed := λ (x : float) (_ : nat), if PrimFloat.eqb x 100 then "100.0" else "?" in
  checkDataIntegrity toFixed (sample_store [])
  = (sample_store [], inr (Integrity.Report 2 2 0 2 1 (JStr "100.0")))
  ∧ (checkDataIntegrity toFixed (sample_world [] [])).2
    = inr (Integrity.Report 0 0 0 0 0 (JNum 100)).
Proof. split; vm_compute; reflexivity. Qed.
